(** * Athkary bot: request pipeline and Hadith API client

    A shallow embedding of the parts of the bot that carry logic:
    - [rateLimitMiddleware] and [determineRateLimit] (middlewares/rateLimit.js),
    - [authMiddleware] (middlewares/auth.js),
    - the [HadithAPI] class (api/hadith.js): [search], [getRandom],
      [processSearchResponse], [normalizeHadithData], [saveHadithToDatabase],
      [getRandomFromDatabase], [generateCacheKey] and the text utilities,
    - [db.cache] and [db.user.findOrCreate] (database/index.js),
    - [handleTextSearch] (handlers/search.js),
    - the maintenance functions of the rate limiter ([cleanupRateLimitStore],
      [resetUserRateLimit], [setUserBlock]), [requireAdmin] and
      [rateLimitOperation] (middlewares/auth.js), and [getById].

    JavaScript strings are sequences of UTF-16 code units, JSON payloads are
    an inductive type, and effectful code is written in a state-and-exception
    monad over an explicit [World]. *)

From Stdlib Require Import ZArith NArith Lia List Ascii String Sorted.
From stdpp Require Import base option list gmap.

Set Warnings "-register-all".
Local Open Scope Z_scope.

(** ** JavaScript strings *)

(** A JS string is a list of UTF-16 code units. *)
Definition ustring : Type := list N.

(** Code units of an ASCII literal. *)
Fixpoint u (s : string) : ustring :=
  match s with
  | EmptyString => []
  | String a s' => N_of_ascii a :: u s'
  end.

Definition in_range (lo hi c : N) : bool := (lo <=? c)%N && (c <=? hi)%N.

(** White space and line terminators: what [String.prototype.trim] strips
    and what the regular expression class [\s] matches. *)
Definition is_ws (c : N) : bool :=
  in_range 9 13 c || (c =? 32)%N || (c =? 160)%N || (c =? 0x1680)%N
  || in_range 0x2000 0x200A c || (c =? 0x2028)%N || (c =? 0x2029)%N
  || (c =? 0x202F)%N || (c =? 0x205F)%N || (c =? 0x3000)%N || (c =? 0xFEFF)%N.

Fixpoint drop_while {A} (p : A -> bool) (l : list A) : list A :=
  match l with
  | [] => []
  | x :: l' => if p x then drop_while p l' else l
  end.

Fixpoint take_while {A} (p : A -> bool) (l : list A) : list A :=
  match l with
  | [] => []
  | x :: l' => if p x then x :: take_while p l' else []
  end.

Definition trimStart (s : ustring) : ustring := drop_while is_ws s.
Definition trimEnd (s : ustring) : ustring := rev (drop_while is_ws (rev s)).
Definition trim (s : ustring) : ustring := trimEnd (trimStart s).

(** [s.replace(/\s+/g, ' ')]: every maximal run of white space becomes one
    space.  [in_run] tells whether the previous code unit was white space. *)
Fixpoint collapse_ws_from (in_run : bool) (s : ustring) : ustring :=
  match s with
  | [] => []
  | c :: s' =>
      if is_ws c
      then if in_run then collapse_ws_from true s' else 32%N :: collapse_ws_from true s'
      else c :: collapse_ws_from false s'
  end.
Definition collapse_ws (s : ustring) : ustring := collapse_ws_from false s.

(** The class [[\u200B-\u200D\uFEFF]] of zero-width characters. *)
Definition is_zero_width (c : N) : bool := in_range 0x200B 0x200D c || (c =? 0xFEFF)%N.

(** [s.replace(/[\u200B-\u200D\uFEFF]/g, '')] *)
Definition strip_zero_width (s : ustring) : ustring :=
  List.filter (fun c => negb (is_zero_width c)) s.

Definition ustring_eqb (a b : ustring) : bool := bool_decide (a = b).

(** [s.startsWith(p)] *)
Fixpoint startsWith (s p : ustring) : bool :=
  match p, s with
  | [], _ => true
  | _ :: _, [] => false
  | a :: p', b :: s' => (a =? b)%N && startsWith s' p'
  end.

(** [s.includes(p)] *)
Fixpoint includes (s p : ustring) : bool :=
  startsWith s p ||
  match s with
  | [] => false
  | _ :: s' => includes s' p
  end.

(** [s.split(sep)] for a separator that is one code unit out of a class. *)
Fixpoint split_on (sep : N -> bool) (cur : ustring) (s : ustring) : list ustring :=
  match s with
  | [] => [rev cur]
  | c :: s' => if sep c then rev cur :: split_on sep [] s' else split_on sep (c :: cur) s'
  end.
Definition split (sep : N -> bool) (s : ustring) : list ustring := split_on sep [] s.

(** [parts.join(sep)] *)
Fixpoint join (sep : ustring) (parts : list ustring) : ustring :=
  match parts with
  | [] => []
  | [p] => p
  | p :: rest => p ++ sep ++ join sep rest
  end.

(** ** JSON values and the few JavaScript coercions the code relies on *)

(** A number is kept as the text [Number.prototype.toString] prints for it:
    the code only tests numbers for truthiness and turns them into strings.
    JSON has no NaN, so the only falsy number prints as [0]. *)
Inductive json : Type :=
| JNull
| JBool (b : bool)
| JNum (printed : ustring)
| JStr (s : ustring)
| JArr (items : list json)
| JObj (fields : list (ustring * json)).

(** A JavaScript value read from a JSON document: [None] is [undefined]. *)
Definition jsval : Type := option json.

Definition truthy (v : jsval) : bool :=
  match v with
  | None | Some JNull => false
  | Some (JBool b) => b
  | Some (JNum p) => negb (ustring_eqb p (u "0"))
  | Some (JStr s) => negb (ustring_eqb s [])
  | Some (JArr _) | Some (JObj _) => true
  end.

(** [a || b] *)
Definition or_else (a b : jsval) : jsval := if truthy a then a else b.

Fixpoint assoc (k : ustring) (fields : list (ustring * json)) : jsval :=
  match fields with
  | [] => None
  | (k', v) :: rest => if ustring_eqb k k' then Some v else assoc k rest
  end.

(** [o.k]: reading a property of a primitive, or a missing one, gives
    [undefined].  (Reading a property of [null] throws; see [prop].) *)
Definition field (o : json) (k : string) : jsval :=
  match o with
  | JObj fields => assoc (u k) fields
  | _ => None
  end.

(** [v.toString()] on a non-nullish value; array elements that are [null]
    print as the empty string. *)
Fixpoint toString (v : json) : ustring :=
  match v with
  | JNull => u "null"
  | JBool true => u "true"
  | JBool false => u "false"
  | JNum p => p
  | JStr s => s
  | JArr items =>
      join (u ",") (List.map (fun x => match x with JNull => [] | _ => toString x end) items)
  | JObj _ => u "[object Object]"
  end.

(** [v?.toString() || null] *)
Definition toString_or_null (v : jsval) : option ustring :=
  match v with
  | None | Some JNull => None
  | Some x => let s := toString x in if ustring_eqb s [] then None else Some s
  end.

(** [typeof v === 'string'] together with the value *)
Definition as_string (v : jsval) : option ustring :=
  match v with
  | Some (JStr s) => Some s
  | _ => None
  end.

(** [a === b] on values read from JSON: arrays and objects are compared by
    reference, and two parsed documents never share one. *)
Definition strict_eq (a b : jsval) : bool :=
  match a, b with
  | None, None => true
  | Some JNull, Some JNull => true
  | Some (JBool x), Some (JBool y) => bool_decide (x = y)
  | Some (JNum x), Some (JNum y) => ustring_eqb x y
  | Some (JStr x), Some (JStr y) => ustring_eqb x y
  | _, _ => false
  end.

(** ** Data model *)

(** What [normalizeGrade] can put in the [grade] field.  [gradeMap] is an
    object literal, so a lookup also finds the two lower-case names it
    inherits from [Object.prototype] ([constructor] and [__proto__]); for
    these the field holds something that is no text. *)
Inductive Grade : Type :=
| GradeNull
| GradeText (s : ustring)
| GradeNotText.

(** The record built by [normalizeHadithData]. *)
Record HadithData : Type := {
  id : ustring;
  dorarId : option ustring;
  text : ustring;
  arabicText : ustring;
  narrator : ustring;
  source : ustring;
  book : ustring;
  chapter : ustring;
  hadithNumber : option ustring;
  grade : Grade;
  topic : option ustring;
  keywords : ustring;
  translation : ustring;
  explanation : ustring;
  isVerified : bool
}.

(** Modelled from the spec: a row of the [hadith] table, whose schema file
    is not part of the sources.  It is the normalized record plus the
    columns the store maintains: the search counter and the two timestamps.
    [id] is the primary key and [dorarId] is unique ([findUnique] is called
    with either). *)
Record Row : Type := {
  row_data : HadithData;
  searchCount : Z;
  createdAt : Z;
  updatedAt : Z
}.

(** What [normalizeHadithData] hands back: [savedHadith || hadithData]. *)
Inductive Hadith : Type :=
| Saved (r : Row)
| Unsaved (d : HadithData).

Definition hadith_data (h : Hadith) : HadithData :=
  match h with
  | Saved r => row_data r
  | Unsaved d => d
  end.

(** A row of the [cache] table.  [data] holds [JSON.stringify] of a result
    list and is read back with [JSON.parse]; the list itself stands for its
    serialization here. *)
Record CacheEntry : Type := {
  data : list Hadith;
  expiresAt : Z
}.

(** One entry of [rateLimitStore]. *)
Record RateLimitData : Type := {
  requests : list Z;
  blocked : bool;
  blockedUntil : Z
}.

Inductive Operation : Type :=
| OpSearch | OpRandom | OpFavorite | OpAdmin | OpCommand | OpCallback.

Definition operation_name (op : Operation) : ustring :=
  match op with
  | OpSearch => u "search"
  | OpRandom => u "random"
  | OpFavorite => u "favorite"
  | OpAdmin => u "admin"
  | OpCommand => u "command"
  | OpCallback => u "callback"
  end.

(** The user row the auth gate resolves, and the sender Telegram reports. *)
Record User : Type := {
  user_id : json;
  telegramId : json;
  isBlocked : bool;
  isActive : bool;
  isPremium : bool;
  preferences : option ustring
}.

Record TelegramUser : Type := {
  tg_id : json;
  is_bot : bool
}.

(** The part of the Telegraf context the middlewares and handlers read.
    [ctx_callbackQuery] is [Some None] for a callback query without [data]. *)
Record Ctx : Type := {
  ctx_from : option TelegramUser;
  ctx_botInfo_id : jsval;
  ctx_user : option User;
  ctx_has_session : bool;
  ctx_text : option ustring;
  ctx_callbackQuery : option (option ustring)
}.

Definition set_ctx_user (user : User) (ctx : Ctx) : Ctx :=
  {| ctx_from := ctx_from ctx; ctx_botInfo_id := ctx_botInfo_id ctx;
     ctx_user := Some user; ctx_has_session := ctx_has_session ctx;
     ctx_text := ctx_text ctx; ctx_callbackQuery := ctx_callbackQuery ctx |}.

(** ** Effects *)

Inductive error : Type :=
| TypeError        (* property of null, call of something that is no function *)
| InvalidInput     (* Error('Search query is required and must be a non-empty string') *)
| TransportError   (* the HTTP client rejects: timeout, no connection, non-2xx *)
| StorageError     (* the store rejects: validation or constraint violation *)
| SyntaxError      (* JSON.parse *)
| TelegramError    (* a send the chat platform refuses *)
| DownstreamError. (* raised by a later middleware or handler *)

Inductive outcome (A : Type) : Type :=
| Returned (a : A)
| Threw (e : error).
Arguments Returned {A} a.
Arguments Threw {A} e.

(** User-visible texts, by template and parameters. *)
Inductive Message : Type :=
| MsgRateLimitActive (op : Operation) (remainingTime : Z)
| MsgRateLimitExceeded (op : Operation) (limit : Z) (seconds : Z)
| MsgUserBlocked
| MsgSendFailed
| MsgQueryTooShort
| MsgLoading
| MsgNoResults (query : ustring)
| MsgSearchResults (page : list Hadith) (query : ustring) (pages : Z)
| MsgSearchFailed
| MsgNotAuthorized
| MsgAdminOnly
| MsgOperationLimit (operation : ustring).

Inductive LogLevel : Type :=
  LError | LWarn | LInfo | LDebug | LSecurity | LCache | LActivity.

Inductive Event : Type :=
| EvLog (level : LogLevel) (what : string)
| EvReply (m : Message)                       (* a send or edit was attempted *)
| EvNext                                      (* the downstream chain was invoked *)
| EvUserWrite (what : string)                 (* a write to the user table *)
| EvApiGet (skey : ustring) (options : json). (* GET on the external API *)

Record World : Type := {
  now : Z;                                   (* what Date.now() reads *)
  rateLimitStore : gmap ustring RateLimitData;
  hadithTable : list Row;                    (* oldest row first *)
  cacheTable : gmap ustring CacheEntry;
  uuidsDrawn : nat;
  randomsDrawn : nat;
  events : list Event                        (* oldest first *)
}.

Definition set_now (t : Z) (w : World) : World :=
  {| now := t; rateLimitStore := rateLimitStore w; hadithTable := hadithTable w;
     cacheTable := cacheTable w; uuidsDrawn := uuidsDrawn w;
     randomsDrawn := randomsDrawn w; events := events w |}.
Definition set_rateLimitStore (s : gmap ustring RateLimitData) (w : World) : World :=
  {| now := now w; rateLimitStore := s; hadithTable := hadithTable w;
     cacheTable := cacheTable w; uuidsDrawn := uuidsDrawn w;
     randomsDrawn := randomsDrawn w; events := events w |}.
Definition set_hadithTable (t : list Row) (w : World) : World :=
  {| now := now w; rateLimitStore := rateLimitStore w; hadithTable := t;
     cacheTable := cacheTable w; uuidsDrawn := uuidsDrawn w;
     randomsDrawn := randomsDrawn w; events := events w |}.
Definition set_cacheTable (c : gmap ustring CacheEntry) (w : World) : World :=
  {| now := now w; rateLimitStore := rateLimitStore w; hadithTable := hadithTable w;
     cacheTable := c; uuidsDrawn := uuidsDrawn w;
     randomsDrawn := randomsDrawn w; events := events w |}.
Definition set_uuidsDrawn (n : nat) (w : World) : World :=
  {| now := now w; rateLimitStore := rateLimitStore w; hadithTable := hadithTable w;
     cacheTable := cacheTable w; uuidsDrawn := n;
     randomsDrawn := randomsDrawn w; events := events w |}.
Definition set_events (e : list Event) (w : World) : World :=
  {| now := now w; rateLimitStore := rateLimitStore w; hadithTable := hadithTable w;
     cacheTable := cacheTable w; uuidsDrawn := uuidsDrawn w;
     randomsDrawn := randomsDrawn w; events := e |}.

(** A computation reads and writes the world and returns or throws. *)
Definition M (A : Type) : Type := World -> outcome A * World.

Definition ret {A} (a : A) : M A := fun w => (Returned a, w).
Definition throw {A} (e : error) : M A := fun w => (Threw e, w).
Definition bind {A B} (c : M A) (k : A -> M B) : M B :=
  fun w =>
    match c w with
    | (Returned a, w') => k a w'
    | (Threw e, w') => (Threw e, w')
    end.
(** [try { c } catch (error) { h error }] *)
Definition try_catch {A} (c : M A) (h : error -> M A) : M A :=
  fun w =>
    match c w with
    | (Returned a, w') => (Returned a, w')
    | (Threw e, w') => h e w'
    end.
Definition lift {A} (o : outcome A) : M A := fun w => (o, w).
Definition gets {A} (f : World -> A) : M A := fun w => (Returned (f w), w).
Definition modify (f : World -> World) : M unit := fun w => (Returned tt, f w).

Notation "'let*' x ':=' c 'in' k" := (bind c (fun x => k))
  (at level 10, x name, c at level 100, k at level 200).
Notation "c ';;' k" := (bind c (fun _ => k))
  (at level 100, k at level 200, right associativity).

Definition emit (e : Event) : M unit := modify (fun w => set_events (events w ++ [e]) w).
Definition log (level : LogLevel) (what : string) : M unit := emit (EvLog level what).
Definition Date_now : M Z := gets now.

(** The events a computation added to the world. *)
Definition new_events (w w' : World) : list Event := drop (length (events w)) (events w').
Definition is_api_get (e : Event) : bool :=
  match e with EvApiGet _ _ => true | _ => false end.
Definition api_requests (evs : list Event) : list Event := List.filter is_api_get evs.

(** ** What the code takes from outside *)

(** The JavaScript runtime functions that are not re-implemented here, the
    two values config/index.js reads from the process environment, and the
    answers of the outside world, indexed by how many were asked before. *)
Record Env : Type := {
  toLowerCase : ustring -> ustring;          (* String.prototype.toLowerCase *)
  nfkc : ustring -> ustring;                 (* s.normalize('NFKC') *)
  JSON_parse : ustring -> outcome json;
  cfg_adminId : json;                        (* config.bot.adminId *)
  cfg_cacheTtl : Z;                          (* config.api.cacheTtl, seconds *)
  api_get : nat -> ustring -> json -> outcome json;  (* n-th GET: response.data *)
  uuidv4_at : nat -> ustring;                (* n-th uuidv4() *)
  random_at : nat -> Z;                      (* n-th Math.random(), times 2^53 *)
  telegram_ok : nat -> bool;                 (* is the send after n events accepted *)
  user_upsert : TelegramUser -> outcome (option User)  (* prisma.user.upsert *)
}.

(** [config.rateLimits] *)
Record RateLimitConfig : Type := {
  rl_requests : Z;
  rl_window : Z
}.
Definition rateLimits_search : RateLimitConfig := {| rl_requests := 30; rl_window := 60000 |}.
Definition rateLimits_random : RateLimitConfig := {| rl_requests := 10; rl_window := 60000 |}.
Definition rateLimits_favorite : RateLimitConfig := {| rl_requests := 50; rl_window := 60000 |}.
Definition rateLimits_admin : RateLimitConfig := {| rl_requests := 100; rl_window := 60000 |}.

(** ** Example inputs *)

(** [toLowerCase] restricted to the letters A to Z; the examples below only
    lower-case ASCII text, on which it agrees with the runtime's. *)
Definition ascii_lower (s : ustring) : ustring :=
  List.map (fun c => if in_range 65 90 c then (c + 32)%N else c) s.

(** An environment for the examples: administrator 1001, the default cache
    lifetime of one hour, uuids [a], [aa], [aaa], ..., and [Math.random]
    always 0.  NFKC is the identity on the ASCII and plain Arabic letters
    the examples use. *)
Definition example_env (api : nat -> ustring -> json -> outcome json)
    (sends : nat -> bool) (upsert : TelegramUser -> outcome (option User)) : Env :=
  {| toLowerCase := ascii_lower;
     nfkc := fun s => s;
     JSON_parse := fun _ => Returned (JObj []);
     cfg_adminId := JNum (u "1001");
     cfg_cacheTtl := 3600;
     api_get := api;
     uuidv4_at := fun n => repeat 97%N (S n);
     random_at := fun _ => 0;
     telegram_ok := sends;
     user_upsert := upsert |}.

Definition no_user (_ : TelegramUser) : outcome (option User) := Returned None.

Definition api_down (_ : nat) (_ : ustring) (_ : json) : outcome json := Threw TransportError.

(** Two elements with the same id and different text. *)
Definition raw_first : json :=
  JObj [(u "id", JNum (u "7")); (u "hadith", JStr (u "first text"))].
Definition raw_second : json :=
  JObj [(u "id", JNum (u "7")); (u "hadith", JStr (u "second text"))].

Definition api_one_result (_ : nat) (_ : ustring) (_ : json) : outcome json :=
  Returned (JArr [raw_first]).

Definition env_api_up : Env := example_env api_one_result (fun _ => true) no_user.
Definition env_api_down : Env := example_env api_down (fun _ => true) no_user.

Definition empty_world : World :=
  {| now := 0; rateLimitStore := ∅; hadithTable := []; cacheTable := ∅;
     uuidsDrawn := 0; randomsDrawn := 0; events := [] |}.

Definition sender (n : string) : TelegramUser := {| tg_id := JNum (u n); is_bot := false |}.

Definition member (n : string) (is_blocked : bool) : User :=
  {| user_id := JNum (u n); telegramId := JNum (u n); isBlocked := is_blocked;
     isActive := true; isPremium := false; preferences := None |}.

(** A text message from a user the gate has resolved. *)
Definition message_ctx (user : option User) (from : string) (text : string) : Ctx :=
  {| ctx_from := Some (sender from); ctx_botInfo_id := Some (JNum (u "7"));
     ctx_user := user; ctx_has_session := true;
     ctx_text := Some (u text); ctx_callbackQuery := None |}.

Definition visitor_random : Ctx := message_ctx (Some (member "42" false)) "42" "/random".
Definition admin_search : Ctx := message_ctx (Some (member "1001" false)) "1001" "/search".
Definition admin_admin : Ctx := message_ctx (Some (member "1001" false)) "1001" "/admin".

(** A blocked user writes to the bot. *)
Definition blocked_upsert (_ : TelegramUser) : outcome (option User) :=
  Returned (Some (member "13" true)).
Definition blocked_ctx : Ctx := message_ctx None "13" "hello".
Definition env_sends_ok : Env := example_env api_down (fun _ => true) blocked_upsert.
Definition env_sends_fail : Env := example_env api_down (fun _ => false) blocked_upsert.

(** A stored row about prayer, verified or not. *)
Definition example_row (verified : bool) : Row :=
  {| row_data :=
       {| id := u "row-1"; dorarId := Some (u "1"); text := u "text";
          arabicText := []; narrator := u "narrator"; source := u "source";
          book := u "book"; chapter := []; hadithNumber := None;
          grade := GradeNull; topic := Some (u "prayer"); keywords := [];
          translation := []; explanation := []; isVerified := verified |};
     searchCount := 0; createdAt := 0; updatedAt := 0 |}.

Definition world_with_row (verified : bool) : World :=
  {| now := 0; rateLimitStore := ∅; hadithTable := [example_row verified];
     cacheTable := ∅; uuidsDrawn := 0; randomsDrawn := 0; events := [] |}.


(** Two source labels: a chapter of Sahih al-Bukhari, and an unknown book. *)
Definition source_bukhari : ustring :=
  [0x0635; 0x062D; 0x064A; 0x062D; 0x0020; 0x0627; 0x0644; 0x0628; 0x062E; 0x0627;
   0x0631; 0x064A; 0x0020; 0x002D; 0x0020; 0x0643; 0x062A; 0x0627; 0x0628; 0x0020;
   0x0627; 0x0644; 0x0635; 0x0644; 0x0627; 0x0629]%N.
Definition source_unknown : ustring :=
  [0x0643; 0x062A; 0x0627; 0x0628; 0x0020; 0x063A; 0x064A; 0x0631; 0x0020; 0x0645;
   0x0639; 0x0631; 0x0648; 0x0641]%N.

(** A visitor whose [/random] window holds two requests, at time 3000. *)
Definition two_requests : RateLimitData :=
  {| requests := [1000; 2000]; blocked := false; blockedUntil := 0 |}.

(** An entry left blocked by a block that ended at 5000. *)
Definition stale_block : RateLimitData :=
  {| requests := [1000]; blocked := true; blockedUntil := 5000 |}.

Definition world_with_entry (key : string) (d : RateLimitData) (t : Z) : World :=
  {| now := t; rateLimitStore := {[ u key := d ]}; hadithTable := []; cacheTable := ∅;
     uuidsDrawn := 0; randomsDrawn := 0; events := [] |}.

(** A cache row that expired at 5, seen at 10. *)
Definition world_with_cache_row : World :=
  {| now := 10; rateLimitStore := ∅; hadithTable := [];
     cacheTable := {[ u "k" := {| data := []; expiresAt := 5 |} ]};
     uuidsDrawn := 0; randomsDrawn := 0; events := [] |}.

(** A non-administrator sends [/admin]. *)
Definition visitor_admin : Ctx := message_ctx (Some (member "42" false)) "42" "/admin".

(** An update without sender, such as a channel post. *)
Definition channel_post : Ctx :=
  {| ctx_from := None; ctx_botInfo_id := Some (JNum (u "7")); ctx_user := None;
     ctx_has_session := true; ctx_text := Some (u "news"); ctx_callbackQuery := None |}.

(** A first message from user 42; the user table answers, or fails. *)
Definition first_message : Ctx := message_ctx None "42" "hello".
Definition known_upsert (_ : TelegramUser) : outcome (option User) :=
  Returned (Some (member "42" false)).
Definition failing_upsert (_ : TelegramUser) : outcome (option User) := Threw StorageError.
Definition env_member : Env := example_env api_down (fun _ => true) known_upsert.
Definition env_store_down : Env := example_env api_down (fun _ => true) failing_upsert.

(** A handler that always throws. *)
Definition failing_handler (_ : Ctx) : M unit := throw DownstreamError.

Section Bot.

Variable E : Env.

(** ** Context helpers (middlewares/auth.js, [addContextHelpers]) *)

(** [ctx.reply(m)]: the send is attempted and may be refused. *)
Definition reply (m : Message) : M unit :=
  fun w =>
    let w' := set_events (events w ++ [EvReply m]) w in
    if telegram_ok E (length (events w)) then (Returned tt, w') else (Threw TelegramError, w').

(** [ctx.safeReply], which the auth gate attaches before the rate limiter
    and the handlers run: tells whether a sent message came back. *)
Definition safeReply (m : Message) : M bool :=
  try_catch (reply m ;; ret true)
    (fun _ =>
       log LError "safe_reply" ;;
       try_catch (reply MsgSendFailed ;; ret true)
         (fun _ => log LError "safe_reply_retry" ;; ret false)).

(** ** middlewares/rateLimit.js *)

(** [Math.ceil(a / b)] and [Math.round(a / b)] for integers, [b > 0]. *)
Definition ceil_div (a b : Z) : Z := - ((- a) / b).
Definition round_div (a b : Z) : Z := (2 * a + b) / (2 * b).

(** [next()]: the rest of the chain runs; what it does is not modelled. *)
Definition next : M unit := emit EvNext.

Definition isAdmin (ctx : Ctx) : bool :=
  strict_eq (option_map telegramId (ctx_user ctx)) (Some (cfg_adminId E)).

Definition rate (op : Operation) (limit window : Z) : outcome (option (Operation * Z * Z)) :=
  Returned (Some (op, limit, window)).

Definition determineRateLimit (ctx : Ctx) : outcome (option (Operation * Z * Z)) :=
  let multiplier := if isAdmin ctx then 5 else 1 in
  let search :=
    rate OpSearch (rl_requests rateLimits_search * multiplier) (rl_window rateLimits_search) in
  let favorite :=
    rate OpFavorite (rl_requests rateLimits_favorite * multiplier)
         (rl_window rateLimits_favorite) in
  let admin := rate OpAdmin (rl_requests rateLimits_admin) (rl_window rateLimits_admin) in
  (* what follows the command switch *)
  let after_commands :=
    match ctx_callbackQuery ctx with
    | Some None => Threw TypeError            (* data.startsWith on undefined *)
    | Some (Some data) =>
        if startsWith data (u "search_") || startsWith data (u "nav_") then search
        else if startsWith data (u "favorite_") then favorite
        else if startsWith data (u "admin_") && isAdmin ctx then admin
        else rate OpCallback (100 * multiplier) 60000
    | None =>
        match ctx_text ctx with
        | Some t =>
            if negb (ustring_eqb t []) && negb (startsWith t (u "/")) then search
            else Returned None
        | None => Returned None
        end
    end in
  match ctx_text ctx with
  | Some t =>
      if startsWith t (u "/") then
        (* text.split(' ')[0].toLowerCase() *)
        let command := toLowerCase E (take_while (fun c => negb (c =? 32)%N) t) in
        if ustring_eqb command (u "/search") then search
        else if ustring_eqb command (u "/random") then
          rate OpRandom (rl_requests rateLimits_random * multiplier)
               (rl_window rateLimits_random)
        else if ustring_eqb command (u "/favorites") || ustring_eqb command (u "/fav") then
          favorite
        else if ustring_eqb command (u "/admin") then
          if isAdmin ctx then admin else after_commands
        else rate OpCommand (50 * multiplier) 60000
      else after_commands
  | None => after_commands
  end.

Definition store_get (key : ustring) : M (option RateLimitData) :=
  gets (fun w => rateLimitStore w !! key).
Definition store_set (key : ustring) (d : RateLimitData) : M unit :=
  modify (fun w => set_rateLimitStore (<[key := d]> (rateLimitStore w)) w).

Definition rateLimitKey (userId : json) (op : Operation) : ustring :=
  toString userId ++ u ":" ++ operation_name op.

Definition rateLimitMiddleware (ctx : Ctx) : M unit :=
  try_catch
    (match or_else (option_map user_id (ctx_user ctx)) (option_map tg_id (ctx_from ctx)) with
     | None => next
     | Some userId =>
       if negb (truthy (Some userId)) then next else
       let* rl := lift (determineRateLimit ctx) in
       match rl with
       | None => next
       | Some (operation, limit, window) =>
         let key := rateLimitKey userId operation in
         let* currentTime := Date_now in
         let* existing := store_get key in
         let fresh := {| requests := []; blocked := false; blockedUntil := 0 |} in
         (match existing with None => store_set key fresh | Some _ => ret tt end) ;;
         let rateLimitData := default fresh existing in
         if blocked rateLimitData && (currentTime <? blockedUntil rateLimitData) then
           let remainingTime := ceil_div (blockedUntil rateLimitData - currentTime) 1000 in
           log LSecurity "Rate limit blocked request" ;;
           safeReply (MsgRateLimitActive operation remainingTime) ;;
           ret tt
         else
           let kept :=
             List.filter (fun timestamp => currentTime - timestamp <? window)
                         (requests rateLimitData) in
           if Z.of_nat (length kept) >=? limit then
             store_set key {| requests := kept; blocked := true;
                              blockedUntil := currentTime + window |} ;;
             log LSecurity "Rate limit exceeded" ;;
             safeReply (MsgRateLimitExceeded operation limit (round_div window 1000)) ;;
             ret tt
           else
             (if blocked rateLimitData && (currentTime >=? blockedUntil rateLimitData)
              then store_set key {| requests := kept ++ [currentTime]; blocked := false;
                                    blockedUntil := 0 |}
              else store_set key {| requests := kept ++ [currentTime];
                                    blocked := blocked rateLimitData;
                                    blockedUntil := blockedUntil rateLimitData |}) ;;
             next
       end
     end)
    (fun _ => log LError "rate_limit_middleware" ;; next).


Definition rejected_with (m : Message) (evs : list Event) : Prop :=
  In (EvReply m) evs /\ ~ In EvNext evs.

(** The limit config/index.js and the code give each category before any
    multiplier. *)
Definition configured_limit (op : Operation) : Z :=
  match op with
  | OpSearch => rl_requests rateLimits_search
  | OpRandom => rl_requests rateLimits_random
  | OpFavorite => rl_requests rateLimits_favorite
  | OpAdmin => rl_requests rateLimits_admin
  | OpCommand => 50
  | OpCallback => 100
  end.

(** ** database/index.js: [db.user] and [db.cache] *)

(** [db.user.findOrCreate]: logs and rethrows what the upsert throws. *)
Definition findOrCreate (telegramUser : TelegramUser) : M (option User) :=
  try_catch
    (let* user := lift (user_upsert E telegramUser) in
     emit (EvUserWrite "upsert") ;;
     ret user)
    (fun e => log LError "user_find_or_create" ;; throw e).

(** [db.cache.get]: a row whose expiry lies before now is deleted and
    reported as a miss.  The [prisma.cache] calls do not fail in this model,
    so the function's own [catch] is not shown. *)
Definition cache_get (key : ustring) : M (option (list Hadith)) :=
  let* cached := gets (fun w => cacheTable w !! key) in
  match cached with
  | None => log LCache "miss" ;; ret None
  | Some entry =>
      let* t := Date_now in
      if expiresAt entry <? t then
        modify (fun w => set_cacheTable (delete key (cacheTable w)) w) ;;
        log LCache "expired" ;;
        ret None
      else
        log LCache "hit" ;;
        ret (Some (data entry))
  end.

(** [db.cache.set]: an upsert on the key. *)
Definition cache_set (key : ustring) (value : list Hadith) (expiry : Z) : M unit :=
  modify (fun w =>
    set_cacheTable (<[key := {| data := value; expiresAt := expiry |}]> (cacheTable w)) w).

(** ** middlewares/auth.js *)

(** What the single [catch] of [authMiddleware] does; [ctx] is the context
    as the [try] block left it. *)
Definition auth_catch (downstream : Ctx -> M unit) (ctx : Ctx) : error -> M unit :=
  fun _ =>
    log LError "auth_middleware" ;;
    try_catch (emit EvNext ;; downstream ctx)
      (fun _ => log LError "auth_middleware_next").

(** The [try] block up to the assignment [ctx.user = user]: [Some user] if
    the gate goes on, [None] if it has returned. *)
Definition auth_resolve (ctx : Ctx) : M (option User) :=
  match ctx_from ctx with
  | None => log LWarn "No user information in update" ;; ret None
  | Some telegramUser =>
      if is_bot telegramUser
         && negb (strict_eq (Some (tg_id telegramUser)) (ctx_botInfo_id ctx))
      then log LSecurity "Bot user detected" ;; ret None
      else
        let* found := findOrCreate telegramUser in
        match found with
        | None => log LWarn "Failed to create/find user" ;; ret None
        | Some user =>
            if isBlocked user then
              log LSecurity "Blocked user attempted access" ;;
              reply MsgUserBlocked ;;
              ret None
            else
              (if negb (isActive user)
               then log LActivity "inactive_user_access" ;; emit (EvUserWrite "isActive")
               else ret tt) ;;
              emit (EvUserWrite "lastActivity") ;;
              ret (Some user)
        end
  end.

(** [authMiddleware(ctx, next)].  The context is a mutable object: what
    [next] and the [catch] block see depends on whether [ctx.user] was
    already assigned, so the one [try] block is written in two parts that
    share the handler. *)
Definition authMiddleware (ctx : Ctx) (downstream : Ctx -> M unit) : M unit :=
  let* resolved :=
    try_catch (auth_resolve ctx)
      (fun e => auth_catch downstream ctx e ;; ret None) in
  match resolved with
  | None => ret tt
  | Some user =>
      let ctx' := set_ctx_user user ctx in
      try_catch
        ((if ctx_has_session ctx then ret tt else throw TypeError) ;;
         lift (JSON_parse E (match preferences user with
                             | Some p => if ustring_eqb p [] then u "{}" else p
                             | None => u "{}"
                             end)) ;;
         log LInfo "telegram_update" ;;
         emit EvNext ;;
         downstream ctx')
        (auth_catch downstream ctx')
  end.

(** ** api/hadith.js: text utilities *)

Definition cleanText (v : jsval) : ustring :=
  match as_string v with
  | Some s => if ustring_eqb s [] then [] else strip_zero_width (collapse_ws (trim s))
  | None => []
  end.

Definition cleanArabicText (v : jsval) : ustring :=
  match as_string v with
  | Some s =>
      if ustring_eqb s [] then [] else strip_zero_width (nfkc E (collapse_ws (trim s)))
  | None => []
  end.

Definition grade_sahih : ustring := [0x0635; 0x062D; 0x064A; 0x062D]%N.
Definition grade_hasan : ustring := [0x062D; 0x0633; 0x0646]%N.
Definition grade_daif : ustring := [0x0636; 0x0639; 0x064A; 0x0641]%N.
Definition grade_mawdu : ustring := [0x0645; 0x0648; 0x0636; 0x0648; 0x0639]%N.

Definition gradeMap : list (ustring * ustring) :=
  [ (grade_sahih, grade_sahih); (grade_hasan, grade_hasan);
    (grade_daif, grade_daif); (grade_mawdu, grade_mawdu);
    (u "sahih", grade_sahih); (u "hasan", grade_hasan);
    (u "weak", grade_daif); (u "fabricated", grade_mawdu) ].

Fixpoint own_property (k : ustring) (m : list (ustring * ustring)) : option ustring :=
  match m with
  | [] => None
  | (k', v) :: rest => if ustring_eqb k k' then Some v else own_property k rest
  end.

Definition normalizeGrade (grade : jsval) : Grade :=
  match as_string grade with
  | None => GradeNull
  | Some g =>
      if ustring_eqb g [] then GradeNull else
      let normalized := trim (toLowerCase E g) in
      match own_property normalized gradeMap with
      | Some label => GradeText label
      | None =>
          if ustring_eqb normalized (u "constructor") || ustring_eqb normalized (u "__proto__")
          then GradeNotText
          else GradeText (trim g)
      end
  end.

Definition extractTopic (rawHadith : json) : option ustring :=
  let usable (v : jsval) :=
    match as_string v with
    | Some s => negb (ustring_eqb (trim s) [])
    | None => false
    end in
  match List.find usable
          (List.map (field rawHadith) ["topic"; "subject"; "category"; "bab"; "chapter"]%string)
  with
  | Some v => Some (cleanText v)
  | None => None
  end.

(** [Set.prototype.add] on a set kept in insertion order. *)
Definition set_add (x : ustring) (s : list ustring) : list ustring :=
  if existsb (ustring_eqb x) s then s else s ++ [x].

Definition is_comma (c : N) : bool := (c =? 44)%N || (c =? 0x060C)%N.

Definition extractKeywords (rawHadith : json) : outcome ustring :=
  let add_cleaned (acc : list ustring) (keyword : jsval) :=
    let cleaned := cleanText keyword in
    if ustring_eqb cleaned [] then acc else set_add cleaned acc in
  let explicit : outcome (list ustring) :=
    if truthy (field rawHadith "keywords") then
      match field rawHadith "keywords" with
      | Some (JArr items) => Returned (fold_left add_cleaned (List.map Some items) [])
      | Some (JStr s) =>
          Returned (fold_left add_cleaned
                      (List.map (fun part => Some (JStr part)) (split is_comma s)) [])
      | _ => Threw TypeError                  (* keywords.split is not a function *)
      end
    else Returned [] in
  match explicit with
  | Threw e => Threw e
  | Returned keywords =>
      let keywords :=
        if truthy (field rawHadith "topic")
        then set_add (cleanText (field rawHadith "topic")) keywords else keywords in
      let who := or_else (field rawHadith "rawi") (field rawHadith "narrator") in
      let keywords := if truthy who then set_add (cleanText who) keywords else keywords in
      Returned (join (u ", ") keywords)
  end.

Definition verifiedSources : list ustring :=
  [ [0x0635; 0x062D; 0x064A; 0x062D; 0x0020; 0x0627; 0x0644; 0x0628; 0x062E; 0x0627; 0x0631; 0x064A];
    [0x0635; 0x062D; 0x064A; 0x062D; 0x0020; 0x0645; 0x0633; 0x0644; 0x0645];
    [0x0633; 0x0646; 0x0646; 0x0020; 0x0623; 0x0628; 0x064A; 0x0020; 0x062F; 0x0627; 0x0648; 0x062F];
    [0x062C; 0x0627; 0x0645; 0x0639; 0x0020; 0x0627; 0x0644; 0x062A; 0x0631; 0x0645; 0x0630; 0x064A];
    [0x0633; 0x0646; 0x0646; 0x0020; 0x0627; 0x0644; 0x0646; 0x0633; 0x0627; 0x0626; 0x064A];
    [0x0633; 0x0646; 0x0646; 0x0020; 0x0627; 0x0628; 0x0646; 0x0020; 0x0645; 0x0627; 0x062C; 0x0647];
    [0x0645; 0x0633; 0x0646; 0x062F; 0x0020; 0x0623; 0x062D; 0x0645; 0x062F];
    [0x0645; 0x0648; 0x0637; 0x0623; 0x0020; 0x0645; 0x0627; 0x0644; 0x0643] ]%N.

Definition isVerifiedSource (v : jsval) : bool :=
  match as_string v with
  | Some s => existsb (includes s) verifiedSources
  | None => false
  end.

(** ** api/hadith.js: cache *)

Definition key_char_ok (c : N) : bool :=
  in_range 97 122 c || in_range 65 90 c || in_range 48 57 c
  || (c =? 58)%N || (c =? 95)%N || (c =? 45)%N.

(** How [Array.prototype.join] prints one element. *)
Definition join_item (v : jsval) : ustring :=
  match v with
  | None | Some JNull => []
  | Some x => toString x
  end.

Definition generateCacheKey (operation : ustring) (params : list jsval) : ustring :=
  let key := u "hadith_api:" ++ operation ++ u ":" ++ join (u ":") (List.map join_item params) in
  take 250 (List.map (fun c => if key_char_ok c then c else 95%N) key).

Definition getFromCache (key : ustring) : M (option (list Hadith)) :=
  try_catch (cache_get key) (fun _ => log LError "cache_get" ;; ret None).

(** [setCache(key, data)], with [ttl] left at its default [null]:
    [(ttl || this.cacheTTL) * 1000]. *)
Definition setCache (key : ustring) (value : list Hadith) : M unit :=
  try_catch
    (let* t := Date_now in
     cache_set key value (t + cfg_cacheTtl E * 1000))
    (fun _ => log LError "cache_set").

(** ** The [hadith] table *)

(** Modelled from the spec: the store's contract for the [hadith] table
    (schema.prisma is not part of the sources).  A write is refused when a
    field has the wrong type or when it would give two rows the same [id]
    or the same [dorarId]. *)
Definition storable (d : HadithData) : bool :=
  match grade d with
  | GradeNotText => false
  | _ => true
  end.

Definition has_dorarId (dId : ustring) (r : Row) : bool :=
  bool_decide (dorarId (row_data r) = Some dId).
Definition has_id (i : ustring) (r : Row) : bool := ustring_eqb (id (row_data r)) i.

Definition conflicts (d : HadithData) (others : list Row) : bool :=
  existsb (has_id (id d)) others
  || match dorarId d with
     | Some dId => existsb (has_dorarId dId) others
     | None => false
     end.

(** [prisma.hadith.findUnique({ where: { dorarId } })] *)
Definition hadith_findUnique (dId : ustring) : M (option Row) :=
  gets (fun w => List.find (has_dorarId dId) (hadithTable w)).

(** [prisma.hadith.create({ data })] *)
Definition hadith_create (d : HadithData) : M Row :=
  fun w =>
    if negb (storable d) || conflicts d (hadithTable w) then (Threw StorageError, w)
    else
      let r := {| row_data := d; searchCount := 0; createdAt := now w; updatedAt := now w |} in
      (Returned r, set_hadithTable (hadithTable w ++ [r]) w).

(** [prisma.hadith.update({ where: { dorarId }, data: { ...d, updatedAt } })]:
    every column of [d] is written, the primary key included. *)
Definition hadith_update (dId : ustring) (d : HadithData) (stamp : Z) : M Row :=
  fun w =>
    match List.find (has_dorarId dId) (hadithTable w) with
    | None => (Threw StorageError, w)
    | Some old =>
        let others := List.filter (fun r => negb (has_dorarId dId r)) (hadithTable w) in
        if negb (storable d) || conflicts d others then (Threw StorageError, w)
        else
          let r := {| row_data := d; searchCount := searchCount old;
                      createdAt := createdAt old; updatedAt := stamp |} in
          (Returned r,
           set_hadithTable
             (List.map (fun x => if has_dorarId dId x then r else x) (hadithTable w)) w)
    end.








(** ** api/hadith.js: normalizing and saving *)

Definition uuidv4 : M ustring :=
  fun w => (Returned (uuidv4_at E (uuidsDrawn w)), set_uuidsDrawn (S (uuidsDrawn w)) w).


Definition saveHadithToDatabase (hadithData : HadithData) : M (option Row) :=
  try_catch
    (match dorarId hadithData with
     | Some dId =>
         let* existing := hadith_findUnique dId in
         match existing with
         | Some _ =>
             let* t := Date_now in
             let* savedHadith := hadith_update dId hadithData t in
             ret (Some savedHadith)
         | None =>
             let* savedHadith := hadith_create hadithData in
             ret (Some savedHadith)
         end
     | None =>
         let* savedHadith := hadith_create hadithData in
         ret (Some savedHadith)
     end)
    (fun _ => log LError "save_hadith_to_database" ;; ret None).

(** The object literal of [normalizeHadithData], for a raw element that is
    not [null]. *)
Definition hadithData_of (newId : ustring) (kw : ustring) (rawHadith : json) : HadithData :=
  let str s := Some (JStr s) in
  {| id := newId;
     dorarId := toString_or_null (field rawHadith "id");
     text := cleanText (or_else (or_else (field rawHadith "hadith") (field rawHadith "text")) (str []));
     arabicText :=
       cleanArabicText
         (or_else (or_else (or_else (field rawHadith "hadith_ar") (field rawHadith "arabic")) (field rawHadith "hadith")) (str []));
     narrator := cleanText (or_else (or_else (field rawHadith "rawi") (field rawHadith "narrator")) (str []));
     source := cleanText (or_else (or_else (field rawHadith "book") (field rawHadith "source")) (str []));
     book := cleanText (or_else (or_else (field rawHadith "book_name") (field rawHadith "book")) (str []));
     chapter := cleanText (or_else (or_else (field rawHadith "chapter") (field rawHadith "bab")) (str []));
     hadithNumber :=
       match toString_or_null (field rawHadith "hadith_number") with
       | Some n => Some n
       | None => toString_or_null (field rawHadith "number")
       end;
     grade := normalizeGrade (or_else (or_else (field rawHadith "grade") (field rawHadith "hukm")) (str []));
     topic := extractTopic rawHadith;
     keywords := kw;
     translation := cleanText (or_else (field rawHadith "translation") (str []));
     explanation := cleanText (or_else (or_else (field rawHadith "explanation") (field rawHadith "sharh")) (str []));
     isVerified := isVerifiedSource (or_else (or_else (field rawHadith "book") (field rawHadith "source")) (str [])) |}.

Definition has_essential_data (d : HadithData) : bool :=
  negb (ustring_eqb (text d) []) || negb (ustring_eqb (arabicText d) []).

Definition normalizeHadithData (rawHadith : json) : M (option Hadith) :=
  try_catch
    (let* newId := uuidv4 in
     (match rawHadith with
      | JNull => throw TypeError               (* rawHadith.id on null *)
      | _ => ret tt
      end) ;;
     let* kw := lift (extractKeywords rawHadith) in
     let hadithData := hadithData_of newId kw rawHadith in
     if has_essential_data hadithData then
       let* savedHadith := saveHadithToDatabase hadithData in
       ret (Some (match savedHadith with
                  | Some r => Saved r
                  | None => Unsaved hadithData
                  end))
     else ret None)
    (fun _ => log LError "normalize_hadith_data" ;; ret None).

(** The [for ... of] loop of [processSearchResponse]. *)
Fixpoint process_items (items : list json) (processedHadiths : list Hadith)
  : M (list Hadith) :=
  match items with
  | [] => ret processedHadiths
  | rawHadith :: rest =>
      let* pushed :=
        try_catch
          (let* processedHadith := normalizeHadithData rawHadith in
           ret (match processedHadith with
                | Some h => processedHadiths ++ [h]
                | None => processedHadiths
                end))
          (fun _ => log LWarn "Failed to process individual hadith" ;; ret processedHadiths) in
      process_items rest pushed
  end.

Definition processSearchResponse (responseData : json) : M (list Hadith) :=
  try_catch
    (match responseData with
     | JArr items => process_items items []
     | _ => log LWarn "Invalid API response format" ;; ret []
     end)
    (fun _ => log LError "process_search_response" ;; ret []).

(** ** api/hadith.js: the public operations *)

(** [this.client.get(this.baseURL, { params: { skey, ...options } })] with
    the logging interceptors; gives [response.data]. *)
Definition client_get (skey : ustring) (options : json) : M json :=
  let* n := gets (fun w => length (api_requests (events w))) in
  emit (EvApiGet skey options) ;;
  match api_get E n skey options with
  | Returned responseData => log LInfo "API Call" ;; ret responseData
  | Threw e => log LError "API Call" ;; throw e
  end.

Definition search (query : jsval) (options : json) : M (list Hadith) :=
  try_catch
    (match as_string query with
     | None => throw InvalidInput
     | Some q =>
         if ustring_eqb (trim q) [] then throw InvalidInput else
         let trimmedQuery := trim q in
         let cacheKey :=
           generateCacheKey (u "search") [Some (JStr trimmedQuery); Some options] in
         let* cached := getFromCache cacheKey in
         match cached with
         | Some hadiths => log LCache "hit" ;; ret hadiths
         | None =>
             let* responseData := client_get trimmedQuery options in
             let* hadiths := processSearchResponse responseData in
             setCache cacheKey hadiths ;;
             log LInfo "Hadith search completed" ;;
             ret hadiths
         end
     end)
    (fun _ => log LError "hadith_search" ;; ret []).






(** ** handlers/search.js *)



(** ** Notions used to state the properties *)

(** The [dorarId] a raw element will carry. *)
Definition dorarId_of (rawHadith : json) : option ustring :=
  toString_or_null (field rawHadith "id").

(** Normalizing the element raises an error (caught and logged inside
    [normalizeHadithData]): the element is [null], or its [keywords] are
    neither a list nor a string. *)
Definition normalization_throws (rawHadith : json) : bool :=
  match rawHadith with
  | JNull => true
  | _ => match extractKeywords rawHadith with
         | Threw _ => true
         | Returned _ => false
         end
  end.

(** The element has neither text nor Arabic text once cleaned. *)
Definition lacks_text (rawHadith : json) : bool :=
  negb (has_essential_data (hadithData_of [] [] rawHadith)).

Definition yields_record (rawHadith : json) : bool :=
  negb (normalization_throws rawHadith) && negb (lacks_text rawHadith).

(** The keywords of an element whose normalization does not throw. *)
Definition keywords_of (rawHadith : json) : ustring :=
  match extractKeywords rawHadith with
  | Returned kw => kw
  | Threw _ => []
  end.

Definition is_normalize_error (e : Event) : bool :=
  match e with
  | EvLog LError what => String.eqb what "normalize_hadith_data"
  | _ => false
  end.

(** The invariant of the [hadith] table: [id] and [dorarId] are unique. *)
Definition ids (t : list Row) : list ustring := List.map (fun r => id (row_data r)) t.
Definition dorarIds (t : list Row) : list ustring := omap (fun r => dorarId (row_data r)) t.
Definition table_wf (t : list Row) : Prop := NoDup (ids t) /\ NoDup (dorarIds t).

(** What the API client leaves alone while it normalizes and saves. *)
Definition same_frame (w w' : World) : Prop :=
  now w' = now w /\ cacheTable w' = cacheTable w
  /\ rateLimitStore w' = rateLimitStore w /\ randomsDrawn w' = randomsDrawn w.

Definition count_where {A} (p : A -> bool) (l : list A) : nat := length (List.filter p l).

(** The cache key [search] uses for a trimmed query. *)
Definition searchKey (trimmedQuery : ustring) (options : json) : ustring :=
  generateCacheKey (u "search") [Some (JStr trimmedQuery); Some options].





(** ** middlewares/rateLimit.js: the maintenance functions *)

(** [key.startsWith(`${userId}:`)] *)
Definition is_user_key (userId : json) (key : ustring) : bool :=
  startsWith key (toString userId ++ u ":").

(** [24 * 60 * 60 * 1000] *)
Definition maxAge : Z := 24 * 60 * 60 * 1000.

(** What one turn of the loop of [cleanupRateLimitStore] leaves of an
    entry: [None] when the entry is deleted. *)
Definition cleanup_entry (currentTime : Z) (d : RateLimitData) : option RateLimitData :=
  let kept := List.filter (fun timestamp => currentTime - timestamp <? maxAge) (requests d) in
  if (length kept =? 0)%nat && negb (blocked d) then None
  else Some {| requests := kept; blocked := blocked d; blockedUntil := blockedUntil d |}.

(** [cleanupRateLimitStore()]: the loop visits every entry once and touches
    that entry only. *)
Definition cleanupRateLimitStore : M unit :=
  let* currentTime := Date_now in
  modify (fun w =>
    set_rateLimitStore (omap (cleanup_entry currentTime) (rateLimitStore w)) w) ;;
  log LDebug "Rate limit store cleanup".

(** [resetUserRateLimit(userId)] *)
Definition resetUserRateLimit (userId : json) : M Z :=
  let* store := gets rateLimitStore in
  let resetCount :=
    Z.of_nat (size (filter (fun entry => is_user_key userId entry.1 = true) store)) in
  modify (fun w =>
    set_rateLimitStore
      (filter (fun entry => is_user_key userId entry.1 = false) (rateLimitStore w)) w) ;;
  log LInfo "Rate limits reset for user" ;;
  ret resetCount.

(** [setUserBlock(userId, blocked, duration)]; a caller that leaves
    [duration] out gets one hour, 3600000. *)
Definition setUserBlock (userId : json) (block : bool) (duration : Z) : M unit :=
  let* currentTime := Date_now in
  modify (fun w =>
    set_rateLimitStore
      (map_imap
         (fun key d =>
            Some (if is_user_key userId key
                  then {| requests := requests d; blocked := block;
                          blockedUntil := if block then currentTime + duration else 0 |}
                  else d))
         (rateLimitStore w)) w) ;;
  log LSecurity "User rate limit block status changed".

(** [text.split(' ')[0].toLowerCase()] *)
Definition command_of (text : ustring) : ustring :=
  toLowerCase E (take_while (fun c => negb (c =? 32)%N) text).

(** Updates no category applies to: no callback query, and no text, or the
    empty text, or the [/admin] command of somebody who is no
    administrator. *)
Definition never_limited (ctx : Ctx) : Prop :=
  ctx_callbackQuery ctx = None
  /\ match ctx_text ctx with
     | None => True
     | Some t =>
         t = []
         \/ (startsWith t (u "/") = true /\ command_of t = u "/admin"
             /\ isAdmin ctx = false)
     end.

(** Does a run of the middleware hand the update to the rest of the chain. *)
Definition is_next (e : Event) : bool :=
  match e with EvNext => true | _ => false end.
Definition passed_on (evs : list Event) : bool := existsb is_next evs.

(** The requests of an entry that still count at [currentTime]. *)
Definition in_window (currentTime window : Z) (d : RateLimitData) : list Z :=
  List.filter (fun timestamp => currentTime - timestamp <? window) (requests d).

(** The entry the middleware works on: the stored one, or the one it
    creates. *)
Definition entry_of (store : gmap ustring RateLimitData) (key : ustring) : RateLimitData :=
  default {| requests := []; blocked := false; blockedUntil := 0 |} (store !! key).

(** ** middlewares/auth.js: access control *)

(** What the gate writes for a user it lets in, up to and including the
    call of the downstream chain. *)
Definition admitted_events (user : User) : list Event :=
  [EvUserWrite "upsert"]
  ++ (if isActive user then []
      else [EvLog LActivity "inactive_user_access"; EvUserWrite "isActive"])
  ++ [EvUserWrite "lastActivity"; EvLog LInfo "telegram_update"; EvNext].

(** [requireAdmin(ctx, next)] *)
Definition requireAdmin (ctx : Ctx) : M unit :=
  match ctx_user ctx with
  | None =>
      log LSecurity "Admin access without authenticated user" ;;
      reply MsgNotAuthorized
  | Some user =>
      if negb (strict_eq (Some (telegramId user)) (Some (cfg_adminId E))) then
        log LSecurity "Non-admin attempted admin access" ;;
        reply MsgAdminOnly
      else
        log LActivity "admin_access" ;;
        next
  end.

(** [rateLimitOperation(operation, limit, window)] returns a middleware that
    owns the map [userOperations]; the map is threaded beside the world, so
    that what a refused send leaves in it is kept. *)
Definition rateLimitOperation (operation : ustring) (limit window : Z) (ctx : Ctx)
    (userOperations : gmap ustring (list Z)) (w : World)
  : outcome unit * (gmap ustring (list Z) * World) :=
  let run (c : M unit) (store : gmap ustring (list Z)) :=
    let '(o, w') := c w in (o, (store, w')) in
  match option_map user_id (ctx_user ctx) with
  | None => run next userOperations
  | Some userId =>
      if negb (truthy (Some userId)) then run next userOperations else
      let currentTime := now w in
      let userKey : ustring := toString userId ++ u ":" ++ operation in
      let userOperations :=
        match userOperations !! userKey with
        | None => <[userKey := []]> userOperations
        | Some _ => userOperations
        end in
      let operations := default [] (userOperations !! userKey) in
      let validOperations :=
        List.filter (fun timestamp => currentTime - timestamp <? window) operations in
      if Z.of_nat (length validOperations) >=? limit then
        run (log LSecurity "Rate limit exceeded" ;; reply (MsgOperationLimit operation))
            userOperations
      else
        run next (<[userKey := validOperations ++ [currentTime]]> userOperations)
  end.

(** The same update checked by one such middleware at each of the given
    times; tells which checks were passed on. *)
Fixpoint run_operation_checks (operation : ustring) (limit window : Z) (ctx : Ctx)
    (times : list Z) (userOperations : gmap ustring (list Z)) (w : World)
  : list (Z * bool) * (gmap ustring (list Z) * World) :=
  match times with
  | [] => ([], (userOperations, w))
  | t :: rest =>
      let w0 := set_now t w in
      let '(_, (store1, w1)) := rateLimitOperation operation limit window ctx userOperations w0 in
      let '(verdicts, final) := run_operation_checks operation limit window ctx rest store1 w1 in
      ((t, passed_on (new_events w0 w1)) :: verdicts, final)
  end.

(** The times of the checks that were passed on. *)
Definition passed_times (verdicts : list (Z * bool)) : list Z :=
  List.map fst (List.filter snd verdicts).

(** ** database/index.js: the rest of [db.cache] *)

(** [db.cache.delete]: the store refuses to delete a row that is not
    there, which the function reports as [false]. *)
Definition cache_delete (key : ustring) : M bool :=
  try_catch
    (let* cached := gets (fun w => cacheTable w !! key) in
     match cached with
     | None => throw StorageError
     | Some _ =>
         modify (fun w => set_cacheTable (delete key (cacheTable w)) w) ;;
         log LCache "delete" ;;
         ret true
     end)
    (fun _ => log LError "cache_delete" ;; ret false).

(** [db.cache.cleanup]: [deleteMany] on the rows whose expiry lies before
    now. *)
Definition cache_cleanup : M Z :=
  let* t := Date_now in
  let* count :=
    gets (fun w =>
      Z.of_nat (size (filter (fun row => (expiresAt row.2 <? t) = true) (cacheTable w)))) in
  modify (fun w =>
    set_cacheTable (filter (fun row => (expiresAt row.2 <? t) = false) (cacheTable w)) w) ;;
  log LCache "cleanup" ;;
  ret count.

(** ** api/hadith.js: [getById] *)

(** [prisma.hadith.findUnique({ where: { id } })]; the favourites that are
    included with the row are left out. *)
Definition hadith_findUnique_id (i : ustring) : M (option Row) :=
  gets (fun w => List.find (has_id i) (hadithTable w)).

(** [prisma.hadith.update({ where: { id }, data: { searchCount: { increment: 1 } } })].
    The schema decides what such an update writes into [updatedAt];
    [stamp] gives it from the old value and the time of the update. *)
Definition hadith_increment_searchCount (stamp : Z -> Z -> Z) (i : ustring) : M Row :=
  fun w =>
    match List.find (has_id i) (hadithTable w) with
    | None => (Threw StorageError, w)
    | Some old =>
        let r := {| row_data := row_data old; searchCount := searchCount old + 1;
                    createdAt := createdAt old;
                    updatedAt := stamp (updatedAt old) (now w) |} in
        (Returned r,
         set_hadithTable (List.map (fun x => if has_id i x then r else x) (hadithTable w)) w)
    end.

(** [getById(hadithId)] gives the row as it was read, before the counter
    was incremented. *)
Definition getById (stamp : Z -> Z -> Z) (hadithId : ustring) : M (option Row) :=
  try_catch
    (let* hadith := hadith_findUnique_id hadithId in
     (match hadith with
      | Some _ => hadith_increment_searchCount stamp hadithId ;; ret tt
      | None => ret tt
      end) ;;
     ret hadith)
    (fun _ => log LError "get_hadith_by_id" ;; ret None).

(** ** Notions for the text utilities *)

(** A string that neither starts nor ends with white space. *)
Definition trimmed (s : ustring) : Prop :=
  match s with [] => True | a :: _ => is_ws a = false end
  /\ match rev s with [] => True | z :: _ => is_ws z = false end.

(** Every white-space code unit is a space, and none follows another;
    [in_run] tells whether a white-space unit comes just before. *)
Fixpoint single_spaced (in_run : bool) (s : ustring) : bool :=
  match s with
  | [] => true
  | c :: s' =>
      if is_ws c then (c =? 32)%N && negb in_run && single_spaced true s'
      else single_spaced false s'
  end.

(** * Properties *)

Ltac run_M :=
  unfold bind, ret, lift, gets, modify, try_catch, throw, store_get, store_set,
    Date_now, log, emit, next in *; simpl in *.

Lemma filter_keep_all {A} (p : A -> bool) (l : list A) :
  (forall x, In x l -> p x = true) -> List.filter p l = l.
Proof.
  induction l as [|a l IH]; simpl; intros H; [reflexivity|].
  rewrite (H a (or_introl eq_refl)). f_equal. apply IH. intros x Hx. apply H. now right.
Qed.

Lemma filter_keep_none {A} (p : A -> bool) (l : list A) :
  (forall x, In x l -> p x = false) -> List.filter p l = [].
Proof.
  induction l as [|a l IH]; simpl; intros H; [reflexivity|].
  rewrite (H a (or_introl eq_refl)). apply IH. intros x Hx. apply H. now right.
Qed.

Lemma new_events_app (w w' : World) (evs : list Event) :
  events w' = events w ++ evs -> new_events w w' = evs.
Proof.
  intros H. unfold new_events. rewrite H. apply drop_app_length.
Qed.

Lemma geb_false (a b : Z) : a < b -> (a >=? b) = false.
Proof. intros H. rewrite Z.geb_leb. apply Z.leb_gt. exact H. Qed.

Lemma geb_true (a b : Z) : b <= a -> (a >=? b) = true.
Proof. intros H. rewrite Z.geb_leb. apply Z.leb_le. exact H. Qed.

(** ** The helpers of the context *)

(** [safeReply] never throws; it attempts the message it was given and
    does not run the downstream chain. *)
Lemma safeReply_spec (m : Message) (w : World) :
  exists b evs, safeReply m w = (Returned b, set_events (events w ++ evs) w)
                /\ In (EvReply m) evs /\ ~ In EvNext evs
                /\ api_requests evs = [].
Proof.
  unfold safeReply, reply. run_M.
  destruct (telegram_ok E (length (events w))) eqn:Hok; simpl.
  - exists true, [EvReply m]. split; [reflexivity|]. split; [now left|].
    split; [|reflexivity]. intros [H|[]]; discriminate.
  - unfold modify; simpl.
    match goal with |- context [telegram_ok E ?n] => destruct (telegram_ok E n) end; simpl.
    + exists true, [EvReply m; EvLog LError "safe_reply"; EvReply MsgSendFailed].
      split; [unfold set_events; simpl; now rewrite <- !app_assoc|].
      split; [now left|]. split; [|reflexivity].
      intros [H|[H|[H|[]]]]; discriminate.
    + exists false, [EvReply m; EvLog LError "safe_reply"; EvReply MsgSendFailed;
                     EvLog LError "safe_reply_retry"].
      split; [unfold set_events, modify; simpl; now rewrite <- !app_assoc|].
      split; [now left|]. split; [|reflexivity].
      intros [H|[H|[H|[H|[]]]]]; discriminate.
Qed.

(** ** The rate limiter *)

(** Every limit the code hands out is positive, and every window is one
    minute. *)
Lemma determineRateLimit_positive (ctx : Ctx) (op : Operation) (limit window : Z) :
  determineRateLimit ctx = Returned (Some (op, limit, window)) ->
  0 < limit /\ window = 60000.
Proof.
  unfold determineRateLimit, rate.
  destruct (isAdmin ctx);
    repeat match goal with
           | |- context [match ?x with _ => _ end] => destruct x eqn:?
           end;
    intros H; try discriminate; inversion H; subst; clear H;
    (split; [reflexivity|reflexivity]).
Qed.

Section RateLimitCycle.

Variables (ctx : Ctx) (userId : json) (op : Operation) (limit window : Z).
Hypothesis Huser :
  or_else (option_map user_id (ctx_user ctx)) (option_map tg_id (ctx_from ctx)) = Some userId.
Hypothesis Htruthy : truthy (Some userId) = true.
Hypothesis Hrate : determineRateLimit ctx = Returned (Some (op, limit, window)).

Let key : ustring := rateLimitKey userId op.
Let fresh : RateLimitData := {| requests := []; blocked := false; blockedUntil := 0 |}.











End RateLimitCycle.

(** C8 (as amended).  For an administrator, every category but the admin
    category gets five times its configured limit; the admin category gets
    the configured admin limit itself.  The window is never scaled, and the
    admin category is only ever given to an administrator. *)
Theorem admin_multiplier_spares_admin_category (ctx : Ctx) (op : Operation)
    (limit window : Z) :
  determineRateLimit ctx = Returned (Some (op, limit, window)) ->
  (isAdmin ctx = true ->
     limit = match op with
             | OpAdmin => configured_limit op
             | _ => configured_limit op * 5
             end)
  /\ (isAdmin ctx = false -> limit = configured_limit op * 1 /\ op <> OpAdmin)
  /\ window = 60000.
Proof.
  unfold determineRateLimit, rate.
  destruct (isAdmin ctx) eqn:Hadmin;
    rewrite ?Bool.andb_false_r, ?Bool.andb_true_r;
    repeat match goal with
           | |- context [match ?x with _ => _ end] => destruct x eqn:?
           end;
    intros H; try discriminate;
    try (match goal with
         | B : _ && false = true |- _ => rewrite Bool.andb_false_r in B; discriminate
         end);
    inversion H; subst; clear H;
    (split; [intros ?; first [discriminate | reflexivity]
            |split; [intros ?; first [discriminate | (split; [reflexivity|discriminate])]
                    |reflexivity]]).
Qed.

(** ** The [hadith] table and [saveHadithToDatabase] *)

Lemma existsb_has_id_false (i : ustring) (t : list Row) :
  existsb (has_id i) t = false -> ~ In i (ids t).
Proof.
  induction t as [|r t IH]; simpl; [tauto|].
  intros H. apply Bool.orb_false_elim in H as [Hr Ht].
  intros [Heq|Hin]; [|now apply IH].
  unfold has_id, ustring_eqb in Hr. apply bool_decide_eq_false in Hr. now apply Hr.
Qed.

Lemma existsb_has_id_true (i : ustring) (t : list Row) :
  existsb (has_id i) t = true -> In i (ids t).
Proof.
  induction t as [|r t IH]; simpl; [discriminate|].
  intros H. apply Bool.orb_true_elim in H as [Hr|Ht]; [left|right; now apply IH].
  unfold has_id, ustring_eqb in Hr. now apply bool_decide_eq_true in Hr.
Qed.

Lemma in_dorarIds (dId : ustring) (t : list Row) :
  In dId (dorarIds t) <-> exists r, In r t /\ dorarId (row_data r) = Some dId.
Proof.
  unfold dorarIds. rewrite <- list_elem_of_In, list_elem_of_omap.
  split; intros (r & Hr & Hd); exists r; split; try exact Hd;
    now apply list_elem_of_In.
Qed.

Lemma existsb_has_dorarId_false (dId : ustring) (t : list Row) :
  existsb (has_dorarId dId) t = false -> ~ In dId (dorarIds t).
Proof.
  intros H Hin. apply in_dorarIds in Hin as (r & Hr & Hd).
  assert (Ht : existsb (has_dorarId dId) t = true).
  { apply existsb_exists. exists r. split; [exact Hr|].
    unfold has_dorarId. now apply bool_decide_eq_true. }
  congruence.
Qed.

Lemma find_has_dorarId_none (dId : ustring) (t : list Row) :
  List.find (has_dorarId dId) t = None -> ~ In dId (dorarIds t).
Proof.
  intros H Hin. apply in_dorarIds in Hin as (r & Hr & Hd).
  apply (find_none _ _ H) in Hr. unfold has_dorarId in Hr.
  apply bool_decide_eq_false in Hr. contradiction.
Qed.

(** In a well-formed table the row with a given [dorarId] stands alone. *)
Lemma find_has_dorarId_split (dId : ustring) (t : list Row) (old : Row) :
  NoDup (dorarIds t) ->
  List.find (has_dorarId dId) t = Some old ->
  exists l1 l2,
    t = l1 ++ old :: l2
    /\ has_dorarId dId old = true
    /\ (forall x, In x (l1 ++ l2) -> has_dorarId dId x = false).
Proof.
  induction t as [|r t IH]; simpl; [discriminate|].
  intros Hnd Hfind. destruct (has_dorarId dId r) eqn:Hr.
  - injection Hfind as <-. exists [], t. split; [reflexivity|]. split; [exact Hr|].
    simpl. intros x Hx. destruct (has_dorarId dId x) eqn:Hx'; [|reflexivity].
    exfalso. unfold has_dorarId in Hr, Hx'.
    apply bool_decide_eq_true in Hr, Hx'.
    unfold dorarIds in Hnd. simpl in Hnd. rewrite Hr in Hnd. simpl in Hnd.
    apply NoDup_cons in Hnd as [Hnotin _]. apply Hnotin.
    apply list_elem_of_In, in_dorarIds. now exists x.
  - assert (Hnd' : NoDup (dorarIds t)).
    { unfold dorarIds in *. simpl in Hnd.
      destruct (dorarId (row_data r)); simpl in Hnd; [|exact Hnd].
      now apply NoDup_cons in Hnd as [_ ?]. }
    destruct (IH Hnd' Hfind) as (l1 & l2 & -> & Hold & Hrest).
    exists (r :: l1), l2. split; [reflexivity|]. split; [exact Hold|].
    simpl. intros x [<-|Hx]; [exact Hr|now apply Hrest].
Qed.

Lemma filter_others (dId : ustring) (l1 l2 : list Row) (old : Row) :
  has_dorarId dId old = true ->
  (forall x, In x (l1 ++ l2) -> has_dorarId dId x = false) ->
  List.filter (fun r => negb (has_dorarId dId r)) (l1 ++ old :: l2) = l1 ++ l2.
Proof.
  intros Hold Hrest. rewrite List.filter_app. simpl. rewrite Hold. simpl.
  rewrite <- List.filter_app. apply filter_keep_all.
  intros x Hx. now rewrite (Hrest x Hx).
Qed.

Lemma map_replace (dId : ustring) (l1 l2 : list Row) (old r : Row) :
  has_dorarId dId old = true ->
  (forall x, In x (l1 ++ l2) -> has_dorarId dId x = false) ->
  List.map (fun x => if has_dorarId dId x then r else x) (l1 ++ old :: l2) = l1 ++ r :: l2.
Proof.
  intros Hold Hrest.
  assert (Hid : forall l, (forall x, In x l -> has_dorarId dId x = false) ->
                List.map (fun x => if has_dorarId dId x then r else x) l = l).
  { induction l as [|a l IH]; simpl; intros H; [reflexivity|].
    rewrite (H a (or_introl eq_refl)). f_equal. apply IH. intros x Hx. apply H. now right. }
  rewrite List.map_app. simpl. rewrite Hold. f_equal.
  - apply Hid. intros x Hx. apply Hrest. apply in_or_app. now left.
  - f_equal. apply Hid. intros x Hx. apply Hrest. apply in_or_app. now right.
Qed.

Lemma dorarIds_app (a b : list Row) : dorarIds (a ++ b) = dorarIds a ++ dorarIds b.
Proof. unfold dorarIds. apply omap_app. Qed.

Lemma ids_app (a b : list Row) : ids (a ++ b) = ids a ++ ids b.
Proof. unfold ids. apply List.map_app. Qed.

Lemma conflicts_false (d : HadithData) (t : list Row) :
  conflicts d t = false ->
  ~ In (id d) (ids t)
  /\ (forall dId, dorarId d = Some dId -> ~ In dId (dorarIds t)).
Proof.
  unfold conflicts. intros H. apply Bool.orb_false_elim in H as [Hid Hd].
  split; [now apply existsb_has_id_false|].
  intros dId Heq. rewrite Heq in Hd. now apply existsb_has_dorarId_false.
Qed.

Lemma conflicts_fresh (d : HadithData) (t : list Row) :
  ~ In (id d) (ids t) ->
  (forall dId, dorarId d = Some dId -> ~ In dId (dorarIds t)) ->
  conflicts d t = false.
Proof.
  intros Hid Hd. unfold conflicts. apply Bool.orb_false_intro.
  - destruct (existsb (has_id (id d)) t) eqn:H; [|reflexivity].
    now apply existsb_has_id_true in H.
  - destruct (dorarId d) as [dId|]; [|reflexivity].
    destruct (existsb (has_dorarId dId) t) eqn:H; [|reflexivity].
    apply existsb_exists in H as (r & Hr & Hh). unfold has_dorarId in Hh.
    apply bool_decide_eq_true in Hh. exfalso. apply (Hd dId eq_refl).
    apply in_dorarIds. now exists r.
Qed.

Lemma table_wf_insert (l1 l2 : list Row) (r : Row) :
  table_wf (l1 ++ l2) ->
  ~ In (id (row_data r)) (ids (l1 ++ l2)) ->
  (forall dId, dorarId (row_data r) = Some dId -> ~ In dId (dorarIds (l1 ++ l2))) ->
  table_wf (l1 ++ r :: l2).
Proof.
  intros [Hids Hdids] Hid Hd. split.
  - rewrite ids_app in *. simpl. apply NoDup_ListNoDup.
    apply NoDup_ListNoDup in Hids. apply List.NoDup_Add with (a := id (row_data r)) (l := ids l1 ++ ids l2).
    + apply List.Add_app.
    + split; [exact Hids|exact Hid].
  - rewrite dorarIds_app in *. unfold dorarIds at 2. simpl.
    destruct (dorarId (row_data r)) as [dId|] eqn:Heq; simpl; [|exact Hdids].
    fold (dorarIds l2). apply NoDup_ListNoDup.
    apply NoDup_ListNoDup in Hdids.
    apply List.NoDup_Add with (a := dId) (l := dorarIds l1 ++ dorarIds l2).
    + apply List.Add_app.
    + split; [exact Hdids|now apply Hd].
Qed.

Lemma table_wf_remove (l1 l2 : list Row) (r : Row) :
  table_wf (l1 ++ r :: l2) -> table_wf (l1 ++ l2).
Proof.
  intros [Hids Hdids]. split.
  - rewrite ids_app in *. simpl in Hids. apply NoDup_ListNoDup.
    apply NoDup_ListNoDup in Hids. now apply List.NoDup_remove_1 in Hids.
  - rewrite dorarIds_app in *. unfold dorarIds at 2 in Hdids. simpl in Hdids.
    destruct (dorarId (row_data r)); simpl in Hdids; [|exact Hdids].
    apply NoDup_ListNoDup. apply NoDup_ListNoDup in Hdids.
    now apply List.NoDup_remove_1 in Hdids.
Qed.

Ltac run_db :=
  unfold saveHadithToDatabase, hadith_findUnique, hadith_update, hadith_create in *;
  run_M.

Lemma same_frame_refl (w : World) : same_frame w w.
Proof. repeat split. Qed.

Lemma same_frame_trans (a b c : World) : same_frame a b -> same_frame b c -> same_frame a c.
Proof.
  intros (H1 & H2 & H3 & H4) (K1 & K2 & K3 & K4).
  repeat split; congruence.
Qed.

(** [saveHadithToDatabase] never throws; a failed write is logged, gives
    [null] and leaves the table as it was. *)
Lemma save_frame (d : HadithData) (w : World) :
  exists r w',
    saveHadithToDatabase d w = (Returned r, w')
    /\ same_frame w w' /\ uuidsDrawn w' = uuidsDrawn w
    /\ ((exists row, r = Some row /\ row_data row = d /\ events w' = events w)
        \/ (r = None /\ hadithTable w' = hadithTable w
            /\ events w' = events w ++ [EvLog LError "save_hadith_to_database"])).
Proof.
  assert (Hok : forall r w', same_frame w w' -> uuidsDrawn w' = uuidsDrawn w ->
                 row_data r = d -> events w' = events w ->
                 exists r0 w0, (Returned (Some r), w') = (Returned r0, w0)
                   /\ same_frame w w0 /\ uuidsDrawn w0 = uuidsDrawn w
                   /\ ((exists row, r0 = Some row /\ row_data row = d /\ events w0 = events w)
                       \/ (r0 = None /\ hadithTable w0 = hadithTable w
                           /\ events w0 = events w ++ [EvLog LError "save_hadith_to_database"]))).
  { intros r w' Hf Hu Hr He. exists (Some r), w'. repeat split; try apply Hf; try exact Hu.
    left. now exists r. }
  assert (Hfail : exists r0 w0,
             (Returned (@None Row),
              set_events (events w ++ [EvLog LError "save_hadith_to_database"]) w)
             = (Returned r0, w0)
             /\ same_frame w w0 /\ uuidsDrawn w0 = uuidsDrawn w
             /\ ((exists row, r0 = Some row /\ row_data row = d /\ events w0 = events w)
                 \/ (r0 = None /\ hadithTable w0 = hadithTable w
                     /\ events w0 = events w ++ [EvLog LError "save_hadith_to_database"]))).
  { eexists. eexists. split; [reflexivity|]. repeat split. right. repeat split. }
  run_db. destruct (dorarId d) as [dId|]; simpl.
  - destruct (List.find (has_dorarId dId) (hadithTable w)) as [old|] eqn:Hfind;
      simpl; rewrite ?Hfind; simpl.
    + destruct (negb (storable d) || conflicts d _); simpl; [exact Hfail|].
      apply Hok; repeat split.
    + destruct (negb (storable d) || conflicts d _); simpl; [exact Hfail|].
      apply Hok; repeat split.
  - destruct (negb (storable d) || conflicts d _); simpl; [exact Hfail|].
    apply Hok; repeat split.
Qed.

Lemma not_has_dorarId_not_in (dId : ustring) (l : list Row) :
  (forall x, In x l -> has_dorarId dId x = false) -> ~ In dId (dorarIds l).
Proof.
  intros H Hin. apply in_dorarIds in Hin as (r & Hr & Hd).
  specialize (H r Hr). unfold has_dorarId in H. apply bool_decide_eq_false in H.
  contradiction.
Qed.

Lemma filter_has_dorarId_one (dId : ustring) (l1 l2 : list Row) (r : Row) :
  has_dorarId dId r = true ->
  (forall x, In x (l1 ++ l2) -> has_dorarId dId x = false) ->
  List.filter (has_dorarId dId) (l1 ++ r :: l2) = [r].
Proof.
  intros Hr Hrest. rewrite List.filter_app. simpl. rewrite Hr.
  rewrite !filter_keep_none; [reflexivity| |];
    intros x Hx; apply Hrest, in_or_app; [now right|now left].
Qed.

(** Saving a storable record that carries a [dorarId], under an [id] that
    no other row uses, is an upsert: afterwards exactly one row has that
    [dorarId], it holds the record, and the other rows are untouched. *)
Lemma save_upsert (d : HadithData) (dId : ustring) (w : World) :
  table_wf (hadithTable w) ->
  dorarId d = Some dId ->
  storable d = true ->
  ~ In (id d) (ids (List.filter (fun r => negb (has_dorarId dId r)) (hadithTable w))) ->
  exists row w',
    saveHadithToDatabase d w = (Returned (Some row), w')
    /\ row_data row = d /\ updatedAt row = now w
    /\ List.filter (has_dorarId dId) (hadithTable w') = [row]
    /\ List.filter (fun r => negb (has_dorarId dId r)) (hadithTable w')
       = List.filter (fun r => negb (has_dorarId dId r)) (hadithTable w)
    /\ table_wf (hadithTable w')
    /\ same_frame w w' /\ uuidsDrawn w' = uuidsDrawn w /\ events w' = events w.
Proof.
  intros Hwf Hd Hst Hfresh. run_db. rewrite Hd. simpl.
  destruct (List.find (has_dorarId dId) (hadithTable w)) as [old|] eqn:Hfind;
    simpl; rewrite ?Hfind; simpl.
  - destruct (find_has_dorarId_split dId _ old (proj2 Hwf) Hfind)
      as (l1 & l2 & Ht & Hold & Hrest).
    rewrite Ht in *. rewrite (filter_others dId l1 l2 old Hold Hrest) in *.
    rewrite Hst. simpl.
    rewrite conflicts_fresh; [simpl| exact Hfresh |].
    2:{ intros dId' Heq. rewrite Hd in Heq. injection Heq as <-.
        now apply not_has_dorarId_not_in. }
    rewrite (map_replace dId l1 l2 old _ Hold Hrest).
    set (r := {| row_data := d; searchCount := searchCount old;
                 createdAt := createdAt old; updatedAt := now w |}).
    assert (Hr : has_dorarId dId r = true).
    { unfold has_dorarId. simpl. now apply bool_decide_eq_true. }
    exists r. eexists. split; [reflexivity|]. simpl.
    split; [reflexivity|]. split; [reflexivity|].
    split; [now apply filter_has_dorarId_one|].
    split; [now apply filter_others|].
    split; [|repeat split].
    apply table_wf_insert.
    + now apply table_wf_remove in Hwf.
    + exact Hfresh.
    + simpl. intros dId' Heq. rewrite Hd in Heq. injection Heq as <-.
      now apply not_has_dorarId_not_in.
  - assert (Hnone : forall x, In x (hadithTable w) -> has_dorarId dId x = false).
    { intros x Hx. exact (find_none _ _ Hfind x Hx). }
    assert (Hall : List.filter (fun r => negb (has_dorarId dId r)) (hadithTable w)
                   = hadithTable w).
    { apply filter_keep_all. intros x Hx. now rewrite (Hnone x Hx). }
    rewrite Hall in Hfresh. rewrite Hst. simpl.
    rewrite conflicts_fresh; [simpl| exact Hfresh |].
    2:{ intros dId' Heq. rewrite Hd in Heq. injection Heq as <-.
        now apply not_has_dorarId_not_in. }
    set (r := {| row_data := d; searchCount := 0; createdAt := now w; updatedAt := now w |}).
    assert (Hr : has_dorarId dId r = true).
    { unfold has_dorarId. simpl. now apply bool_decide_eq_true. }
    exists r. eexists. split; [reflexivity|]. simpl.
    split; [reflexivity|]. split; [reflexivity|].
    split.
    { apply filter_has_dorarId_one; [exact Hr|]. now rewrite app_nil_r. }
    split.
    { rewrite List.filter_app. simpl. rewrite Hr. simpl. now rewrite app_nil_r. }
    split; [|repeat split].
    apply table_wf_insert; rewrite ?app_nil_r; [exact Hwf|exact Hfresh|].
    simpl. intros dId' Heq. rewrite Hd in Heq. injection Heq as <-.
    now apply not_has_dorarId_not_in.
Qed.

(** Whatever is saved, [id] and [dorarId] stay unique. *)
Lemma save_wf (d : HadithData) (w : World) :
  table_wf (hadithTable w) ->
  table_wf (hadithTable (snd (saveHadithToDatabase d w))).
Proof.
  intros Hwf. run_db. destruct (dorarId d) as [dId|] eqn:Hd; simpl.
  - destruct (List.find (has_dorarId dId) (hadithTable w)) as [old|] eqn:Hfind;
      simpl; rewrite ?Hfind; simpl.
    + destruct (negb (storable d) || conflicts d _) eqn:Hc; simpl; [exact Hwf|].
      apply Bool.orb_false_elim in Hc as [_ Hc].
      destruct (find_has_dorarId_split dId _ old (proj2 Hwf) Hfind)
        as (l1 & l2 & Ht & Hold & Hrest).
      rewrite Ht in *. rewrite (filter_others dId l1 l2 old Hold Hrest) in Hc.
      rewrite (map_replace dId l1 l2 old _ Hold Hrest).
      apply conflicts_false in Hc as [Hid Hdid].
      apply table_wf_insert; [now apply table_wf_remove in Hwf|exact Hid|exact Hdid].
    + destruct (negb (storable d) || conflicts d _) eqn:Hc; simpl; [exact Hwf|].
      apply Bool.orb_false_elim in Hc as [_ Hc].
      apply conflicts_false in Hc as [Hid Hdid].
      apply table_wf_insert; rewrite ?app_nil_r; [exact Hwf|exact Hid|exact Hdid].
  - destruct (negb (storable d) || conflicts d _) eqn:Hc; simpl; [exact Hwf|].
    apply Bool.orb_false_elim in Hc as [_ Hc].
    apply conflicts_false in Hc as [Hid Hdid].
    apply table_wf_insert; rewrite ?app_nil_r; [exact Hwf|exact Hid|exact Hdid].
Qed.

(** ** [normalizeHadithData] and [processSearchResponse] *)

Ltac finish :=
  first [ discriminate | assumption | tauto
        | unfold table_wf, same_frame in *; simpl in *; tauto ].

Lemma has_essential_data_raw (newId kw : ustring) (rawHadith : json) :
  has_essential_data (hadithData_of newId kw rawHadith) = negb (lacks_text rawHadith).
Proof. unfold lacks_text. now rewrite Bool.negb_involutive. Qed.

(** The three ways [normalizeHadithData] can go. *)
Lemma normalize_cases (rawHadith : json) (w : World) :
  let newId := uuidv4_at E (uuidsDrawn w) in
  let w1 := set_uuidsDrawn (S (uuidsDrawn w)) w in
  normalizeHadithData rawHadith w =
  if normalization_throws rawHadith then
    (Returned None, set_events (events w ++ [EvLog LError "normalize_hadith_data"]) w1)
  else if lacks_text rawHadith then (Returned None, w1)
  else
    let d := hadithData_of newId (keywords_of rawHadith) rawHadith in
    let '(o, w2) := saveHadithToDatabase d w1 in
    match o with
    | Returned saved =>
        (Returned (Some (match saved with Some r => Saved r | None => Unsaved d end)), w2)
    | Threw _ =>
        (Returned None, set_events (events w2 ++ [EvLog LError "normalize_hadith_data"]) w2)
    end.
Proof.
  intros newId w1. unfold normalizeHadithData, uuidv4. run_M. fold newId. fold w1.
  unfold normalization_throws, keywords_of.
  destruct rawHadith; try reflexivity;
    (destruct (extractKeywords _) as [kw|e] eqn:Hkw; simpl; [|reflexivity];
     rewrite has_essential_data_raw;
     destruct (lacks_text _); simpl; [reflexivity|];
     destruct (saveHadithToDatabase _ w1) as [[saved|e] w2]; reflexivity).
Qed.

(** [normalizeHadithData] never throws.  It draws one uuid, asks nothing of
    the external API, and leaves the clock and the cache alone.  It logs a
    normalization error exactly when normalizing raised one, and says
    nothing at all when it drops an element for lack of text. *)
Lemma normalize_spec (rawHadith : json) (w : World) :
  exists r w' evs,
    normalizeHadithData rawHadith w = (Returned r, w')
    /\ same_frame w w' /\ uuidsDrawn w' = S (uuidsDrawn w)
    /\ events w' = events w ++ evs
    /\ api_requests evs = []
    /\ length (List.filter is_normalize_error evs)
       = (if normalization_throws rawHadith then 1 else 0)%nat
    /\ (yields_record rawHadith = true ->
        exists h, r = Some h
          /\ hadith_data h
             = hadithData_of (uuidv4_at E (uuidsDrawn w)) (keywords_of rawHadith) rawHadith)
    /\ (yields_record rawHadith = false -> r = None)
    /\ (normalization_throws rawHadith = false -> lacks_text rawHadith = true -> evs = [])
    /\ (table_wf (hadithTable w) -> table_wf (hadithTable w')).
Proof.
  rewrite normalize_cases. unfold yields_record.
  destruct (normalization_throws rawHadith) eqn:Hthrows.
  { eexists. eexists. exists [EvLog LError "normalize_hadith_data"].
    split; [reflexivity|]. simpl. repeat split; finish. }
  destruct (lacks_text rawHadith) eqn:Hlacks.
  { eexists. eexists. exists []. split; [reflexivity|]. simpl.
    rewrite app_nil_r. repeat split; finish. }
  cbv zeta.
  set (d := hadithData_of _ _ _).
  set (w1 := set_uuidsDrawn _ w).
  pose proof (save_wf d w1) as Hwf.
  destruct (save_frame d w1) as (saved & w2 & Hsave & Hframe & Huuid & Hcases).
  rewrite Hsave in *. simpl in Hwf.
  destruct Hcases as [(row & -> & Hrow & Hev)|(-> & Htable & Hev)].
  - eexists. exists w2, []. split; [reflexivity|]. rewrite app_nil_r.
    split; [exact Hframe|]. split; [exact Huuid|]. split; [exact Hev|].
    split; [reflexivity|]. split; [reflexivity|].
    split; [intros _; eexists; split; [reflexivity|exact Hrow]|].
    split; [discriminate|]. split; [discriminate|exact Hwf].
  - eexists. exists w2, [EvLog LError "save_hadith_to_database"].
    split; [reflexivity|].
    split; [exact Hframe|]. split; [exact Huuid|]. split; [exact Hev|].
    split; [reflexivity|]. split; [reflexivity|].
    split; [intros _; eexists; split; reflexivity|].
    split; [discriminate|]. split; [discriminate|exact Hwf].
Qed.

(** The loop of [processSearchResponse] keeps one record per element that
    yields one, in order, and never stops early. *)
Lemma process_items_spec (items : list json) :
  forall (acc : list Hadith) (w : World),
  exists hs w' evs,
    process_items items acc w = (Returned (acc ++ hs), w')
    /\ same_frame w w'
    /\ uuidsDrawn w' = (uuidsDrawn w + length items)%nat
    /\ events w' = events w ++ evs
    /\ api_requests evs = []
    /\ count_where is_normalize_error evs = count_where normalization_throws items
    /\ length hs = count_where yields_record items
    /\ Forall2 (fun rawHadith h =>
                  exists newId,
                    hadith_data h = hadithData_of newId (keywords_of rawHadith) rawHadith)
               (List.filter yields_record items) hs
    /\ ((forall rawHadith, In rawHadith items -> normalization_throws rawHadith = false) ->
        (forall rawHadith, In rawHadith items -> lacks_text rawHadith = true) -> evs = [])
    /\ (table_wf (hadithTable w) -> table_wf (hadithTable w')).
Proof.
  induction items as [|rawHadith items IH]; intros acc w.
  - exists [], w, []. simpl. rewrite !app_nil_r.
    split; [reflexivity|]. split; [apply same_frame_refl|].
    split; [lia|]. split; [reflexivity|]. split; [reflexivity|].
    split; [reflexivity|]. split; [reflexivity|]. 
    split; [constructor|].
    split; [reflexivity|tauto].
  - destruct (normalize_spec rawHadith w)
      as (r & w1 & evs1 & Hrun & Hframe & Huuid & Hev & Hapi & Hlog & Hyes & Hno & Hsilent & Hwf).
    cbn [process_items]. unfold bind at 1. unfold try_catch at 1. unfold bind at 1.
    rewrite Hrun.
    unfold ret at 1.
    destruct (yields_record rawHadith) eqn:Hy.
    + destruct (Hyes eq_refl) as (h & -> & Hh).
      destruct (IH (acc ++ [h]) w1)
        as (hs & w2 & evs2 & Hrun2 & Hframe2 & Huuid2 & Hev2 & Hapi2 & Hlog2 & Hlen2
            & Hall2 & Hsilent2 & Hwf2).
      exists (h :: hs), w2, (evs1 ++ evs2). rewrite Hrun2.
      split; [now rewrite <- app_assoc|].
      split; [eapply same_frame_trans; eassumption|].
      split; [rewrite Huuid2, Huuid; cbn [length]; lia|].
      split; [rewrite Hev2, Hev; now rewrite app_assoc|].
      split; [unfold api_requests in *; rewrite List.filter_app, Hapi, Hapi2; reflexivity|].
      split.
      { unfold count_where in *. rewrite List.filter_app, length_app, Hlog2, Hlog.
        cbn [List.filter]. destruct (normalization_throws rawHadith); reflexivity. }
      split; [unfold count_where in *; cbn [List.filter]; rewrite Hy; simpl; now rewrite Hlen2|].
      split; [cbn [List.filter]; rewrite Hy; constructor;
              [exists (uuidv4_at E (uuidsDrawn w)); exact Hh|exact Hall2]|].
      split.
      { intros Hnt Hlt. unfold yields_record in Hy.
        rewrite (Hlt rawHadith (or_introl eq_refl)) in Hy.
        rewrite Bool.andb_false_r in Hy. discriminate. }
      intros H. apply Hwf2, Hwf, H.
    + rewrite (Hno eq_refl).
      destruct (IH acc w1)
        as (hs & w2 & evs2 & Hrun2 & Hframe2 & Huuid2 & Hev2 & Hapi2 & Hlog2 & Hlen2
            & Hall2 & Hsilent2 & Hwf2).
      exists hs, w2, (evs1 ++ evs2). rewrite Hrun2.
      split; [reflexivity|].
      split; [eapply same_frame_trans; eassumption|].
      split; [rewrite Huuid2, Huuid; cbn [length]; lia|].
      split; [rewrite Hev2, Hev; now rewrite app_assoc|].
      split; [unfold api_requests in *; rewrite List.filter_app, Hapi, Hapi2; reflexivity|].
      split.
      { unfold count_where in *. rewrite List.filter_app, length_app, Hlog2, Hlog.
        cbn [List.filter]. destruct (normalization_throws rawHadith); reflexivity. }
      split; [unfold count_where in *; cbn [List.filter]; rewrite Hy; exact Hlen2|].
      split; [cbn [List.filter]; rewrite Hy; exact Hall2|].
      split.
      { intros Hnt Hlt.
        rewrite (Hsilent (Hnt _ (or_introl eq_refl)) (Hlt _ (or_introl eq_refl))).
        simpl. apply Hsilent2; intros x Hx; [apply Hnt|apply Hlt]; now right. }
      intros H. apply Hwf2, Hwf, H.
Qed.

(** The response handed to [processSearchResponse] always comes back as a
    list; the world changes as in [process_items_spec]. *)
Lemma processSearchResponse_total (responseData : json) (w : World) :
  exists hs w' evs,
    processSearchResponse responseData w = (Returned hs, w')
    /\ same_frame w w'
    /\ events w' = events w ++ evs
    /\ api_requests evs = [].
Proof.
  unfold processSearchResponse.
  destruct responseData as [| | | |items|];
    try (exists [], (set_events (events w ++ [EvLog LWarn "Invalid API response format"]) w),
           [EvLog LWarn "Invalid API response format"];
         split; [reflexivity|]; repeat split).
  destruct (process_items_spec items [] w)
    as (hs & w' & evs & Hrun & Hframe & _ & Hev & Hapi & _).
  exists hs, w', evs. unfold try_catch. rewrite Hrun. simpl. repeat split; finish.
Qed.



Lemma not_in_ids_filter (i : ustring) (p : Row -> bool) (t : list Row) :
  ~ In i (ids t) -> ~ In i (ids (List.filter p t)).
Proof.
  intros H Hin. apply H. unfold ids in *. apply in_map_iff in Hin as (r & Hr & Hin).
  apply in_map_iff. exists r. split; [exact Hr|]. now apply List.filter_In in Hin as [? _].
Qed.

Lemma yields_record_inv (rawHadith : json) :
  yields_record rawHadith = true ->
  normalization_throws rawHadith = false /\ lacks_text rawHadith = false.
Proof.
  unfold yields_record. intros H. apply andb_prop in H as [H1 H2].
  split; now apply Bool.negb_true_iff.
Qed.

(** One element that yields a storable record with a [dorarId], normalized
    under a fresh uuid: the record is saved as the only row with that
    [dorarId]. *)
Lemma normalize_upsert (rawHadith : json) (dId : ustring) (w : World) :
  let d := hadithData_of (uuidv4_at E (uuidsDrawn w)) (keywords_of rawHadith) rawHadith in
  table_wf (hadithTable w) ->
  dorarId_of rawHadith = Some dId ->
  yields_record rawHadith = true ->
  storable d = true ->
  ~ In (id d) (ids (List.filter (fun r => negb (has_dorarId dId r)) (hadithTable w))) ->
  exists row w',
    normalizeHadithData rawHadith w = (Returned (Some (Saved row)), w')
    /\ row_data row = d /\ updatedAt row = now w
    /\ List.filter (has_dorarId dId) (hadithTable w') = [row]
    /\ List.filter (fun r => negb (has_dorarId dId r)) (hadithTable w')
       = List.filter (fun r => negb (has_dorarId dId r)) (hadithTable w)
    /\ table_wf (hadithTable w')
    /\ uuidsDrawn w' = S (uuidsDrawn w)
    /\ events w' = events w.
Proof.
  intros d Hwf Hd Hy Hst Hfresh.
  apply yields_record_inv in Hy as [Hnt Hlt].
  rewrite normalize_cases, Hnt, Hlt. cbv zeta. fold d.
  destruct (save_upsert d dId (set_uuidsDrawn (S (uuidsDrawn w)) w) Hwf Hd Hst Hfresh)
    as (row & w' & Hsave & Hrow & Hstamp & Hone & Hothers & Hwf' & _ & Huuid & Hev).
  rewrite Hsave. exists row, w'.
  split; [reflexivity|]. split; [exact Hrow|]. split; [exact Hstamp|].
  split; [exact Hone|]. split; [exact Hothers|]. split; [exact Hwf'|].
  split; [exact Huuid|exact Hev].
Qed.

(** Two elements with the same [dorarId], normalized one after the other:
    the second finds the row the first left and overwrites all of it. *)
Lemma normalize_twice (raw1 raw2 : json) (dId : ustring) (w0 : World) (t2 : Z) :
  let d1 := hadithData_of (uuidv4_at E (uuidsDrawn w0)) (keywords_of raw1) raw1 in
  let d2 := hadithData_of (uuidv4_at E (S (uuidsDrawn w0))) (keywords_of raw2) raw2 in
  table_wf (hadithTable w0) ->
  dorarId_of raw1 = Some dId -> dorarId_of raw2 = Some dId ->
  yields_record raw1 = true -> yields_record raw2 = true ->
  storable d1 = true -> storable d2 = true ->
  ~ In (id d1) (ids (hadithTable w0)) -> ~ In (id d2) (ids (hadithTable w0)) ->
  exists row1 w1 row2 w2,
    normalizeHadithData raw1 w0 = (Returned (Some (Saved row1)), w1)
    /\ normalizeHadithData raw2 (set_now t2 w1) = (Returned (Some (Saved row2)), w2)
    /\ row_data row1 = d1 /\ row_data row2 = d2
    /\ List.filter (has_dorarId dId) (hadithTable w1) = [row1]
    /\ List.filter (has_dorarId dId) (hadithTable w2) = [row2]
    /\ table_wf (hadithTable w2).
Proof.
  intros d1 d2 Hwf Hd1 Hd2 Hy1 Hy2 Hst1 Hst2 Hf1 Hf2.
  destruct (normalize_upsert raw1 dId w0 Hwf Hd1 Hy1 Hst1 (not_in_ids_filter _ _ _ Hf1))
    as (row1 & w1 & Hrun1 & Hrow1 & _ & Hone1 & Hothers1 & Hwf1 & Huuid1 & _).
  destruct (normalize_upsert raw2 dId (set_now t2 w1)) as
    (row2 & w2 & Hrun2 & Hrow2 & _ & Hone2 & _ & Hwf2 & _).
  - exact Hwf1.
  - exact Hd2.
  - exact Hy2.
  - simpl. rewrite Huuid1. exact Hst2.
  - simpl. rewrite Huuid1, Hothers1. now apply not_in_ids_filter.
  - exists row1, w1, row2, w2. simpl in Hrow2. rewrite Huuid1 in Hrow2.
    split; [exact Hrun1|]. split; [exact Hrun2|]. split; [exact Hrow1|].
    split; [exact Hrow2|]. split; [exact Hone1|]. split; [exact Hone2|exact Hwf2].
Qed.


(** C7 (what the code does).  Under the conditions of C3 the row that the
    first save left under the first uuid carries the second uuid after the
    second save: [hadith_update] writes every field of the new record, the
    freshly generated [id] included. *)
Theorem resave_replaces_internal_id
    (raw1 raw2 : json) (dId : ustring) (w0 : World) (t2 : Z) :
  let d1 := hadithData_of (uuidv4_at E (uuidsDrawn w0)) (keywords_of raw1) raw1 in
  let d2 := hadithData_of (uuidv4_at E (S (uuidsDrawn w0))) (keywords_of raw2) raw2 in
  table_wf (hadithTable w0) ->
  dorarId_of raw1 = Some dId -> dorarId_of raw2 = Some dId ->
  yields_record raw1 = true -> yields_record raw2 = true ->
  storable d1 = true -> storable d2 = true ->
  ~ In (id d1) (ids (hadithTable w0)) -> ~ In (id d2) (ids (hadithTable w0)) ->
  uuidv4_at E (uuidsDrawn w0) <> uuidv4_at E (S (uuidsDrawn w0)) ->
  let w1 := snd (normalizeHadithData raw1 w0) in
  let w2 := snd (normalizeHadithData raw2 (set_now t2 w1)) in
  exists row1 row2,
    List.filter (has_dorarId dId) (hadithTable w1) = [row1]
    /\ List.filter (has_dorarId dId) (hadithTable w2) = [row2]
    /\ id (row_data row1) = uuidv4_at E (uuidsDrawn w0)
    /\ id (row_data row2) = uuidv4_at E (S (uuidsDrawn w0))
    /\ id (row_data row2) <> id (row_data row1).
Proof.
  intros d1 d2 Hwf Hd1 Hd2 Hy1 Hy2 Hst1 Hst2 Hf1 Hf2 Hne.
  destruct (normalize_twice raw1 raw2 dId w0 t2 Hwf Hd1 Hd2 Hy1 Hy2 Hst1 Hst2 Hf1 Hf2)
    as (row1 & w1 & row2 & w2 & Hrun1 & Hrun2 & Hrow1 & Hrow2 & Hone1 & Hone2 & _).
  cbv zeta. rewrite Hrun1. cbn [snd]. rewrite Hrun2. cbn [snd].
  exists row1, row2. rewrite Hrow1, Hrow2. simpl.
  split; [exact Hone1|]. split; [exact Hone2|].
  split; [reflexivity|]. split; [reflexivity|]. congruence.
Qed.

(** ** The cache and [search] *)

Lemma api_requests_app (a b : list Event) :
  api_requests (a ++ b) = api_requests a ++ api_requests b.
Proof. unfold api_requests. apply List.filter_app. Qed.

(** A lookup never asks the external API, leaves the clock alone, and
    when it misses it leaves no entry under the key. *)
Lemma getFromCache_miss (key : ustring) (w wm : World) :
  getFromCache key w = (Returned None, wm) ->
  now wm = now w /\ hadithTable wm = hadithTable w /\ uuidsDrawn wm = uuidsDrawn w
  /\ (exists evs, events wm = events w ++ evs /\ api_requests evs = []).
Proof.
  unfold getFromCache, cache_get. run_M.
  destruct (cacheTable w !! key) as [entry|]; simpl.
  - destruct (expiresAt entry <? now w); simpl; intros H; inversion H; subst; simpl.
    repeat split. now exists [EvLog LCache "expired"].
  - intros H; inversion H; subst; simpl. repeat split. now exists [EvLog LCache "miss"].
Qed.

(** Reading an entry whose expiry lies in the past is a miss and removes
    the entry. *)
Lemma cache_get_expired (key : ustring) (entry : CacheEntry) (w : World) :
  cacheTable w !! key = Some entry ->
  expiresAt entry < now w ->
  exists w', cache_get key w = (Returned None, w') /\ cacheTable w' !! key = None.
Proof.
  intros Hlk Hold. unfold cache_get. run_M. rewrite Hlk. simpl.
  rewrite (proj2 (Z.ltb_lt _ _) Hold). eexists. split; [reflexivity|].
  simpl. apply lookup_delete_eq.
Qed.

Lemma getFromCache_hit (key : ustring) (entry : CacheEntry) (w : World) :
  cacheTable w !! key = Some entry ->
  now w <= expiresAt entry ->
  getFromCache key w
  = (Returned (Some (data entry)), set_events (events w ++ [EvLog LCache "hit"]) w).
Proof.
  intros Hlk Hfresh. unfold getFromCache, cache_get. run_M. rewrite Hlk. simpl.
  now rewrite (proj2 (Z.ltb_ge _ _) Hfresh).
Qed.

(** A search whose key is cached and not expired is answered from the
    cache, word for word, without a request. *)
Lemma search_hit (query : ustring) (options : json) (entry : CacheEntry) (w : World) :
  trim query <> [] ->
  cacheTable w !! searchKey (trim query) options = Some entry ->
  now w <= expiresAt entry ->
  search (Some (JStr query)) options w
  = (Returned (data entry),
     set_events (events w ++ [EvLog LCache "hit"; EvLog LCache "hit"]) w).
Proof.
  intros Hq Hlk Hfresh. unfold search. simpl as_string. cbv iota.
  unfold ustring_eqb. rewrite bool_decide_eq_false_2 by exact Hq.
  unfold try_catch at 1, bind at 1. fold (searchKey (trim query) options).
  rewrite (getFromCache_hit _ entry w Hlk Hfresh). run_M.
  unfold set_events. simpl. now rewrite <- app_assoc.
Qed.

(** A search that misses the cache and gets an answer from the API:
    one request, the normalized list cached under the key until
    [now + cacheTtl * 1000], and the same list returned. *)
Lemma search_miss_fetch (query : ustring) (options responseData : json) (w wm : World) :
  trim query <> [] ->
  getFromCache (searchKey (trim query) options) w = (Returned None, wm) ->
  api_get E (length (api_requests (events w))) (trim query) options = Returned responseData ->
  exists hs w1 wp,
    search (Some (JStr query)) options w = (Returned hs, w1)
    /\ processSearchResponse responseData
         (snd (client_get (trim query) options wm)) = (Returned hs, wp)
    /\ cacheTable w1 !! searchKey (trim query) options
       = Some {| data := hs; expiresAt := now w + cfg_cacheTtl E * 1000 |}
    /\ now w1 = now w
    /\ (exists evs, events w1 = events w ++ evs
                    /\ api_requests evs = [EvApiGet (trim query) options]).
Proof.
  intros Hq Hmiss Hapi.
  destruct (getFromCache_miss _ _ _ Hmiss) as (Hnow & _ & _ & evm & Hevm & Hapim).
  assert (Hn : length (api_requests (events wm)) = length (api_requests (events w))).
  { rewrite Hevm, api_requests_app, Hapim. now rewrite app_nil_r. }
  set (wa := snd (client_get (trim query) options wm)).
  assert (Hget : client_get (trim query) options wm = (Returned responseData, wa)).
  { subst wa. unfold client_get. run_M. rewrite Hn, Hapi. reflexivity. }
  assert (Hwa : events wa = events wm ++ [EvApiGet (trim query) options; EvLog LInfo "API Call"]
                /\ now wa = now wm).
  { subst wa. unfold client_get. run_M. rewrite Hn, Hapi. simpl.
    split; [now rewrite <- app_assoc|reflexivity]. }
  destruct Hwa as [Heva Hnowa].
  destruct (processSearchResponse_total responseData wa)
    as (hs & wp & evp & Hproc & (Hnowp & _) & Hevp & Hapip).
  exists hs. eexists. exists wp.
  split.
  { unfold search. simpl as_string. cbv iota.
    unfold ustring_eqb. rewrite bool_decide_eq_false_2 by exact Hq.
    unfold try_catch at 1, bind at 1. fold (searchKey (trim query) options).
    rewrite Hmiss. cbv iota beta. unfold bind at 1. rewrite Hget. cbv iota beta.
    unfold bind at 1. rewrite Hproc. cbv iota beta.
    unfold setCache, cache_set. run_M. reflexivity. }
  split; [exact Hproc|].
  simpl. split.
  { rewrite lookup_insert_eq. do 2 f_equal. rewrite Hnowp, Hnowa, Hnow. reflexivity. }
  split; [rewrite Hnowp, Hnowa, Hnow; reflexivity|].
  eexists. split.
  { rewrite Hevp, Heva, Hevm. rewrite <- !app_assoc. reflexivity. }
  rewrite !api_requests_app, Hapim, Hapip. reflexivity.
Qed.

(** A lookup that misses leaves no entry under the key. *)
Lemma getFromCache_miss_gone (key : ustring) (w wm : World) :
  getFromCache key w = (Returned None, wm) -> cacheTable wm !! key = None.
Proof.
  unfold getFromCache, cache_get. run_M.
  destruct (cacheTable w !! key) as [entry|] eqn:Hlk; simpl.
  - destruct (expiresAt entry <? now w); simpl; intros H; inversion H; subst; simpl.
    apply lookup_delete_eq.
  - intros H; inversion H; subst; simpl. exact Hlk.
Qed.

Lemma getFromCache_absent (key : ustring) (w : World) :
  cacheTable w !! key = None ->
  getFromCache key w = (Returned None, set_events (events w ++ [EvLog LCache "miss"]) w).
Proof.
  intros Hlk. unfold getFromCache, cache_get. run_M. now rewrite Hlk.
Qed.

(** A search that misses the cache and whose request fails: the failure is
    logged by the client and by [search], the empty list is returned, and
    the cache is not written. *)
Lemma search_miss_fail (query : ustring) (options : json) (e : error) (w wm : World) :
  trim query <> [] ->
  getFromCache (searchKey (trim query) options) w = (Returned None, wm) ->
  api_get E (length (api_requests (events w))) (trim query) options = Threw e ->
  search (Some (JStr query)) options w
  = (Returned [],
     set_events (events wm ++ [EvApiGet (trim query) options; EvLog LError "API Call";
                               EvLog LError "hadith_search"]) wm).
Proof.
  intros Hq Hmiss Hapi.
  destruct (getFromCache_miss _ _ _ Hmiss) as (_ & _ & _ & evm & Hevm & Hapim).
  assert (Hn : length (api_requests (events wm)) = length (api_requests (events w))).
  { rewrite Hevm, api_requests_app, Hapim. now rewrite app_nil_r. }
  unfold search. simpl as_string. cbv iota.
  unfold ustring_eqb. rewrite bool_decide_eq_false_2 by exact Hq.
  unfold try_catch at 1, bind at 1. fold (searchKey (trim query) options).
  rewrite Hmiss. cbv iota beta. unfold bind at 1.
  unfold client_get. run_M. rewrite Hn, Hapi. simpl.
  unfold set_events. simpl. now rewrite <- !app_assoc.
Qed.

(** A search that misses the cache issues exactly one request, whether the
    request succeeds or fails. *)
Lemma search_miss_one_request (query : ustring) (options : json) (w wm : World) :
  trim query <> [] ->
  getFromCache (searchKey (trim query) options) w = (Returned None, wm) ->
  exists hs w1 evs,
    search (Some (JStr query)) options w = (Returned hs, w1)
    /\ events w1 = events w ++ evs
    /\ api_requests evs = [EvApiGet (trim query) options].
Proof.
  intros Hq Hmiss.
  destruct (api_get E (length (api_requests (events w))) (trim query) options)
    as [responseData|e] eqn:Hapi.
  - destruct (search_miss_fetch query options responseData w wm Hq Hmiss Hapi)
      as (hs & w1 & _ & Hrun & _ & _ & _ & evs & Hev & Hreq).
    now exists hs, w1, evs.
  - destruct (getFromCache_miss _ _ _ Hmiss) as (_ & _ & _ & evm & Hevm & Hapim).
    rewrite (search_miss_fail query options e w wm Hq Hmiss Hapi).
    eexists. eexists.
    exists (evm ++ [EvApiGet (trim query) options; EvLog LError "API Call";
                    EvLog LError "hadith_search"]).
    split; [reflexivity|]. simpl.
    split; [rewrite Hevm; now rewrite <- app_assoc|].
    rewrite api_requests_app, Hapim. reflexivity.
Qed.

(** C1 (as amended).  A query that is not empty once trimmed (so every
    query of two or more characters after trimming) misses the cache.
    When the external request of the first call succeeds, the first call
    issues that one request, normalizes the response, stores the list
    under the key made of the operation name, the trimmed query and the
    options, to expire [cacheTtl] seconds later, and returns it; a second
    call with the same query and options before that time returns the same
    list and issues no request: one request in all.  When the request
    fails, the first call logs the error (the client and [search] each
    write an error line), returns the empty list and writes nothing to the
    cache, which holds no entry under the key afterwards; the second call,
    at whatever time and whatever its own request gives, issues the request
    again: two requests in all. *)
Theorem search_twice_one_request (query : ustring) (options : json) (w0 : World) (t2 : Z) :
  trim query <> [] ->
  fst (getFromCache (searchKey (trim query) options) w0) = Returned None ->
  let key := searchKey (trim query) options in
  let wm := snd (getFromCache key w0) in
  let request := EvApiGet (trim query) options in
  let '(r1, w1) := search (Some (JStr query)) options w0 in
  let '(r2, w2) := search (Some (JStr query)) options (set_now t2 w1) in
  (forall responseData,
      api_get E (length (api_requests (events w0))) (trim query) options
      = Returned responseData ->
      t2 < now w0 + cfg_cacheTtl E * 1000 ->
      exists hs,
        r1 = Returned hs /\ r2 = Returned hs
        /\ fst (processSearchResponse responseData
                  (snd (client_get (trim query) options wm)))
           = Returned hs
        /\ cacheTable w1 !! key
           = Some {| data := hs; expiresAt := now w0 + cfg_cacheTtl E * 1000 |}
        /\ api_requests (new_events w0 w1) = [request]
        /\ api_requests (new_events w1 w2) = []
        /\ api_requests (new_events w0 w2) = [request])
  /\ (forall e,
      api_get E (length (api_requests (events w0))) (trim query) options = Threw e ->
      r1 = Returned []
      /\ w1 = set_events (events wm ++ [request; EvLog LError "API Call";
                                        EvLog LError "hadith_search"]) wm
      /\ cacheTable w1 = cacheTable wm
      /\ cacheTable w1 !! key = None
      /\ (exists hs, r2 = Returned hs)
      /\ api_requests (new_events w0 w1) = [request]
      /\ api_requests (new_events w1 w2) = [request]
      /\ api_requests (new_events w0 w2) = [request; request]).
Proof.
  intros Hq Hmiss key wm request. subst wm key.
  destruct (getFromCache (searchKey (trim query) options) w0) as [o wm] eqn:Hlookup.
  simpl in Hmiss. subst o. cbn [snd].
  set (key := searchKey (trim query) options) in *.
  destruct (search (Some (JStr query)) options w0) as [r1 w1] eqn:Hrun1.
  destruct (search (Some (JStr query)) options (set_now t2 w1)) as [r2 w2] eqn:Hrun2.
  split.
  - intros responseData Hapi Ht2.
    destruct (search_miss_fetch query options responseData w0 wm Hq Hlookup Hapi)
      as (hs & w1' & wp & Hrun1' & Hproc & Hcache & Hnow & evs & Hev & Hreq).
    rewrite Hrun1 in Hrun1'. injection Hrun1' as -> <-.
    pose proof (search_hit query options _ (set_now t2 w1) Hq Hcache) as Hhit.
    simpl in Hhit. rewrite Hhit in Hrun2 by lia. injection Hrun2 as <- <-.
    exists hs.
    split; [reflexivity|]. split; [reflexivity|].
    split; [now rewrite Hproc|]. split; [exact Hcache|].
    split; [now rewrite (new_events_app w0 w1 evs Hev)|].
    split.
    { erewrite new_events_app; [|simpl; reflexivity]. reflexivity. }
    erewrite new_events_app; [|simpl; rewrite Hev, <- app_assoc; reflexivity].
    rewrite api_requests_app, Hreq. reflexivity.
  - intros e Hapi.
    destruct (getFromCache_miss _ _ _ Hlookup) as (_ & _ & _ & evm & Hevm & Hapim).
    pose proof (getFromCache_miss_gone _ _ _ Hlookup) as Hgone.
    rewrite (search_miss_fail query options e w0 wm Hq Hlookup Hapi) in Hrun1.
    injection Hrun1 as <- <-.
    set (w1 := set_events (events wm ++ [request; EvLog LError "API Call";
                                         EvLog LError "hadith_search"]) wm) in *.
    assert (Hev1 : events w1
                   = events w0 ++ (evm ++ [request; EvLog LError "API Call";
                                            EvLog LError "hadith_search"])).
    { subst w1. simpl. rewrite Hevm. now rewrite <- app_assoc. }
    assert (Hreq1 : api_requests (evm ++ [request; EvLog LError "API Call";
                                          EvLog LError "hadith_search"]) = [request]).
    { rewrite api_requests_app, Hapim. reflexivity. }
    assert (Hmiss2 : getFromCache key (set_now t2 w1)
                     = (Returned None,
                        set_events (events (set_now t2 w1) ++ [EvLog LCache "miss"])
                          (set_now t2 w1))).
    { apply getFromCache_absent. exact Hgone. }
    destruct (search_miss_one_request query options (set_now t2 w1) _ Hq Hmiss2)
      as (hs2 & w2' & evs2 & Hrun2' & Hev2 & Hreq2).
    assert (Hsame : (Returned hs2, w2') = (r2, w2)).
    { rewrite <- Hrun2', <- Hrun2. reflexivity. }
    injection Hsame as <- <-.
    split; [reflexivity|]. split; [reflexivity|]. split; [reflexivity|].
    split; [exact Hgone|]. split; [now exists hs2|].
    split; [erewrite new_events_app; [exact Hreq1|exact Hev1]|].
    split; [erewrite new_events_app; [exact Hreq2|exact Hev2]|].
    assert (Hev02 : events w2'
                    = events w0 ++ ((evm ++ [request; EvLog LError "API Call";
                                             EvLog LError "hadith_search"]) ++ evs2)).
    { rewrite Hev2. change (events (set_now t2 w1)) with (events w1).
      rewrite Hev1. now rewrite <- app_assoc. }
    erewrite new_events_app; [|exact Hev02].
    rewrite api_requests_app, Hreq1, Hreq2. reflexivity.
Qed.


(** ** Cache keys *)





(** ** [getRandom] *)








(** ** The auth gate *)

(** C6 (as amended).  When the sender resolves to a user whose [isBlocked]
    flag is set and the platform accepts the send, the gate logs the
    attempt, sends the blocked-user message and returns: the downstream
    chain is not invoked, whatever it is.  When the platform refuses that
    send, the error lands in the gate's [catch] block, which logs it and
    invokes the downstream chain. *)
Theorem blocked_user_stops_at_gate
    (ctx : Ctx) (telegramUser : TelegramUser) (user : User)
    (downstream : Ctx -> M unit) (w : World) :
  ctx_from ctx = Some telegramUser ->
  is_bot telegramUser && negb (strict_eq (Some (tg_id telegramUser)) (ctx_botInfo_id ctx))
    = false ->
  user_upsert E telegramUser = Returned (Some user) ->
  isBlocked user = true ->
  let attempt :=
    [EvUserWrite "upsert"; EvLog LSecurity "Blocked user attempted access";
     EvReply MsgUserBlocked] in
  (telegram_ok E (length (events w) + 2) = true ->
     authMiddleware ctx downstream w = (Returned tt, set_events (events w ++ attempt) w)
     /\ ~ In EvNext attempt
     /\ forall other : Ctx -> M unit,
          authMiddleware ctx other w = authMiddleware ctx downstream w)
  /\ (telegram_ok E (length (events w) + 2) = false ->
      authMiddleware ctx downstream w
      = let '(o, w') :=
          downstream ctx
            (set_events (events w ++ attempt ++ [EvLog LError "auth_middleware"; EvNext]) w) in
        match o with
        | Returned _ => (Returned tt, w')
        | Threw _ =>
            (Returned tt, set_events (events w' ++ [EvLog LError "auth_middleware_next"]) w')
        end).
Proof.
  intros Hfrom Hbot Hupsert Hblocked attempt.
  assert (Hresolve : forall ok, telegram_ok E (length (events w) + 2) = ok ->
            auth_resolve ctx w
            = (if ok then Returned None else Threw TelegramError,
               set_events (events w ++ attempt) w)).
  { intros ok Hok. unfold auth_resolve, findOrCreate, reply. rewrite Hfrom, Hbot.
    run_M. rewrite Hupsert. simpl. rewrite Hblocked. simpl.
    rewrite !length_app. simpl. rewrite <- Nat.add_assoc. simpl. rewrite Hok.
    unfold set_events. simpl. rewrite <- !app_assoc. simpl.
    destruct ok; reflexivity. }
  split.
  - intros Hok.
    assert (Hrun : forall d, authMiddleware ctx d w
                             = (Returned tt, set_events (events w ++ attempt) w)).
    { intros d. unfold authMiddleware. unfold bind at 1. unfold try_catch at 1.
      rewrite (Hresolve true Hok). reflexivity. }
    split; [apply Hrun|]. split.
    + simpl. intros [H|[H|[H|[]]]]; discriminate.
    + intros other. now rewrite !Hrun.
  - intros Hok. unfold authMiddleware. unfold bind at 1. unfold try_catch at 1.
    rewrite (Hresolve false Hok). unfold auth_catch. run_M.
    unfold set_events. simpl. rewrite <- !app_assoc. simpl.
    match goal with |- context [downstream ctx ?w0] => destruct (downstream ctx w0) as [[[]|e] w'] end;
      reflexivity.
Qed.

(** * Further properties *)

(** ** The rate limiter, one check at a time *)


Lemma passed_on_app (a b : list Event) : passed_on (a ++ b) = passed_on a || passed_on b.
Proof. unfold passed_on. apply existsb_app. Qed.

Lemma passed_on_false (evs : list Event) : ~ In EvNext evs -> passed_on evs = false.
Proof.
  intros H. unfold passed_on. apply Bool.not_true_is_false. intros Hex.
  apply existsb_exists in Hex. destruct Hex as (e & He & Hn).
  destruct e; try discriminate. contradiction.
Qed.

Lemma passed_on_true (evs : list Event) : passed_on evs = true -> In EvNext evs.
Proof.
  unfold passed_on. intros Hex. apply existsb_exists in Hex.
  destruct Hex as (e & He & Hn). now destruct e.
Qed.


Section RateLimitStep.

Variables (ctx : Ctx) (userId : json) (op : Operation) (limit window : Z).
Hypothesis Huser :
  or_else (option_map user_id (ctx_user ctx)) (option_map tg_id (ctx_from ctx)) = Some userId.
Hypothesis Htruthy : truthy (Some userId) = true.
Hypothesis Hrate : determineRateLimit ctx = Returned (Some (op, limit, window)).

Let key : ustring := rateLimitKey userId op.

Ltac enter_step :=
  unfold rateLimitMiddleware; rewrite Huser, Htruthy; simpl negb; cbv iota;
  unfold try_catch at 1; unfold bind at 1; unfold lift; rewrite Hrate;
  fold key; cbv beta iota.

Ltac with_safeReply evs Hrep Hnext :=
  match goal with |- context [safeReply ?m ?w0] =>
    let b := fresh "b" in
    destruct (safeReply_spec m w0) as (b & evs & -> & Hrep & Hnext & _)
  end.

(** What one check does, whatever the store holds. *)
Lemma check_step (w : World) (t : Z) :
  let d := entry_of (rateLimitStore w) key in
  let kept := in_window t window d in
  exists w' evs,
    rateLimitMiddleware ctx (set_now t w) = (Returned tt, w')
    /\ events w' = events w ++ evs
    /\ if blocked d && (t <? blockedUntil d) then
         rateLimitStore w' = rateLimitStore w
         /\ rejected_with (MsgRateLimitActive op (ceil_div (blockedUntil d - t) 1000)) evs
       else if Z.of_nat (length kept) >=? limit then
         rateLimitStore w'
         = <[key := {| requests := kept; blocked := true; blockedUntil := t + window |}]>
             (rateLimitStore w)
         /\ rejected_with (MsgRateLimitExceeded op limit (round_div window 1000)) evs
       else
         rateLimitStore w'
         = <[key := {| requests := kept ++ [t]; blocked := false;
                       blockedUntil := if blocked d then 0 else blockedUntil d |}]>
             (rateLimitStore w)
         /\ evs = [EvNext].
Proof.
  unfold entry_of, in_window. enter_step. run_M.
  destruct (rateLimitStore w !! key) as [d0|] eqn:Hlk; simpl.
  - destruct (blocked d0) eqn:Hb; simpl.
    + destruct (t <? blockedUntil d0) eqn:Hlt; simpl.
      * with_safeReply evs Hrep Hnext.
        eexists. exists (EvLog LSecurity "Rate limit blocked request" :: evs).
        split; [reflexivity|]. simpl. split; [now rewrite <- app_assoc|].
        split; [reflexivity|]. split; [now right|].
        intros [H|H]; [discriminate|contradiction].
      * destruct (_ >=? limit) eqn:Hge; simpl.
        -- with_safeReply evs Hrep Hnext.
           eexists. exists (EvLog LSecurity "Rate limit exceeded" :: evs).
           split; [reflexivity|]. simpl. split; [now rewrite <- app_assoc|].
           split; [reflexivity|]. split; [now right|].
           intros [H|H]; [discriminate|contradiction].
        -- assert (Hexp : (t >=? blockedUntil d0) = true).
           { apply geb_true. now apply Z.ltb_ge. }
           rewrite Hexp. simpl.
           eexists. exists [EvNext]. split; [reflexivity|]. simpl. now split.
    + destruct (_ >=? limit) eqn:Hge; simpl.
      * with_safeReply evs Hrep Hnext.
        eexists. exists (EvLog LSecurity "Rate limit exceeded" :: evs).
        split; [reflexivity|]. simpl. split; [now rewrite <- app_assoc|].
        split; [reflexivity|]. split; [now right|].
        intros [H|H]; [discriminate|contradiction].
      * eexists. exists [EvNext]. split; [reflexivity|]. simpl. now split.
  - destruct (Z.of_nat 0 >=? limit) eqn:Hge; simpl.
    + with_safeReply evs Hrep Hnext.
      eexists. exists (EvLog LSecurity "Rate limit exceeded" :: evs).
      split; [reflexivity|]. simpl. split; [now rewrite <- app_assoc|].
      split; [apply insert_insert_eq|]. split; [now right|].
      intros [H|H]; [discriminate|contradiction].
    + eexists. exists [EvNext]. split; [reflexivity|]. simpl.
      split; [reflexivity|]. split; [apply insert_insert_eq|reflexivity].
Qed.

Lemma check_step_events (w : World) (t : Z) :
  let d := entry_of (rateLimitStore w) key in
  let w' := snd (rateLimitMiddleware ctx (set_now t w)) in
  fst (rateLimitMiddleware ctx (set_now t w)) = Returned tt
  /\ passed_on (new_events (set_now t w) w')
     = negb (blocked d && (t <? blockedUntil d))
       && (Z.of_nat (length (in_window t window d)) <? limit).
Proof.
  intros d w'. subst w'.
  destruct (check_step w t) as (w1 & evs & Hrun & Hev & Hcase).
  rewrite Hrun. cbn [fst snd]. split; [reflexivity|].
  rewrite (new_events_app (set_now t w) w1 evs Hev).
  fold d in Hcase.
  destruct (blocked d && (t <? blockedUntil d)); cbn [negb andb].
  - destruct Hcase as [_ [_ Hno]]. now apply passed_on_false.
  - rewrite Z.geb_leb in Hcase.
    destruct (limit <=? Z.of_nat (length (in_window t window d))) eqn:Hle.
    + destruct Hcase as [_ [_ Hno]]. rewrite (passed_on_false _ Hno).
      symmetry. apply Z.ltb_ge. now apply Z.leb_le.
    + destruct Hcase as [_ ->]. symmetry. apply Z.ltb_lt. now apply Z.leb_gt.
Qed.



End RateLimitStep.
(** ** The rate limiter on any update *)


Lemma ustring_eqb_eq (a b : ustring) : ustring_eqb a b = true <-> a = b.
Proof. unfold ustring_eqb. apply bool_decide_eq_true. Qed.

Lemma ustring_eqb_refl (a : ustring) : ustring_eqb a a = true.
Proof. now apply ustring_eqb_eq. Qed.

(** X4.  Which updates the rate limiter lets through unchecked.  No
    category is found exactly for the updates of [never_limited]: those
    without callback query that carry no text or the empty text, and the
    [/admin] command sent by somebody who is no administrator.  Such an
    update is passed on and the store is left as it is. *)
Theorem unlimited_updates (ctx : Ctx) :
  (determineRateLimit ctx = Returned None <-> never_limited ctx)
  /\ (never_limited ctx ->
      forall w, rateLimitMiddleware ctx w
                = (Returned tt, set_events (events w ++ [EvNext]) w)).
Proof.
  assert (Hiff : determineRateLimit ctx = Returned None <-> never_limited ctx).
  { unfold determineRateLimit, never_limited, rate, command_of.
    destruct (ctx_text ctx) as [t|].
    - destruct (startsWith t (u "/")) eqn:Hslash.
      + set (command := toLowerCase E (take_while (fun c => negb (c =? 32)%N) t)).
        destruct (ustring_eqb command (u "/search")) eqn:H1.
        { split; [discriminate|]. intros [_ [->|(_ & Hc & _)]]; [discriminate|].
          rewrite Hc in H1. discriminate. }
        destruct (ustring_eqb command (u "/random")) eqn:H2.
        { split; [discriminate|]. intros [_ [->|(_ & Hc & _)]]; [discriminate|].
          rewrite Hc in H2. discriminate. }
        destruct (ustring_eqb command (u "/favorites") || ustring_eqb command (u "/fav"))
          eqn:H3.
        { split; [discriminate|]. intros [_ [->|(_ & Hc & _)]]; [discriminate|].
          rewrite Hc in H3. discriminate. }
        destruct (ustring_eqb command (u "/admin")) eqn:H4.
        * apply ustring_eqb_eq in H4.
          destruct (isAdmin ctx) eqn:Hadmin.
          { split; [discriminate|]. intros [_ [->|(_ & _ & Hf)]]; discriminate. }
          destruct (ctx_callbackQuery ctx) as [[data|]|].
          -- rewrite Bool.andb_false_r.
             split; [|intros [? _]; discriminate].
             repeat match goal with
                    | |- context [if ?x then _ else _] => destruct x
                    end; discriminate.
          -- split; [discriminate|intros [? _]; discriminate].
          -- assert (Hne : ustring_eqb t [] = false).
             { destruct t; [discriminate|reflexivity]. }
             rewrite Hne. simpl. split; [|reflexivity]. intros _.
             split; [reflexivity|]. right. now repeat split.
        * split; [discriminate|]. intros [_ [->|(_ & Hc & _)]]; [discriminate|].
          fold command in Hc. rewrite Hc in H4. discriminate.
      + destruct (ctx_callbackQuery ctx) as [[data|]|].
        * split; [|intros [? _]; discriminate].
          repeat match goal with
                 | |- context [if ?x then _ else _] => destruct x
                 end; discriminate.
        * split; [discriminate|intros [? _]; discriminate].
        * destruct (ustring_eqb t []) eqn:Hempty; simpl.
          -- apply ustring_eqb_eq in Hempty.
             split; [|reflexivity]. intros _. split; [reflexivity|now left].
          -- split; [discriminate|]. intros [_ [->|(Hs & _)]]; discriminate.
    - destruct (ctx_callbackQuery ctx) as [[data|]|].
      + split; [|intros [? _]; discriminate].
        repeat match goal with
               | |- context [if ?x then _ else _] => destruct x
               end; discriminate.
      + split; [discriminate|intros [? _]; discriminate].
      + split; [|reflexivity]. intros _. now split. }
  split; [exact Hiff|].
  intros Hnever w. apply Hiff in Hnever.
  unfold rateLimitMiddleware.
  destruct (or_else (option_map user_id (ctx_user ctx)) (option_map tg_id (ctx_from ctx)))
    as [userId|]; [|reflexivity].
  destruct (truthy (Some userId)); [|reflexivity].
  simpl negb. cbv iota.
  unfold try_catch at 1. unfold bind at 1. unfold lift. rewrite Hnever. reflexivity.
Qed.

(** ** The maintenance functions of the rate limiter *)

Lemma filter_filter_implied {A} (p q : A -> bool) (l : list A) :
  (forall x, In x l -> p x = true -> q x = true) ->
  List.filter p (List.filter q l) = List.filter p l.
Proof.
  induction l as [|a l IH]; simpl; intros H; [reflexivity|].
  assert (IH' : List.filter p (List.filter q l) = List.filter p l).
  { apply IH. intros x Hx. apply H. now right. }
  destruct (q a) eqn:Hq; simpl.
  - now rewrite IH'.
  - rewrite IH'. destruct (p a) eqn:Hp; [|reflexivity].
    rewrite (H a (or_introl eq_refl) Hp) in Hq. discriminate.
Qed.

Lemma startsWith_app (p r : ustring) : startsWith (p ++ r) p = true.
Proof.
  induction p as [|a p IH]; simpl; [now destruct r|].
  now rewrite N.eqb_refl, IH.
Qed.

Lemma is_user_key_own (userId : json) (op : Operation) :
  is_user_key userId (rateLimitKey userId op) = true.
Proof.
  unfold is_user_key, rateLimitKey. rewrite app_assoc. apply startsWith_app.
Qed.

(** Two printed ids without colon that differ never share the prefix up to
    the first colon. *)
Lemma startsWith_colon (x y rest : ustring) :
  ~ In 58%N x -> ~ In 58%N y ->
  startsWith (y ++ 58%N :: rest) (x ++ [58%N]) = true -> y = x.
Proof.
  revert y. induction x as [|a x IH]; intros y Hx Hy H.
  - destruct y as [|b y]; [reflexivity|]. cbn [startsWith app] in H.
    apply andb_prop in H. destruct H as [H _]. apply N.eqb_eq in H.
    exfalso. apply Hy. left. now symmetry.
  - destruct y as [|b y]; cbn [startsWith app] in H.
    + apply andb_prop in H. destruct H as [H _]. apply N.eqb_eq in H.
      exfalso. apply Hx. now left.
    + apply andb_prop in H. destruct H as [Hab H]. apply N.eqb_eq in Hab. subst b.
      f_equal. apply IH; [| |exact H].
      * intros Hin. apply Hx. now right.
      * intros Hin. apply Hy. now right.
Qed.

Lemma is_user_key_other (userId other : json) (op : Operation) :
  ~ In 58%N (toString userId) -> ~ In 58%N (toString other) ->
  toString other <> toString userId ->
  is_user_key userId (rateLimitKey other op) = false.
Proof.
  intros Hx Hy Hne. apply Bool.not_true_is_false. intros H. apply Hne.
  unfold is_user_key, rateLimitKey in H.
  exact (startsWith_colon _ _ _ Hx Hy H).
Qed.

(** X5.  The maintenance functions stay within one user: when the printed
    ids of two users hold no colon and differ, resetting or blocking one of
    them leaves every entry of the other as it was. *)
Theorem maintenance_spares_other_users
    (userId other : json) (op : Operation) (block : bool) (duration : Z) (w : World) :
  ~ In 58%N (toString userId) -> ~ In 58%N (toString other) ->
  toString other <> toString userId ->
  rateLimitStore (snd (resetUserRateLimit userId w)) !! rateLimitKey other op
  = rateLimitStore w !! rateLimitKey other op
  /\ rateLimitStore (snd (setUserBlock userId block duration w)) !! rateLimitKey other op
     = rateLimitStore w !! rateLimitKey other op.
Proof.
  intros Hx Hy Hne.
  pose proof (is_user_key_other userId other op Hx Hy Hne) as Hkey.
  unfold resetUserRateLimit, setUserBlock. run_M. split.
  - rewrite map_lookup_filter. destruct (rateLimitStore w !! rateLimitKey other op); simpl;
      [|reflexivity].
    rewrite option_guard_True; [reflexivity|exact Hkey].
  - rewrite map_lookup_imap. destruct (rateLimitStore w !! rateLimitKey other op); simpl;
      [|reflexivity].
    now rewrite Hkey.
Qed.

(** X6.  What [cleanupRateLimitStore] leaves: every entry that remains
    comes from an entry with the same block data, its timestamps are those
    of that entry younger than 24 hours, and it has a timestamp or is
    blocked.  A blocked entry is never removed, however long ago its block
    ended, and no entry is added. *)
Theorem cleanup_leaves_live_entries (w : World) :
  let w' := snd (cleanupRateLimitStore w) in
  fst (cleanupRateLimitStore w) = Returned tt
  /\ (forall k d', rateLimitStore w' !! k = Some d' ->
        (requests d' <> [] \/ blocked d' = true)
        /\ Forall (fun x => now w - x < maxAge) (requests d')
        /\ exists d, rateLimitStore w !! k = Some d
                     /\ requests d' = in_window (now w) maxAge d
                     /\ blocked d' = blocked d /\ blockedUntil d' = blockedUntil d)
  /\ (forall k d, rateLimitStore w !! k = Some d -> blocked d = true ->
        rateLimitStore w' !! k
        = Some {| requests := in_window (now w) maxAge d; blocked := true;
                  blockedUntil := blockedUntil d |})
  /\ (size (rateLimitStore w') <= size (rateLimitStore w))%nat.
Proof.
  unfold cleanupRateLimitStore. run_M. split; [reflexivity|]. split; [|split].
  - intros k d' Hlk. rewrite lookup_omap in Hlk.
    destruct (rateLimitStore w !! k) as [d|] eqn:Hd; simpl in Hlk; [|discriminate].
    unfold cleanup_entry in Hlk.
    destruct ((length _ =? 0)%nat && negb (blocked d)) eqn:Hdel; [discriminate|].
    injection Hlk as <-. simpl.
    split; [|split].
    + apply Bool.andb_false_iff in Hdel. destruct Hdel as [Hlen|Hb].
      * left. intros Hnil. rewrite Hnil in Hlen. discriminate.
      * right. now apply Bool.negb_false_iff.
    + apply Forall_forall. intros x Hx. apply list_elem_of_In, List.filter_In in Hx.
      now apply Z.ltb_lt.
    + exists d. now repeat split.
  - intros k d Hd Hb. rewrite lookup_omap, Hd. simpl. unfold cleanup_entry.
    rewrite Hb, Bool.andb_false_r. reflexivity.
  - rewrite <- !size_dom. apply subseteq_size. apply dom_omap_subseteq.
Qed.

Section RateLimitAdmin.

Variables (ctx : Ctx) (userId : json) (op : Operation) (limit window : Z).
Hypothesis Huser :
  or_else (option_map user_id (ctx_user ctx)) (option_map tg_id (ctx_from ctx)) = Some userId.
Hypothesis Htruthy : truthy (Some userId) = true.
Hypothesis Hrate : determineRateLimit ctx = Returned (Some (op, limit, window)).

Let key : ustring := rateLimitKey userId op.

(** X7.  Cleaning the store changes no decision: a check made at or after
    the time of the cleanup is passed on after the cleanup exactly when it
    would have been passed on without it. *)
Theorem cleanup_keeps_decisions (w : World) (t : Z) :
  now w <= t ->
  let wc := snd (cleanupRateLimitStore w) in
  passed_on (new_events (set_now t wc) (snd (rateLimitMiddleware ctx (set_now t wc))))
  = passed_on (new_events (set_now t w) (snd (rateLimitMiddleware ctx (set_now t w)))).
Proof.
  intros Ht wc.
  destruct (determineRateLimit_positive ctx op limit window Hrate) as [_ Hwin].
  rewrite (proj2 (check_step_events ctx userId op limit window Huser Htruthy Hrate wc t)).
  rewrite (proj2 (check_step_events ctx userId op limit window Huser Htruthy Hrate w t)).
  fold key. subst wc. unfold cleanupRateLimitStore. run_M.
  unfold entry_of. rewrite lookup_omap.
  destruct (rateLimitStore w !! key) as [d|]; simpl; [|reflexivity].
  assert (Hyoung : forall x, In x (requests d) ->
            (t - x <? window) = true -> (now w - x <? maxAge) = true).
  { intros x _ Hx. apply Z.ltb_lt in Hx. apply Z.ltb_lt. unfold maxAge. lia. }
  unfold cleanup_entry.
  destruct ((length _ =? 0)%nat && negb (blocked d)) eqn:Hdel; simpl.
  - apply andb_prop in Hdel. destruct Hdel as [Hlen Hb].
    apply Bool.negb_true_iff in Hb. rewrite Hb. simpl.
    apply Nat.eqb_eq, length_zero_iff_nil in Hlen.
    unfold in_window. simpl.
    rewrite <- (filter_filter_implied _ _ (requests d) Hyoung), Hlen. reflexivity.
  - unfold in_window. simpl. now rewrite (filter_filter_implied _ _ (requests d) Hyoung).
Qed.

(** X8.  Resetting a user lifts whatever the store held against them: the
    next update of that user is passed on, in every category, and opens a
    window that holds this one request. *)
Theorem reset_lifts_limits (w : World) (t : Z) :
  let wr := snd (resetUserRateLimit userId w) in
  let w' := snd (rateLimitMiddleware ctx (set_now t wr)) in
  rateLimitStore wr !! key = None
  /\ new_events (set_now t wr) w' = [EvNext]
  /\ rateLimitStore w' !! key
     = Some {| requests := [t]; blocked := false; blockedUntil := 0 |}.
Proof.
  intros wr w'.
  destruct (determineRateLimit_positive ctx op limit window Hrate) as [Hlim _].
  assert (Hnone : rateLimitStore wr !! key = None).
  { subst wr. unfold resetUserRateLimit. run_M. apply map_lookup_filter_None.
    right. intros d _. simpl. unfold key. now rewrite is_user_key_own. }
  split; [exact Hnone|]. subst w'.
  destruct (check_step ctx userId op limit window Huser Htruthy Hrate wr t)
    as (w1 & evs & Hrun & Hev & Hcase).
  rewrite Hrun. cbn [snd].
  rewrite (new_events_app (set_now t wr) w1 evs Hev).
  fold key in Hcase. unfold entry_of, in_window in Hcase. rewrite Hnone in Hcase.
  cbn [from_option id blocked requests List.filter length andb Z.of_nat] in Hcase.
  rewrite (geb_false (Z.of_nat 0) limit Hlim) in Hcase.
  destruct Hcase as [Hst ->]. split; [reflexivity|].
  rewrite Hst. apply lookup_insert_eq.
Qed.



End RateLimitAdmin.

(** ** The authentication gate *)

Lemma auth_catch_returns (downstream : Ctx -> M unit) (ctx : Ctx) (e : error) (w : World) :
  exists w', auth_catch downstream ctx e w = (Returned tt, w').
Proof.
  unfold auth_catch. run_M.
  destruct (downstream ctx _) as [[[]|e'] w1]; eexists; reflexivity.
Qed.

(** X11.  [authMiddleware] never throws, whatever the downstream chain
    does: an error raised by the store, by a send or by a handler ends in
    the gate's own [catch] blocks. *)
Theorem authMiddleware_never_throws (ctx : Ctx) (downstream : Ctx -> M unit) (w : World) :
  exists w', authMiddleware ctx downstream w = (Returned tt, w').
Proof.
  unfold authMiddleware. unfold bind at 1. unfold try_catch at 1.
  destruct (auth_resolve ctx w) as [[[user|]|e] w1].
  - unfold try_catch.
    match goal with |- context [?c w1] =>
      match c with bind _ _ => destruct (c w1) as [[[]|e] w2] end
    end.
    + eexists; reflexivity.
    + apply auth_catch_returns.
  - eexists; reflexivity.
  - unfold bind at 1.
    destruct (auth_catch_returns downstream ctx e w1) as (w2 & ->).
    eexists; reflexivity.
Qed.

(** X12.  Updates the gate drops without a word: one without sender, and
    one sent by a bot other than this one.  A single log line is written;
    no user row is read or written, nothing is sent, and the downstream
    chain does not run. *)
Theorem gate_drops_anonymous_and_bots (ctx : Ctx) (downstream : Ctx -> M unit) (w : World) :
  (ctx_from ctx = None ->
   authMiddleware ctx downstream w
   = (Returned tt, set_events (events w ++ [EvLog LWarn "No user information in update"]) w))
  /\ (forall telegramUser,
        ctx_from ctx = Some telegramUser ->
        is_bot telegramUser = true ->
        strict_eq (Some (tg_id telegramUser)) (ctx_botInfo_id ctx) = false ->
        authMiddleware ctx downstream w
        = (Returned tt, set_events (events w ++ [EvLog LSecurity "Bot user detected"]) w)).
Proof.
  split.
  - intros Hfrom. unfold authMiddleware, auth_resolve. rewrite Hfrom. reflexivity.
  - intros telegramUser Hfrom Hbot Hother.
    unfold authMiddleware, auth_resolve. rewrite Hfrom, Hbot, Hother. reflexivity.
Qed.

(** X13.  The gate fails open on a store error: when the user row cannot
    be read or created, the error is logged twice and the downstream chain
    runs on the context as it came in, without [ctx.user]; what the chain
    throws then is logged and swallowed. *)
Theorem gate_fails_open_on_store_error
    (ctx : Ctx) (telegramUser : TelegramUser) (e : error)
    (downstream : Ctx -> M unit) (w : World) :
  ctx_from ctx = Some telegramUser ->
  is_bot telegramUser && negb (strict_eq (Some (tg_id telegramUser)) (ctx_botInfo_id ctx))
    = false ->
  user_upsert E telegramUser = Threw e ->
  authMiddleware ctx downstream w
  = let '(o, w') :=
      downstream ctx
        (set_events (events w ++ [EvLog LError "user_find_or_create";
                                  EvLog LError "auth_middleware"; EvNext]) w) in
    match o with
    | Returned _ => (Returned tt, w')
    | Threw _ =>
        (Returned tt, set_events (events w' ++ [EvLog LError "auth_middleware_next"]) w')
    end.
Proof.
  intros Hfrom Hbot Hup.
  unfold authMiddleware, auth_resolve, findOrCreate, auth_catch.
  rewrite Hfrom, Hbot. run_M. rewrite Hup. simpl.
  rewrite <- !app_assoc. simpl.
  destruct (downstream ctx _) as [[[]|e'] w1]; reflexivity.
Qed.

(** The events the gate adds for a user it lets in, up to the call of the
    downstream chain. *)
Lemma gate_admits (ctx : Ctx) (telegramUser : TelegramUser) (user : User)
    (parsed : json) (downstream : Ctx -> M unit) (w : World) :
  ctx_from ctx = Some telegramUser ->
  is_bot telegramUser && negb (strict_eq (Some (tg_id telegramUser)) (ctx_botInfo_id ctx))
    = false ->
  user_upsert E telegramUser = Returned (Some user) ->
  isBlocked user = false ->
  ctx_has_session ctx = true ->
  JSON_parse E (match preferences user with
                | Some p => if ustring_eqb p [] then u "{}" else p
                | None => u "{}"
                end) = Returned parsed ->
  authMiddleware ctx downstream w
  = let ctx' := set_ctx_user user ctx in
    let '(o, w2) := downstream ctx' (set_events (events w ++ admitted_events user) w) in
    match o with
    | Returned _ => (Returned tt, w2)
    | Threw _ =>
        let '(o', w3) :=
          downstream ctx'
            (set_events (events w2 ++ [EvLog LError "auth_middleware"; EvNext]) w2) in
        match o' with
        | Returned _ => (Returned tt, w3)
        | Threw _ =>
            (Returned tt, set_events (events w3 ++ [EvLog LError "auth_middleware_next"]) w3)
        end
    end.
Proof.
  intros Hfrom Hbot Hup Hblocked Hsession Hparse.
  unfold authMiddleware, auth_resolve, findOrCreate, auth_catch, admitted_events.
  rewrite Hfrom, Hbot. run_M. rewrite Hup. simpl. rewrite Hblocked, Hsession. simpl.
  destruct (isActive user); simpl; rewrite Hparse; simpl; rewrite <- !app_assoc; simpl.
  - destruct (downstream (set_ctx_user user ctx) _) as [[[]|e1] w2]; [reflexivity|].
    unfold set_events; simpl; rewrite <- !app_assoc; simpl.
    destruct (downstream (set_ctx_user user ctx) _) as [[[]|e2] w3]; reflexivity.
  - destruct (downstream (set_ctx_user user ctx) _) as [[[]|e1] w2]; [reflexivity|].
    unfold set_events; simpl; rewrite <- !app_assoc; simpl.
    destruct (downstream (set_ctx_user user ctx) _) as [[[]|e2] w3]; reflexivity.
Qed.

(** X14.  A user the gate lets in: the row is upserted (and reactivated
    when it was inactive), the activity is stamped, and the downstream
    chain runs with [ctx.user] set.  When the chain throws, the gate logs
    the error and runs the chain a second time, from the world the failed
    run left; an error of the second run is logged and swallowed. *)
Theorem handler_error_reruns_handler (ctx : Ctx) (telegramUser : TelegramUser) (user : User)
    (parsed : json) (downstream : Ctx -> M unit) (w : World) :
  ctx_from ctx = Some telegramUser ->
  is_bot telegramUser && negb (strict_eq (Some (tg_id telegramUser)) (ctx_botInfo_id ctx))
    = false ->
  user_upsert E telegramUser = Returned (Some user) ->
  isBlocked user = false ->
  ctx_has_session ctx = true ->
  JSON_parse E (match preferences user with
                | Some p => if ustring_eqb p [] then u "{}" else p
                | None => u "{}"
                end) = Returned parsed ->
  let ctx' := set_ctx_user user ctx in
  let w1 := set_events (events w ++ admitted_events user) w in
  (forall w2, downstream ctx' w1 = (Returned tt, w2) ->
     authMiddleware ctx downstream w = (Returned tt, w2))
  /\ (forall e w2, downstream ctx' w1 = (Threw e, w2) ->
        let w2' := set_events (events w2 ++ [EvLog LError "auth_middleware"; EvNext]) w2 in
        authMiddleware ctx downstream w
        = (Returned tt,
           match downstream ctx' w2' with
           | (Returned _, w3) => w3
           | (Threw _, w3) =>
               set_events (events w3 ++ [EvLog LError "auth_middleware_next"]) w3
           end)).
Proof.
  intros Hfrom Hbot Hup Hblocked Hsession Hparse ctx' w1.
  pose proof (gate_admits ctx telegramUser user parsed downstream w
                Hfrom Hbot Hup Hblocked Hsession Hparse) as Hrun.
  cbv zeta in Hrun. fold ctx' w1 in Hrun.
  split.
  - intros w2 Hd. rewrite Hrun, Hd. reflexivity.
  - intros e w2 Hd w2'. rewrite Hrun, Hd. fold w2'.
    destruct (downstream ctx' w2') as [[[]|e'] w3]; reflexivity.
Qed.

Ltac use_new_events :=
  repeat match goal with
         | |- context [new_events ?w (set_events (events ?w ++ ?evs) ?w)] =>
             rewrite (new_events_app w (set_events (events w ++ evs) w) evs eq_refl)
         end.

(** X15.  [requireAdmin] lets an update through exactly when [ctx.isAdmin()]
    holds, the test the rate limiter uses for its multiplier; everybody
    else is sent a refusal and the chain does not run. *)
Theorem requireAdmin_admits_admin_only (ctx : Ctx) (w : World) :
  let w' := snd (requireAdmin ctx w) in
  passed_on (new_events w w') = isAdmin ctx
  /\ (isAdmin ctx = true -> fst (requireAdmin ctx w) = Returned tt)
  /\ (isAdmin ctx = false -> exists m, In (EvReply m) (new_events w w')).
Proof.
  intros w'. subst w'. unfold requireAdmin, isAdmin.
  assert (Hrefuse : forall (what : string) (m : Message),
            exists o, (log LSecurity what ;; reply m) w
                      = (o, set_events (events w ++ [EvLog LSecurity what; EvReply m]) w)).
  { intros what m. unfold log, emit, bind, modify, reply. simpl.
    destruct (telegram_ok E _); eexists; unfold set_events; simpl;
      rewrite <- app_assoc; reflexivity. }
  destruct (ctx_user ctx) as [user|]; cbn [option_map].
  - destruct (strict_eq (Some (telegramId user)) (Some (cfg_adminId E))) eqn:Hadm;
      cbn [negb].
    + assert (Hrun : (log LActivity "admin_access" ;; next) w
                     = (Returned tt,
                        set_events (events w ++ [EvLog LActivity "admin_access"; EvNext]) w)).
      { unfold log, next, emit, bind, modify. simpl. unfold set_events. simpl.
        now rewrite <- app_assoc. }
      rewrite Hrun. cbn [fst snd].
      use_new_events.
      split; [reflexivity|]. split; [reflexivity|discriminate].
    + destruct (Hrefuse "Non-admin attempted admin access"%string MsgAdminOnly) as [o ->].
      cbn [fst snd].
      use_new_events.
      split; [reflexivity|]. split; [discriminate|].
      intros _. exists MsgAdminOnly. now right; left.
  - destruct (Hrefuse "Admin access without authenticated user"%string MsgNotAuthorized)
      as [o ->].
    cbn [fst snd].
    use_new_events.
    split; [reflexivity|]. split; [discriminate|].
    intros _. exists MsgNotAuthorized. now right; left.
Qed.

(** ** [rateLimitOperation]: a sliding window without block *)

Lemma filter_window_later (window t t' : Z) (l : list Z) :
  t <= t' ->
  List.filter (fun x => t' - x <? window) (List.filter (fun x => t - x <? window) l)
  = List.filter (fun x => t' - x <? window) l.
Proof.
  intros Ht. apply filter_filter_implied. intros x _ Hx.
  apply Z.ltb_lt in Hx. apply Z.ltb_lt. lia.
Qed.

(** [l] does not decrease and starts at or after [t0]. *)
Lemma sorted_from (l : list Z) :
  Sorted Z.le l -> forall t0, HdRel Z.le t0 l ->
  match l with
  | [] => True
  | t :: rest => t0 <= t /\ Sorted Z.le rest /\ HdRel Z.le t rest
  end.
Proof.
  intros Hs t0 Hhd. destruct l as [|t rest]; [exact I|].
  apply Sorted_inv in Hs. apply HdRel_inv in Hhd. tauto.
Qed.

Lemma passed_times_cons (t : Z) (b : bool) (vs : list (Z * bool)) :
  passed_times ((t, b) :: vs) = if b then t :: passed_times vs else passed_times vs.
Proof. unfold passed_times. simpl. now destruct b. Qed.

Lemma passed_times_split (vs : list (Z * bool)) :
  forall l1 t l2, passed_times vs = l1 ++ t :: l2 ->
  exists pre post, vs = pre ++ (t, true) :: post /\ passed_times pre = l1.
Proof.
  induction vs as [|[t0 b0] vs IH]; intros l1 t l2 H.
  - destruct l1; discriminate.
  - rewrite passed_times_cons in H. destruct b0.
    + destruct l1 as [|a l1]; simpl in H; injection H as -> H.
      * exists [], vs. now split.
      * destruct (IH _ _ _ H) as (pre & post & -> & Hpre).
        exists ((a, true) :: pre), post. split; [reflexivity|].
        rewrite passed_times_cons. now rewrite Hpre.
    + destruct (IH _ _ _ H) as (pre & post & -> & Hpre).
      exists ((t0, false) :: pre), post. split; [reflexivity|].
      now rewrite passed_times_cons.
Qed.

Section OperationWindow.

Variables (operation : ustring) (limit window : Z) (ctx : Ctx) (userId : json).
Hypothesis Huser : option_map user_id (ctx_user ctx) = Some userId.
Hypothesis Htruthy : truthy (Some userId) = true.

Let userKey : ustring := toString userId ++ u ":" ++ operation.

Lemma operation_step (store : gmap ustring (list Z)) (w : World) (t : Z) :
  let stored := default [] (store !! userKey) in
  let valid := List.filter (fun x => t - x <? window) stored in
  exists o store1 w1,
    rateLimitOperation operation limit window ctx store (set_now t w) = (o, (store1, w1))
    /\ passed_on (new_events (set_now t w) w1) = (Z.of_nat (length valid) <? limit)
    /\ default [] (store1 !! userKey)
       = if Z.of_nat (length valid) <? limit then valid ++ [t] else stored.
Proof.
  intros stored valid. unfold rateLimitOperation. rewrite Huser, Htruthy.
  cbn [negb]. cbv iota. fold userKey. cbn [now set_now].
  set (store0 := match store !! userKey with Some _ => store | None => _ end).
  assert (Hstored : default [] (store0 !! userKey) = stored).
  { subst stored store0. destruct (store !! userKey) eqn:Hlk; [now rewrite Hlk|].
    now rewrite lookup_insert_eq. }
  rewrite Hstored. fold valid. rewrite Z.geb_leb.
  destruct (limit <=? Z.of_nat (length valid)) eqn:Hle.
  - assert (Hlt : (Z.of_nat (length valid) <? limit) = false).
    { apply Z.ltb_ge. now apply Z.leb_le. }
    rewrite Hlt. unfold log, emit, bind, modify, reply. simpl.
    destruct (telegram_ok E _); do 3 eexists; (split; [reflexivity|]);
      (split; [|exact Hstored]);
      apply passed_on_false; unfold new_events; simpl; rewrite <- app_assoc;
      rewrite drop_app_length; intros [H|[H|[]]]; discriminate.
  - assert (Hlt : (Z.of_nat (length valid) <? limit) = true).
    { apply Z.ltb_lt. now apply Z.leb_gt. }
    rewrite Hlt. unfold next, emit, modify. simpl.
    do 3 eexists. split; [reflexivity|]. split.
    + unfold new_events. simpl. now rewrite drop_app_length.
    + now rewrite lookup_insert_eq.
Qed.

(** What the map holds for the user agrees, within the window of any later
    time, with the checks that were passed on so far. *)
Lemma operation_run (times : list Z) :
  forall (pre : list Z) (store : gmap ustring (list Z)) (w : World) (tlast : Z),
  (forall t, tlast <= t ->
     List.filter (fun x => t - x <? window) (default [] (store !! userKey))
     = List.filter (fun x => t - x <? window) pre) ->
  Sorted Z.le times -> HdRel Z.le tlast times ->
  forall before t b after,
    fst (run_operation_checks operation limit window ctx times store w)
    = before ++ (t, b) :: after ->
    b = (Z.of_nat (length (List.filter (fun x => t - x <? window)
                                       (pre ++ passed_times before))) <? limit).
Proof.
  induction times as [|t0 times IH]; intros pre store w tlast Hinv Hsorted Hhd
    before t b after Hrun.
  - destruct before; discriminate.
  - destruct (sorted_from _ Hsorted tlast Hhd) as (Ht0 & Hsorted' & Hhd').
    cbn [run_operation_checks] in Hrun.
    destruct (operation_step store w t0) as (o & store1 & w1 & Hstep & Hpass & Hstore).
    rewrite Hstep in Hrun.
    destruct (run_operation_checks operation limit window ctx times store1 w1)
      as [verdicts final] eqn:Hrest.
    cbn [fst] in Hrun. rewrite Hpass in Hrun.
    rewrite (Hinv t0 Ht0) in Hrun, Hstore.
    set (b0 := Z.of_nat (length (List.filter (fun x => t0 - x <? window) pre)) <? limit)
      in *.
    destruct before as [|[t1 b1] before]; simpl in Hrun.
    + injection Hrun as <- <- _. unfold passed_times. simpl. now rewrite app_nil_r.
    + injection Hrun as <- <- Hrun.
      assert (Hinv' : forall t', t0 <= t' ->
                List.filter (fun x => t' - x <? window) (default [] (store1 !! userKey))
                = List.filter (fun x => t' - x <? window)
                    (if b0 then pre ++ [t0] else pre)).
      { intros t' Ht'. rewrite Hstore. destruct b0.
        - rewrite !List.filter_app. f_equal. now apply filter_window_later.
        - apply Hinv. lia. }
      pose proof (IH (if b0 then pre ++ [t0] else pre) store1 w1 t0 Hinv' Hsorted' Hhd'
                    before t b after) as Hb.
      rewrite Hrest in Hb. specialize (Hb Hrun). rewrite Hb.
      rewrite passed_times_cons.
      destruct b0; [now rewrite <- app_assoc|reflexivity].
Qed.

(** X16.  The window of [rateLimitOperation].  A middleware made by it
    starts with an empty map; over checks at times that do not decrease, a
    check is passed on exactly when fewer than [limit] of the checks passed
    on before it are younger than [window].  So among the checks passed on,
    at most [limit] fall within [window] before any of them, that one
    included; a refusal starts no block. *)
Theorem rateLimitOperation_sliding_window (times : list Z) (w : World) :
  Sorted Z.le times ->
  let verdicts := fst (run_operation_checks operation limit window ctx times ∅ w) in
  (forall before t b after,
      verdicts = before ++ (t, b) :: after ->
      b = (Z.of_nat (length (List.filter (fun x => t - x <? window) (passed_times before)))
           <? limit))
  /\ (forall l1 t l2,
        passed_times verdicts = l1 ++ t :: l2 ->
        Z.of_nat (length (List.filter (fun x => t - x <? window) (l1 ++ [t]))) <= limit).
Proof.
  intros Hsorted verdicts.
  assert (Hrule : forall before t b after,
            verdicts = before ++ (t, b) :: after ->
            b = (Z.of_nat (length (List.filter (fun x => t - x <? window)
                                               (passed_times before))) <? limit)).
  { intros before t b after Hv.
    subst verdicts. destruct times as [|t0 times'].
    - destruct before; discriminate.
    - apply (operation_run (t0 :: times') [] ∅ w t0) with (after := after).
      + intros t' _. now rewrite lookup_empty.
      + exact Hsorted.
      + constructor. lia.
      + exact Hv. }
  split; [exact Hrule|].
  intros l1 t l2 Hpassed.
  destruct (passed_times_split verdicts l1 t l2 Hpassed) as (pre & post & Hv & Hpre).
  pose proof (Hrule pre t true post Hv) as Hlt. rewrite Hpre in Hlt.
  symmetry in Hlt. apply Z.ltb_lt in Hlt.
  rewrite List.filter_app, length_app. simpl.
  destruct (t - t <? window); cbn [length]; lia.
Qed.

End OperationWindow.

(** ** The cache *)

Lemma size_filter_bool {A} (f : ustring * A -> bool) (m : gmap ustring A) :
  (size (filter (fun x => f x = true) m) + size (filter (fun x => f x = false) m))%nat
  = size m.
Proof.
  rewrite <- (map_filter_union_complement (fun x => f x = true) m) at 3.
  rewrite map_size_disj_union by apply map_disjoint_filter_complement.
  f_equal. f_equal. apply map_filter_ext. intros i x _.
  destruct (f (i, x)); split; congruence.
Qed.

(** X17.  The cache round trip of the API client.  What [setCache] stores
    under a key is what [getFromCache] gives back for that key up to and
    including the moment of expiry, [cacheTtl] seconds after the write.
    After that moment the lookup is a miss and removes the row.  Rows under
    other keys are not touched by the write. *)
Theorem cache_round_trip (key : ustring) (value : list Hadith) (w : World) (t : Z) :
  let w1 := snd (setCache key value w) in
  let expiry := now w + cfg_cacheTtl E * 1000 in
  fst (setCache key value w) = Returned tt
  /\ (t <= expiry -> fst (getFromCache key (set_now t w1)) = Returned (Some value))
  /\ (expiry < t ->
      fst (getFromCache key (set_now t w1)) = Returned None
      /\ cacheTable (snd (getFromCache key (set_now t w1))) !! key = None)
  /\ (forall other, other <> key -> cacheTable w1 !! other = cacheTable w !! other).
Proof.
  intros w1 expiry.
  assert (Hlk : cacheTable (set_now t w1) !! key
                = Some {| data := value; expiresAt := expiry |}).
  { subst w1. unfold setCache, cache_set. run_M. apply lookup_insert_eq. }
  split; [reflexivity|]. split; [|split].
  - intros Ht.
    rewrite (getFromCache_hit key _ (set_now t w1) Hlk); [reflexivity|exact Ht].
  - intros Ht.
    destruct (cache_get_expired key _ (set_now t w1) Hlk Ht) as (w2 & Hget & Hgone).
    unfold getFromCache, try_catch. rewrite Hget. now split.
  - intros other Hother. subst w1. unfold setCache, cache_set. run_M.
    now apply lookup_insert_ne.
Qed.

Lemma cache_get_value (key : ustring) (w : World) :
  fst (cache_get key w)
  = Returned (match cacheTable w !! key with
              | Some entry => if expiresAt entry <? now w then None else Some (data entry)
              | None => None
              end).
Proof.
  unfold cache_get. run_M. destruct (cacheTable w !! key) as [entry|]; [|reflexivity].
  now destruct (expiresAt entry <? now w).
Qed.

(** X18.  [db.cache.cleanup] is invisible to readers: at the time of the
    cleanup and at any later time, [db.cache.get] answers every key as it
    would have without the cleanup.  The rows that remain are those of the
    table that had not expired, and the number returned is the number of
    rows removed. *)
Theorem cache_cleanup_is_transparent (w : World) :
  let wc := snd (cache_cleanup w) in
  (forall key t, now w <= t ->
     fst (cache_get key (set_now t wc)) = fst (cache_get key (set_now t w)))
  /\ (forall key entry,
        cacheTable wc !! key = Some entry
        <-> cacheTable w !! key = Some entry /\ now w <= expiresAt entry)
  /\ fst (cache_cleanup w)
     = Returned (Z.of_nat (size (cacheTable w)) - Z.of_nat (size (cacheTable wc))).
Proof.
  intros wc.
  assert (Hrows : forall key entry,
            cacheTable wc !! key = Some entry
            <-> cacheTable w !! key = Some entry /\ now w <= expiresAt entry).
  { intros key entry. subst wc. unfold cache_cleanup. run_M.
    rewrite map_lookup_filter_Some. simpl. now rewrite Z.ltb_ge. }
  split; [|split; [exact Hrows|]].
  - intros key t Ht. rewrite !cache_get_value. f_equal.
    change (cacheTable (set_now t wc)) with (cacheTable wc).
    change (cacheTable (set_now t w)) with (cacheTable w).
    change (now (set_now t wc)) with t. change (now (set_now t w)) with t.
    destruct (cacheTable w !! key) as [entry|] eqn:Hw.
    + destruct (expiresAt entry <? now w) eqn:Hexp.
      * assert (Hnone : cacheTable wc !! key = None).
        { destruct (cacheTable wc !! key) as [e'|] eqn:Hc; [|reflexivity].
          apply Hrows in Hc. destruct Hc as [Heq Hle].
          rewrite Hw in Heq. injection Heq as <-. apply Z.ltb_lt in Hexp. lia. }
        rewrite Hnone. apply Z.ltb_lt in Hexp.
        symmetry. rewrite (proj2 (Z.ltb_lt _ _)); [reflexivity|lia].
      * assert (Hsome : cacheTable wc !! key = Some entry).
        { apply Hrows. split; [exact Hw|]. now apply Z.ltb_ge. }
        now rewrite Hsome.
    + assert (Hnone : cacheTable wc !! key = None).
      { destruct (cacheTable wc !! key) as [e'|] eqn:Hc; [|reflexivity].
        apply Hrows in Hc. destruct Hc as [Heq _]. rewrite Hw in Heq. discriminate. }
      now rewrite Hnone.
  - subst wc. unfold cache_cleanup. run_M. f_equal.
    pose proof (size_filter_bool (fun row => expiresAt row.2 <? now w) (cacheTable w)) as Hsz.
    simpl in Hsz. lia.
Qed.

(** X19.  [db.cache.delete] reports whether there was a row to delete: it
    returns [true] exactly when the key was present, never throws, leaves no
    row under the key, and touches no other row; deleting the same key once
    more returns [false]. *)
Theorem cache_delete_reports_presence (key : ustring) (w : World) :
  let w1 := snd (cache_delete key w) in
  fst (cache_delete key w) = Returned (bool_decide (is_Some (cacheTable w !! key)))
  /\ cacheTable w1 !! key = None
  /\ (forall other, other <> key -> cacheTable w1 !! other = cacheTable w !! other)
  /\ fst (cache_delete key w1) = Returned false.
Proof.
  assert (Habsent : forall w0, cacheTable w0 !! key = None ->
            cache_delete key w0
            = (Returned false, set_events (events w0 ++ [EvLog LError "cache_delete"]) w0)).
  { intros w0 H0. unfold cache_delete. run_M. now rewrite H0. }
  intros w1. subst w1.
  destruct (cacheTable w !! key) as [entry|] eqn:Hlk.
  - assert (Hrun : cache_delete key w
                   = (Returned true,
                      set_events (events w ++ [EvLog LCache "delete"])
                        (set_cacheTable (delete key (cacheTable w)) w))).
    { unfold cache_delete. run_M. now rewrite Hlk. }
    rewrite Hrun. cbn [fst snd].
    split; [now rewrite bool_decide_eq_true_2|].
    split; [simpl; apply lookup_delete_eq|].
    split; [intros other Hother; simpl; now apply lookup_delete_ne|].
    rewrite Habsent; [reflexivity|]. simpl. apply lookup_delete_eq.
  - rewrite (Habsent w Hlk). cbn [fst snd].
    split; [rewrite bool_decide_eq_false_2; [reflexivity|]; now intros [? ?]|].
    split; [exact Hlk|]. split; [reflexivity|].
    rewrite Habsent; [reflexivity|exact Hlk].
Qed.

(** ** The text utilities *)

Lemma drop_while_split {A} (p : A -> bool) (l : list A) :
  exists pre, l = pre ++ drop_while p l /\ Forall (fun x => p x = true) pre.
Proof.
  induction l as [|a l (pre & Hl & Hpre)]; simpl.
  - exists []. split; [reflexivity|constructor].
  - destruct (p a) eqn:Hp.
    + exists (a :: pre). split; [simpl; now f_equal|now constructor].
    + exists []. split; [reflexivity|constructor].
Qed.

Lemma drop_while_head {A} (p : A -> bool) (l : list A) (a : A) (rest : list A) :
  drop_while p l = a :: rest -> p a = false.
Proof.
  induction l as [|b l IH]; simpl; [discriminate|].
  destruct (p b) eqn:Hp; [exact IH|]. intros H. injection H as <- _. exact Hp.
Qed.

Lemma drop_while_id {A} (p : A -> bool) (l : list A) :
  match l with [] => True | a :: _ => p a = false end -> drop_while p l = l.
Proof. destruct l as [|a l]; simpl; [reflexivity|]. now intros ->. Qed.

Lemma trim_trimmed (s : ustring) : trimmed (trim s).
Proof.
  unfold trimmed, trim, trimEnd, trimStart. rewrite rev_involutive.
  set (d := drop_while is_ws s).
  assert (Hd : match d with [] => True | a :: _ => is_ws a = false end).
  { destruct d as [|a d'] eqn:Hdd; [exact I|]. exact (drop_while_head _ _ _ _ Hdd). }
  destruct (drop_while_split is_ws (rev d)) as (pre & Hsplit & _).
  set (e := drop_while is_ws (rev d)) in *.
  split.
  - destruct e as [|z e'] eqn:He; [exact I|].
    assert (Hrev : d = rev (z :: e') ++ rev pre).
    { rewrite <- rev_app_distr, <- Hsplit. now rewrite rev_involutive. }
    destruct (rev (z :: e')) as [|a r] eqn:Hr.
    + apply (f_equal (@length N)) in Hr. rewrite length_rev in Hr. discriminate.
    + rewrite Hrev in Hd. exact Hd.
  - destruct e as [|z e'] eqn:He; [exact I|]. exact (drop_while_head _ _ _ _ He).
Qed.

Lemma trim_of_trimmed (s : ustring) : trimmed s -> trim s = s.
Proof.
  intros [Hhead Hlast]. unfold trim, trimStart, trimEnd.
  rewrite (drop_while_id is_ws s Hhead), (drop_while_id is_ws (rev s) Hlast).
  apply rev_involutive.
Qed.

Lemma is_ws_space : is_ws 32 = true.
Proof. reflexivity. Qed.

Lemma collapse_single_spaced (s : ustring) (in_run : bool) :
  single_spaced in_run (collapse_ws_from in_run s) = true.
Proof.
  revert in_run. induction s as [|c s IH]; intros in_run; [reflexivity|].
  cbn [collapse_ws_from]. destruct (is_ws c) eqn:Hc.
  - destruct in_run; [apply IH|].
    cbn [single_spaced]. rewrite is_ws_space, N.eqb_refl. simpl. apply IH.
  - cbn [single_spaced]. rewrite Hc. apply IH.
Qed.

Lemma collapse_of_single_spaced (s : ustring) (in_run : bool) :
  single_spaced in_run s = true -> collapse_ws_from in_run s = s.
Proof.
  revert in_run. induction s as [|c s IH]; intros in_run H; [reflexivity|].
  cbn [single_spaced] in H. cbn [collapse_ws_from]. destruct (is_ws c) eqn:Hc.
  - apply andb_prop in H. destruct H as [H Hrest]. apply andb_prop in H.
    destruct H as [Hsp Hrun]. apply N.eqb_eq in Hsp. apply Bool.negb_true_iff in Hrun.
    subst c in_run. f_equal. now apply IH.
  - f_equal. now apply IH.
Qed.

Lemma collapse_elements (s : ustring) (in_run : bool) (c : N) :
  In c (collapse_ws_from in_run s) -> c = 32%N \/ (is_ws c = false /\ In c s).
Proof.
  revert in_run. induction s as [|a s IH]; intros in_run H; [contradiction|].
  cbn [collapse_ws_from] in H. destruct (is_ws a) eqn:Ha.
  - destruct in_run.
    + destruct (IH _ H) as [->|[? ?]]; [now left|right; split; [assumption|now right]].
    + destruct H as [<-|H]; [now left|].
      destruct (IH _ H) as [->|[? ?]]; [now left|right; split; [assumption|now right]].
  - destruct H as [<-|H]; [right; split; [assumption|now left]|].
    destruct (IH _ H) as [->|[? ?]]; [now left|right; split; [assumption|now right]].
Qed.

Lemma collapse_snoc (s : ustring) (z : N) (in_run : bool) :
  is_ws z = false ->
  collapse_ws_from in_run (s ++ [z]) = collapse_ws_from in_run s ++ [z].
Proof.
  intros Hz. revert in_run. induction s as [|a s IH]; intros in_run.
  - simpl. now rewrite Hz.
  - cbn [app collapse_ws_from]. destruct (is_ws a); [destruct in_run|];
      cbn [app]; now rewrite IH.
Qed.

Lemma collapse_trimmed (s : ustring) : trimmed s -> trimmed (collapse_ws s).
Proof.
  intros [Hhead Hlast]. unfold collapse_ws. split.
  - destruct s as [|a s]; [exact I|]. cbn [collapse_ws_from]. now rewrite Hhead.
  - destruct (rev s) as [|z r] eqn:Hr.
    + apply (f_equal (@rev N)) in Hr. rewrite rev_involutive in Hr. subst s. exact I.
    + apply (f_equal (@rev N)) in Hr. rewrite rev_involutive in Hr. simpl in Hr. subst s.
      rewrite (collapse_snoc _ _ _ Hlast), rev_app_distr. exact Hlast.
Qed.

Lemma single_spaced_adjacent (s : ustring) (in_run : bool) :
  single_spaced in_run s = true ->
  forall l1 a b l2, s = l1 ++ a :: b :: l2 -> is_ws a = true -> is_ws b = false.
Proof.
  revert in_run. induction s as [|c s IH]; intros in_run H l1 a b l2 Hs Ha.
  - destruct l1; discriminate.
  - cbn [single_spaced] in H. destruct l1 as [|x l1]; simpl in Hs; injection Hs as -> Hs.
    + subst s. rewrite Ha in H. apply andb_prop in H. destruct H as [_ H].
      cbn [single_spaced] in H. destruct (is_ws b); [|reflexivity].
      apply andb_prop in H. destruct H as [H _]. apply andb_prop in H.
      destruct H as [_ H]. discriminate.
    + destruct (is_ws x).
      * apply andb_prop in H. destruct H as [_ H]. exact (IH _ H _ _ _ _ Hs Ha).
      * exact (IH _ H _ _ _ _ Hs Ha).
Qed.

(** X20.  What [cleanText] returns, for any input: no zero-width
    character, and no white space other than the plain space.  For
    anything that is no string, and for the empty string, it returns the
    empty string. *)
Theorem cleanText_alphabet (v : jsval) :
  Forall (fun c => is_zero_width c = false /\ (is_ws c = true -> c = 32%N)) (cleanText v)
  /\ (as_string v = None -> cleanText v = []).
Proof.
  unfold cleanText. destruct (as_string v) as [s|]; [|split; [constructor|reflexivity]].
  split; [|discriminate].
  destruct (ustring_eqb s []); [constructor|].
  apply Forall_forall. intros c Hc. apply list_elem_of_In in Hc.
  unfold strip_zero_width in Hc. apply List.filter_In in Hc. destruct Hc as [Hin Hz].
  apply Bool.negb_true_iff in Hz. split; [exact Hz|]. intros Hws.
  destruct (collapse_elements _ _ _ Hin) as [->|[Hno _]]; [reflexivity|congruence].
Qed.

(** X21.  On a text without zero-width joiners (U+200B to U+200D)
    [cleanText] is the white-space normal form: the result neither starts
    nor ends with white space, holds no two white-space characters in a
    row, and is left unchanged by a second [cleanText]. *)
Theorem cleanText_normal_form (s : ustring) :
  Forall (fun c => in_range 0x200B 0x200D c = false) s ->
  let r := cleanText (Some (JStr s)) in
  r = collapse_ws (trim s)
  /\ trim r = r
  /\ (forall l1 a b l2, r = l1 ++ a :: b :: l2 -> is_ws a = true -> is_ws b = false)
  /\ cleanText (Some (JStr r)) = r.
Proof.
  intros Hs r.
  assert (Hstrip : forall x, (forall c, In c x -> c = 32%N \/ (is_ws c = false /\ In c s)) ->
            strip_zero_width x = x).
  { intros x Hx. unfold strip_zero_width. apply filter_keep_all. intros c Hc.
    apply Bool.negb_true_iff. destruct (Hx c Hc) as [->|[Hws Hin]]; [reflexivity|].
    unfold is_zero_width. rewrite Forall_forall in Hs.
    rewrite (Hs c (proj2 (list_elem_of_In _ _) Hin)). simpl.
    apply N.eqb_neq. intros ->. discriminate. }
  assert (Hsub : forall c, In c (trim s) -> In c s).
  { intros c Hc. unfold trim, trimEnd, trimStart in Hc. apply in_rev in Hc.
    destruct (drop_while_split is_ws (rev (drop_while is_ws s))) as (p1 & H1 & _).
    assert (Hc1 : In c (rev (drop_while is_ws s))).
    { rewrite H1. apply in_or_app. now right. }
    apply in_rev in Hc1.
    destruct (drop_while_split is_ws s) as (p2 & H2 & _).
    rewrite H2. apply in_or_app. now right. }
  assert (Hr : r = collapse_ws (trim s)).
  { subst r. unfold cleanText. cbn [as_string].
    destruct (ustring_eqb s []) eqn:He.
    - apply ustring_eqb_eq in He. now subst s.
    - apply Hstrip. intros c Hc.
      destruct (collapse_elements _ _ _ Hc) as [->|[Hws Hin]]; [now left|].
      right. split; [exact Hws|now apply Hsub]. }
  assert (Htrim : trimmed r).
  { rewrite Hr. apply collapse_trimmed, trim_trimmed. }
  assert (Hsingle : single_spaced false r = true).
  { rewrite Hr. apply collapse_single_spaced. }
  split; [exact Hr|]. split; [now apply trim_of_trimmed|].
  split; [exact (single_spaced_adjacent r false Hsingle)|].
  unfold cleanText. cbn [as_string].
  destruct (ustring_eqb r []) eqn:He; [apply ustring_eqb_eq in He; now rewrite He|].
  rewrite (trim_of_trimmed r Htrim). unfold collapse_ws.
  rewrite (collapse_of_single_spaced r false Hsingle).
  apply Hstrip. intros c Hc. rewrite Hr in Hc.
  destruct (collapse_elements _ _ _ Hc) as [->|[Hws Hin]]; [now left|].
  right. split; [exact Hws|now apply Hsub].
Qed.

Lemma startsWith_split (s p : ustring) :
  startsWith s p = true -> exists rest, s = p ++ rest.
Proof.
  revert s. induction p as [|a p IH]; intros s H.
  - exists s. reflexivity.
  - destruct s as [|b s]; cbn [startsWith] in H; [discriminate|].
    apply andb_prop in H. destruct H as [Hab H]. apply N.eqb_eq in Hab. subst b.
    destruct (IH s H) as (rest & ->). exists rest. reflexivity.
Qed.

Lemma includes_iff (s p : ustring) :
  includes s p = true <-> exists a b, s = a ++ p ++ b.
Proof.
  split.
  - induction s as [|c s IH]; cbn [includes]; intros H.
    + rewrite Bool.orb_false_r in H. destruct (startsWith_split _ _ H) as (rest & Hs).
      exists [], rest. exact Hs.
    + apply Bool.orb_true_iff in H. destruct H as [H|H].
      * destruct (startsWith_split _ _ H) as (rest & Hs). exists [], rest. exact Hs.
      * destruct (IH H) as (a & b & ->). exists (c :: a), b. reflexivity.
  - intros (a & b & ->). induction a as [|c a IH].
    + simpl app. destruct (p ++ b) eqn:Hpb; cbn [includes]; rewrite <- ?Hpb;
        now rewrite startsWith_app.
    + cbn [app includes]. rewrite IH. apply Bool.orb_true_r.
Qed.

(** X22.  [isVerifiedSource] is a substring test: a source counts as
    verified exactly when it is a string that holds one of the eight
    collection names somewhere inside it, whatever comes before or after
    the name. *)
Theorem isVerifiedSource_is_substring_test (v : jsval) :
  isVerifiedSource v = true
  <-> exists s name a b,
        v = Some (JStr s) /\ In name verifiedSources /\ s = a ++ name ++ b.
Proof.
  unfold isVerifiedSource. split.
  - destruct v as [[| | |s| |]|]; cbn [as_string]; try discriminate.
    intros H. apply existsb_exists in H. destruct H as (name & Hin & Hinc).
    apply includes_iff in Hinc. destruct Hinc as (a & b & Hs).
    exists s, name, a, b. now repeat split.
  - intros (s & name & a & b & -> & Hin & Hs). cbn [as_string].
    apply existsb_exists. exists name. split; [exact Hin|].
    apply includes_iff. now exists a, b.
Qed.

(** X23.  What [normalizeGrade] returns: nothing for a value that is not a
    non-empty string and only for such a value; otherwise one of the four
    labels of [gradeMap] or the grade itself with the white space around it
    removed.  A text it returns never starts or ends with white space. *)
Theorem normalizeGrade_result (v : jsval) :
  (normalizeGrade v = GradeNull <-> (as_string v = None \/ as_string v = Some []))
  /\ (forall s, normalizeGrade v = GradeText s ->
        trim s = s
        /\ (In s [grade_sahih; grade_hasan; grade_daif; grade_mawdu]
            \/ exists g, as_string v = Some g /\ s = trim g)).
Proof.
  unfold normalizeGrade. destruct (as_string v) as [g|].
  2:{ split; [split; [now left|reflexivity]|discriminate]. }
  destruct (ustring_eqb g []) eqn:He.
  { apply ustring_eqb_eq in He. subst g.
    split; [split; [now right|reflexivity]|discriminate]. }
  assert (Hne : Some g <> Some []).
  { intros H. injection H as ->. discriminate. }
  assert (Hlabels : forall k label, own_property k gradeMap = Some label ->
            In label [grade_sahih; grade_hasan; grade_daif; grade_mawdu]).
  { intros k label. unfold gradeMap. cbn [own_property].
    repeat match goal with
           | |- context [if ?x then _ else _] => destruct x
           end; intros H; try discriminate; injection H as <-; simpl; tauto. }
  destruct (own_property (trim (toLowerCase E g)) gradeMap) as [label|] eqn:Hown.
  - split; [split; [discriminate|intros [H|H]; [discriminate|contradiction]]|].
    intros s H. injection H as <-. pose proof (Hlabels _ _ Hown) as Hin.
    split; [|now left].
    simpl in Hin. destruct Hin as [<-|[<-|[<-|[<-|[]]]]]; reflexivity.
  - destruct (_ || _).
    + split; [split; [discriminate|intros [H|H]; [discriminate|contradiction]]|discriminate].
    + split; [split; [discriminate|intros [H|H]; [discriminate|contradiction]]|].
      intros s H. injection H as <-.
      split; [apply trim_of_trimmed, trim_trimmed|right; now exists g].
Qed.

(** ** The API client *)

Lemma save_cases (d : HadithData) (w : World) :
  let existing :=
    match dorarId d with
    | Some dId => List.find (has_dorarId dId) (hadithTable w)
    | None => None
    end in
  exists r w',
    saveHadithToDatabase d w = (Returned r, w')
    /\ match r, existing with
       | None, _ =>
           hadithTable w' = hadithTable w
           /\ events w' = events w ++ [EvLog LError "save_hadith_to_database"]
       | Some row, Some old =>
           row = {| row_data := d; searchCount := searchCount old;
                    createdAt := createdAt old; updatedAt := now w |}
           /\ length (hadithTable w') = length (hadithTable w)
           /\ In row (hadithTable w')
           /\ events w' = events w
       | Some row, None =>
           row = {| row_data := d; searchCount := 0; createdAt := now w;
                    updatedAt := now w |}
           /\ hadithTable w' = hadithTable w ++ [row]
           /\ events w' = events w
       end.
Proof.
  run_db. destruct (dorarId d) as [dId|]; simpl.
  - destruct (List.find (has_dorarId dId) (hadithTable w)) as [old|] eqn:Hfind;
      simpl; rewrite ?Hfind; simpl.
    + destruct (negb (storable d) || conflicts d _); simpl.
      * eexists. eexists. split; [reflexivity|]. now split.
      * eexists. eexists. split; [reflexivity|]. simpl.
        split; [reflexivity|]. split; [apply length_map|]. split; [|reflexivity].
        apply List.find_some in Hfind. destruct Hfind as [Hin Hold].
        apply in_map_iff. exists old. now rewrite Hold.
    + destruct (negb (storable d) || conflicts d _); simpl.
      * eexists. eexists. split; [reflexivity|]. now split.
      * eexists. eexists. split; [reflexivity|]. now repeat split.
  - destruct (negb (storable d) || conflicts d _); simpl.
    + eexists. eexists. split; [reflexivity|]. now split.
    + eexists. eexists. split; [reflexivity|]. now repeat split.
Qed.

(** X24.  [saveHadithToDatabase] on a table with unique [id] and
    [dorarId]: it never throws, keeps both unique, touches nothing but the
    table and the log, and changes at most one row.  When a row with the
    record's [dorarId] exists and the write is accepted, that row is
    replaced in place: the rows before it and after it stay as they were,
    in their order, and the new row keeps the search counter and the
    creation time of the old one and is stamped with the time of the write.
    Without such a row an accepted write appends one row with counter zero
    behind the rows that were there.  A refused write is logged, returns
    nothing and leaves the table as it was. *)
Theorem save_inserts_or_updates (d : HadithData) (w : World) :
  table_wf (hadithTable w) ->
  let existing :=
    match dorarId d with
    | Some dId => List.find (has_dorarId dId) (hadithTable w)
    | None => None
    end in
  exists r w',
    saveHadithToDatabase d w = (Returned r, w')
    /\ table_wf (hadithTable w')
    /\ same_frame w w' /\ uuidsDrawn w' = uuidsDrawn w
    /\ match r, existing with
       | None, _ =>
           hadithTable w' = hadithTable w
           /\ events w' = events w ++ [EvLog LError "save_hadith_to_database"]
       | Some row, Some old =>
           row = {| row_data := d; searchCount := searchCount old;
                    createdAt := createdAt old; updatedAt := now w |}
           /\ (exists l1 l2,
                 hadithTable w = l1 ++ old :: l2
                 /\ hadithTable w' = l1 ++ row :: l2)
           /\ events w' = events w
       | Some row, None =>
           row = {| row_data := d; searchCount := 0; createdAt := now w;
                    updatedAt := now w |}
           /\ hadithTable w' = hadithTable w ++ [row]
           /\ events w' = events w
       end.
Proof.
  intros Hwf existing.
  pose proof (save_wf d w Hwf) as Hwf'.
  destruct (save_frame d w) as (r0 & w0 & Hrun0 & Hframe & Huuid & _).
  destruct (save_cases d w) as (r & w' & Hrun & Hcase).
  rewrite Hrun in Hrun0. injection Hrun0 as <- <-.
  rewrite Hrun in Hwf'. cbn [snd] in Hwf'.
  exists r, w'. split; [exact Hrun|]. split; [exact Hwf'|].
  split; [exact Hframe|]. split; [exact Huuid|].
  fold existing in Hcase.
  destruct r as [row|]; [|exact Hcase].
  destruct (dorarId d) as [dId|] eqn:Hd; [|exact Hcase].
  subst existing.
  destruct (List.find (has_dorarId dId) (hadithTable w)) as [old|] eqn:Hfind;
    [|exact Hcase].
  destruct Hcase as (Hrow & _ & _ & Hev).
  split; [exact Hrow|]. split; [|exact Hev].
  destruct (find_has_dorarId_split dId _ old (proj2 Hwf) Hfind)
    as (l1 & l2 & Ht & Hold & Hrest).
  exists l1, l2. split; [exact Ht|].
  revert Hrun. run_db. rewrite Hd. simpl. rewrite Hfind. simpl. rewrite Hfind.
  destruct (negb (storable d) || conflicts d _); simpl; intros Hrun;
    [discriminate|].
  injection Hrun as Hrow' <-. simpl.
  rewrite Ht at 1. rewrite (map_replace dId l1 l2 old _ Hold Hrest).
  now rewrite Hrow'.
Qed.

(** X25.  [processSearchResponse] on any response, list or not: it never
    throws and returns at most one record per element; it draws one uuid
    per element, kept or dropped; it asks the external API nothing and
    leaves the cache and the rate-limit store alone; and it keeps [id] and
    [dorarId] unique in the table.  A response that is no list gives the
    empty list and one warning, and changes nothing else. *)
Theorem processSearchResponse_any_response (responseData : json) (w : World) :
  let n := match responseData with JArr items => length items | _ => 0%nat end in
  exists hs w',
    processSearchResponse responseData w = (Returned hs, w')
    /\ (length hs <= n)%nat
    /\ uuidsDrawn w' = (uuidsDrawn w + n)%nat
    /\ api_requests (new_events w w') = []
    /\ cacheTable w' = cacheTable w /\ rateLimitStore w' = rateLimitStore w
    /\ (table_wf (hadithTable w) -> table_wf (hadithTable w'))
    /\ ((forall items, responseData <> JArr items) ->
        hs = []
        /\ w' = set_events (events w ++ [EvLog LWarn "Invalid API response format"]) w).
Proof.
  assert (Hother : (forall items, responseData <> JArr items) ->
            processSearchResponse responseData w
            = (Returned [],
               set_events (events w ++ [EvLog LWarn "Invalid API response format"]) w)).
  { intros Hno. destruct responseData as [| | | |items|]; try reflexivity.
    now destruct (Hno items). }
  destruct responseData as [| | | |items|];
    cbv zeta;
    try (rewrite Hother by discriminate;
         eexists; eexists; split; [reflexivity|];
         split; [simpl; lia|]; split; [simpl; lia|];
         split; [use_new_events; reflexivity|];
         split; [reflexivity|]; split; [reflexivity|]; split; [tauto|];
         intros _; now split).
  destruct (process_items_spec items [] w)
    as (hs & w' & evs & Hrun & Hframe & Huuid & Hev & Hapi & _ & Hlen & _ & _ & Hwf).
  exists hs, w'. unfold processSearchResponse, try_catch. rewrite Hrun. simpl.
  split; [reflexivity|].
  split; [rewrite Hlen; unfold count_where; apply List.filter_length_le|].
  split; [exact Huuid|].
  split; [now rewrite (new_events_app w w' evs Hev)|].
  destruct Hframe as (_ & Hcache & Hstore & _).
  split; [exact Hcache|]. split; [exact Hstore|]. split; [exact Hwf|].
  intros Hno. now destruct (Hno items).
Qed.

Lemma process_response_frame (responseData : json) (w : World) :
  exists hs w' evs,
    processSearchResponse responseData w = (Returned hs, w')
    /\ events w' = events w ++ evs /\ api_requests evs = []
    /\ rateLimitStore w' = rateLimitStore w
    /\ (table_wf (hadithTable w) -> table_wf (hadithTable w')).
Proof.
  destruct responseData as [| | | |items|];
    try (eexists; eexists; exists [EvLog LWarn "Invalid API response format"];
         split; [reflexivity|]; split; [reflexivity|]; split; [reflexivity|];
         split; [reflexivity|]; intros H; exact H).
  destruct (process_items_spec items [] w)
    as (hs & w' & evs & Hrun & Hframe & _ & Hev & Hapi & _ & _ & _ & _ & Hwf).
  exists hs, w', evs. unfold processSearchResponse, try_catch. rewrite Hrun. simpl.
  destruct Hframe as (_ & _ & Hstore & _).
  split; [reflexivity|]. split; [exact Hev|]. split; [exact Hapi|].
  split; [exact Hstore|exact Hwf].
Qed.

Lemma getFromCache_events (key : ustring) (w : World) :
  exists r w' evs,
    getFromCache key w = (Returned r, w')
    /\ events w' = events w ++ evs /\ api_requests evs = []
    /\ hadithTable w' = hadithTable w /\ rateLimitStore w' = rateLimitStore w
    /\ now w' = now w /\ uuidsDrawn w' = uuidsDrawn w.
Proof.
  unfold getFromCache, cache_get. run_M.
  destruct (cacheTable w !! key) as [entry|]; simpl.
  - destruct (expiresAt entry <? now w); simpl.
    + eexists. eexists. exists [EvLog LCache "expired"]. now repeat split.
    + eexists. eexists. exists [EvLog LCache "hit"]. now repeat split.
  - eexists. eexists. exists [EvLog LCache "miss"]. now repeat split.
Qed.

Lemma search_events (query : jsval) (options : json) (w : World) :
  exists hs w' evs,
    search query options w = (Returned hs, w')
    /\ events w' = events w ++ evs
    /\ (length (api_requests evs) <= 1)%nat
    /\ rateLimitStore w' = rateLimitStore w
    /\ (table_wf (hadithTable w) -> table_wf (hadithTable w')).
Proof.
  assert (Hinvalid : exists hs w' evs,
            (Returned (@nil Hadith),
             set_events (events w ++ [EvLog LError "hadith_search"]) w) = (Returned hs, w')
            /\ events w' = events w ++ evs
            /\ (length (api_requests evs) <= 1)%nat
            /\ rateLimitStore w' = rateLimitStore w
            /\ (table_wf (hadithTable w) -> table_wf (hadithTable w'))).
  { eexists. eexists. exists [EvLog LError "hadith_search"].
    split; [reflexivity|]. simpl. split; [reflexivity|]. split; [lia|]. now split. }
  unfold search. destruct (as_string query) as [q|]; [|exact Hinvalid].
  destruct (ustring_eqb (trim q) []); [exact Hinvalid|].
  unfold try_catch at 1. unfold bind at 1.
  destruct (getFromCache_events
              (generateCacheKey (u "search") [Some (JStr (trim q)); Some options]) w)
    as (r & wm & evs0 & -> & Hev0 & Hapi0 & Htab0 & Hst0 & Hnow0 & _).
  destruct r as [hadiths|].
  - run_M. eexists. eexists. exists (evs0 ++ [EvLog LCache "hit"]).
    split; [reflexivity|]. simpl.
    split; [rewrite Hev0; now rewrite <- app_assoc|].
    split; [rewrite api_requests_app, Hapi0; simpl; lia|].
    split; [exact Hst0|]. now rewrite Htab0.
  - unfold bind at 1. unfold client_get at 1. run_M.
    destruct (api_get E _ (trim q) options) as [responseData|e]; simpl.
    + match goal with |- context [processSearchResponse responseData ?w0] =>
        destruct (process_response_frame responseData w0)
          as (hs & wp & evsp & -> & Hevp & Hapip & Hstp & Hwfp)
      end.
      unfold setCache, cache_set. run_M.
      eexists. eexists.
      exists (evs0 ++ [EvApiGet (trim q) options; EvLog LInfo "API Call"] ++ evsp
              ++ [EvLog LInfo "Hadith search completed"]).
      split; [reflexivity|]. simpl in *.
      split; [rewrite Hevp, Hev0; now rewrite <- !app_assoc|].
      split.
      { rewrite api_requests_app, Hapi0.
        change (api_requests
                  (EvApiGet (trim q) options :: EvLog LInfo "API Call"
                   :: evsp ++ [EvLog LInfo "Hadith search completed"]))
          with (EvApiGet (trim q) options
                :: api_requests (evsp ++ [EvLog LInfo "Hadith search completed"])).
        rewrite api_requests_app, Hapip. simpl. lia. }
      split; [now rewrite Hstp|].
      intros Hwf. apply Hwfp. now rewrite Htab0.
    + eexists. eexists.
      exists (evs0 ++ [EvApiGet (trim q) options; EvLog LError "API Call";
                       EvLog LError "hadith_search"]).
      split; [reflexivity|]. simpl.
      split; [rewrite Hev0; now rewrite <- !app_assoc|].
      split; [rewrite api_requests_app, Hapi0; simpl; lia|].
      split; [exact Hst0|]. now rewrite Htab0.
Qed.

(** X26.  [search] on any query and any world: it never throws; it sends
    at most one request to the external API; it leaves the rate-limit store
    alone; and it keeps [id] and [dorarId] unique in the table. *)
Theorem search_never_throws (query : jsval) (options : json) (w : World) :
  exists hs w',
    search query options w = (Returned hs, w')
    /\ (length (api_requests (new_events w w')) <= 1)%nat
    /\ rateLimitStore w' = rateLimitStore w
    /\ (table_wf (hadithTable w) -> table_wf (hadithTable w')).
Proof.
  destruct (search_events query options w) as (hs & w' & evs & Hrun & Hev & Hapi & Hst & Hwf).
  exists hs, w'. split; [exact Hrun|].
  split; [now rewrite (new_events_app w w' evs Hev)|]. now split.
Qed.

(** ** The text-search handler *)





(** ** [getById] *)

(** In a well-formed table the row with a given [id] stands alone. *)
Lemma find_has_id_split (i : ustring) (t : list Row) (old : Row) :
  NoDup (ids t) ->
  List.find (has_id i) t = Some old ->
  exists l1 l2,
    t = l1 ++ old :: l2
    /\ has_id i old = true
    /\ (forall x, In x (l1 ++ l2) -> has_id i x = false).
Proof.
  induction t as [|r t IH]; simpl; [discriminate|].
  intros Hnd Hfind. apply NoDup_cons in Hnd as [Hnotin Hnd'].
  destruct (has_id i r) eqn:Hr.
  - injection Hfind as <-. exists [], t. split; [reflexivity|]. split; [exact Hr|].
    simpl. intros x Hx. destruct (has_id i x) eqn:Hx'; [|reflexivity].
    exfalso. unfold has_id in Hr, Hx'. apply ustring_eqb_eq in Hr, Hx'.
    apply Hnotin. apply list_elem_of_In. unfold ids. apply in_map_iff.
    exists x. split; [congruence|exact Hx].
  - destruct (IH Hnd' Hfind) as (l1 & l2 & -> & Hold & Hrest).
    exists (r :: l1), l2. split; [reflexivity|]. split; [exact Hold|].
    simpl. intros x [<-|Hx]; [exact Hr|now apply Hrest].
Qed.

Lemma map_replace_id (i : ustring) (l1 l2 : list Row) (old r : Row) :
  has_id i old = true ->
  (forall x, In x (l1 ++ l2) -> has_id i x = false) ->
  List.map (fun x => if has_id i x then r else x) (l1 ++ old :: l2) = l1 ++ r :: l2.
Proof.
  intros Hold Hrest.
  assert (Hsame : forall l, (forall x, In x l -> has_id i x = false) ->
                  List.map (fun x => if has_id i x then r else x) l = l).
  { induction l as [|a l IH]; simpl; intros H; [reflexivity|].
    rewrite (H a (or_introl eq_refl)). f_equal. apply IH. intros x Hx. apply H. now right. }
  rewrite List.map_app. simpl. rewrite Hold. f_equal.
  - apply Hsame. intros x Hx. apply Hrest. apply in_or_app. now left.
  - f_equal. apply Hsame. intros x Hx. apply Hrest. apply in_or_app. now right.
Qed.

Lemma getById_spec (stamp : Z -> Z -> Z) (hadithId : ustring) (w : World) :
  table_wf (hadithTable w) ->
  match List.find (has_id hadithId) (hadithTable w) with
  | None => getById stamp hadithId w = (Returned None, w)
  | Some row =>
      let counted := {| row_data := row_data row; searchCount := searchCount row + 1;
                        createdAt := createdAt row;
                        updatedAt := stamp (updatedAt row) (now w) |} in
      exists l1 l2,
        hadithTable w = l1 ++ row :: l2
        /\ getById stamp hadithId w
           = (Returned (Some row), set_hadithTable (l1 ++ counted :: l2) w)
        /\ table_wf (l1 ++ counted :: l2)
  end.
Proof.
  intros Hwf.
  destruct (List.find (has_id hadithId) (hadithTable w)) as [row|] eqn:Hfind.
  - intros counted.
    destruct (find_has_id_split hadithId _ row (proj1 Hwf) Hfind)
      as (l1 & l2 & Ht & Hold & Hrest).
    exists l1, l2. split; [exact Ht|]. split.
    + unfold getById, hadith_findUnique_id, hadith_increment_searchCount. run_M.
      rewrite Hfind. simpl. rewrite Hfind. simpl.
      rewrite Ht at 1. now rewrite (map_replace_id hadithId l1 l2 row _ Hold Hrest).
    + rewrite Ht in Hwf. unfold table_wf in *.
      rewrite ids_app, dorarIds_app in *. exact Hwf.
  - unfold getById, hadith_findUnique_id. run_M. now rewrite Hfind.
Qed.

(** X29.  [getById] on a table with unique ids.  An unknown id gives
    nothing and changes nothing.  A known id gives the row as it stood
    before the call, with the counter not yet incremented, and replaces
    that one row by a copy whose search counter is one higher; every other
    row, and the uniqueness of [id] and [dorarId], are kept.  Whatever the
    schema writes into [updatedAt] on such an update, nothing else of the
    row changes. *)
Theorem getById_counts_the_view (stamp : Z -> Z -> Z) (hadithId : ustring) (w : World) :
  table_wf (hadithTable w) ->
  match List.find (has_id hadithId) (hadithTable w) with
  | None => getById stamp hadithId w = (Returned None, w)
  | Some row =>
      let counted := {| row_data := row_data row; searchCount := searchCount row + 1;
                        createdAt := createdAt row;
                        updatedAt := stamp (updatedAt row) (now w) |} in
      exists l1 l2,
        hadithTable w = l1 ++ row :: l2
        /\ getById stamp hadithId w
           = (Returned (Some row), set_hadithTable (l1 ++ counted :: l2) w)
        /\ table_wf (l1 ++ counted :: l2)
  end.
Proof. exact (getById_spec stamp hadithId w). Qed.


Lemma find_by_own_id (t : list Row) (r : Row) :
  NoDup (ids t) -> In r t -> List.find (has_id (id (row_data r))) t = Some r.
Proof.
  induction t as [|a t IH]; simpl; intros Hnd Hin; [contradiction|].
  apply NoDup_cons in Hnd as [Hnotin Hnd'].
  destruct Hin as [->|Hin].
  - unfold has_id. now rewrite ustring_eqb_refl.
  - destruct (has_id (id (row_data r)) a) eqn:Ha; [|now apply IH].
    exfalso. unfold has_id in Ha. apply ustring_eqb_eq in Ha.
    apply Hnotin. apply list_elem_of_In. unfold ids. apply in_map_iff.
    exists r. split; [now symmetry|exact Hin].
Qed.

(** X30.  Save, then look up.  On a table with unique ids, a record that
    [saveHadithToDatabase] has stored is found by [getById] under the
    record's [id]: the lookup returns the very row the save returned, and
    leaves in the table a copy of it with the search counter raised by
    one. *)
Theorem saved_row_is_found_by_id
    (stamp : Z -> Z -> Z) (d : HadithData) (w w1 : World) (row : Row) (t : Z) :
  table_wf (hadithTable w) ->
  saveHadithToDatabase d w = (Returned (Some row), w1) ->
  row_data row = d
  /\ exists w2,
       getById stamp (id d) (set_now t w1) = (Returned (Some row), w2)
       /\ List.find (has_id (id d)) (hadithTable w2)
          = Some {| row_data := d; searchCount := searchCount row + 1;
                    createdAt := createdAt row;
                    updatedAt := stamp (updatedAt row) t |}
       /\ table_wf (hadithTable w2).
Proof.
  intros Hwf Hsave.
  pose proof (save_wf d w Hwf) as Hwf1. rewrite Hsave in Hwf1. cbn [snd] in Hwf1.
  assert (Hrow : row_data row = d /\ In row (hadithTable w1)).
  { destruct (save_cases d w) as (r & w' & Hrun & Hcase).
    rewrite Hsave in Hrun. injection Hrun as <- <-.
    destruct (match dorarId d with
              | Some dId => List.find (has_dorarId dId) (hadithTable w)
              | None => None
              end) as [old|].
    - destruct Hcase as (-> & _ & Hin & _). now split.
    - destruct Hcase as (-> & Htab & _). split; [reflexivity|].
      rewrite Htab. apply in_or_app. right. now left. }
  destruct Hrow as [Hdata Hin]. split; [exact Hdata|]. subst d.
  pose proof (getById_spec stamp (id (row_data row)) (set_now t w1)) as Hget.
  change (hadithTable (set_now t w1)) with (hadithTable w1) in Hget.
  specialize (Hget Hwf1).
  rewrite (find_by_own_id _ row (proj1 Hwf1) Hin) in Hget.
  destruct Hget as (l1 & l2 & Htab & Hrun & Hwf2).
  eexists. split; [exact Hrun|]. split; [|exact Hwf2].
  cbn [hadithTable set_hadithTable].
  apply (find_by_own_id (l1 ++ _ :: l2)
           {| row_data := row_data row; searchCount := searchCount row + 1;
              createdAt := createdAt row;
              updatedAt := stamp (updatedAt row) t |}
           (proj1 Hwf2)).
  apply in_or_app. right. now left.
Qed.
End Bot.

(** * The model at concrete inputs *)

(** ** The text utilities *)

Example grade_labels :
  normalizeGrade env_api_up (Some (JStr (u "sahih"))) = GradeText grade_sahih
  /\ normalizeGrade env_api_up (Some (JStr (u "SAHIH"))) = GradeText grade_sahih
  /\ normalizeGrade env_api_up (Some (JStr grade_sahih)) = GradeText grade_sahih
  /\ normalizeGrade env_api_up (Some (JStr (u " unknown-grade-xyz ")))
     = GradeText (u "unknown-grade-xyz")
  /\ normalizeGrade env_api_up (Some (JStr [])) = GradeNull.
Proof. repeat split. Qed.

Example verified_flag :
  isVerifiedSource (Some (JStr source_bukhari)) = true
  /\ isVerifiedSource (Some (JStr source_unknown)) = false
  /\ isVerifiedSource (Some (JNum (u "5"))) = false.
Proof. repeat split. Qed.

Example cleanText_collapses :
  cleanText (Some (JStr (u "  narrated   by  "))) = u "narrated by"
  /\ cleanText (Some (JNum (u "5"))) = []
  /\ cleanText None = [].
Proof. repeat split. Qed.

Example keywords_form_a_set :
  extractKeywords
    (JObj [(u "keywords", JStr (u "fasting, prayer,fasting ,, alms"));
           (u "topic", JStr (u "prayer")); (u "rawi", JStr (u "Anas"))])
  = Returned (u "fasting, prayer, alms, Anas")
  /\ extractKeywords (JObj [(u "keywords", JNum (u "5"))]) = Threw TypeError.
Proof. repeat split. Qed.

Example cache_key_of_a_query :
  generateCacheKey (u "search") [Some (JStr (u "night prayer")); Some (JObj [])]
  = u "hadith_api:search:night_prayer:_object_Object_".
Proof. reflexivity. Qed.

(** ** The properties *)


(** C8 at work: the administrator's [/search] limit is 150, five times 30. *)
Lemma admin_multiplier_spares_admin_category_witness :
  determineRateLimit env_api_up admin_search = Returned (Some (OpSearch, 150, 60000))
  /\ isAdmin env_api_up admin_search = true
  /\ 150 = configured_limit OpSearch * 5.
Proof.
  split; [reflexivity|]. split; [reflexivity|].
  exact (proj1 (admin_multiplier_spares_admin_category env_api_up admin_search
                  OpSearch 150 60000 eq_refl) eq_refl).
Defined.

(** C8 as stated fails: the administrator's [/admin] command is limited to
    the configured 100 requests, not to five times as many. *)
Lemma admin_category_not_multiplied :
  isAdmin env_api_up admin_admin = true
  /\ determineRateLimit env_api_up admin_admin = Returned (Some (OpAdmin, 100, 60000))
  /\ 100 <> configured_limit OpAdmin * 5.
Proof.
  split; [reflexivity|]. split; [reflexivity|]. discriminate.
Qed.

(** C1 at work: the API answers with one element; two searches for the
    same word one second apart issue one request between them. *)
Lemma search_twice_one_request_witness :
  let q := Some (JStr (u " salah ")) in
  let w1 := snd (search env_api_up q (JObj []) empty_world) in
  let w2 := snd (search env_api_up q (JObj []) (set_now 1000 w1)) in
  trim (u " salah ") = u "salah"
  /\ api_requests (events w2) = [EvApiGet (u "salah") (JObj [])]
  /\ fst (search env_api_up q (JObj []) (set_now 1000 w1))
     = fst (search env_api_up q (JObj []) empty_world).
Proof.
  intros q w1 w2. split; [reflexivity|].
  pose proof (search_twice_one_request env_api_up (u " salah ") (JObj []) empty_world 1000
                ltac:(discriminate) eq_refl) as H.
  cbv zeta in H. fold q in H.
  destruct (search env_api_up q (JObj []) empty_world) as [r1 w1'] eqn:R1.
  simpl in w1. subst w1.
  destruct (search env_api_up q (JObj []) (set_now 1000 w1')) as [r2 w2'] eqn:R2.
  simpl in w2. subst w2.
  destruct (proj1 H (JArr [raw_first]) eq_refl ltac:(reflexivity))
    as (hs & -> & -> & _ & _ & _ & _ & Hone).
  split; [exact Hone|reflexivity].
Defined.

(** C1 as stated fails: when the request fails, the search logs the error
    and returns the empty list, nothing is cached, and the second search
    for the same word issues the request again. *)
Lemma failed_request_is_repeated :
  let q := Some (JStr (u "salah")) in
  let w1 := snd (search env_api_down q (JObj []) empty_world) in
  let w2 := snd (search env_api_down q (JObj []) (set_now 1000 w1)) in
  fst (getFromCache (searchKey (u "salah") (JObj [])) empty_world) = Returned None
  /\ fst (search env_api_down q (JObj []) empty_world) = Returned []
  /\ events w1 = [EvLog LCache "miss"; EvApiGet (u "salah") (JObj []);
                  EvLog LError "API Call"; EvLog LError "hadith_search"]
  /\ cacheTable w1 !! searchKey (u "salah") (JObj []) = None
  /\ api_requests (events w2)
     = [EvApiGet (u "salah") (JObj []); EvApiGet (u "salah") (JObj [])].
Proof.
  vm_compute. repeat split.
Qed.






(** C7 at the failing input: the row saved under uuid [a] is stored under
    uuid [aa] after the second element with the same id was saved. *)
Lemma resave_replaces_internal_id_witness :
  let w1 := snd (normalizeHadithData env_api_up raw_first empty_world) in
  let w2 := snd (normalizeHadithData env_api_up raw_second (set_now 5 w1)) in
  List.map (fun r => id (row_data r)) (hadithTable w1) = [u "a"]
  /\ List.map (fun r => id (row_data r)) (hadithTable w2) = [u "aa"]
  /\ exists row1 row2,
       List.filter (has_dorarId (u "7")) (hadithTable w1) = [row1]
       /\ List.filter (has_dorarId (u "7")) (hadithTable w2) = [row2]
       /\ id (row_data row2) <> id (row_data row1).
Proof.
  intros w1 w2. split; [reflexivity|]. split; [reflexivity|].
  destruct (resave_replaces_internal_id env_api_up raw_first raw_second (u "7")
              empty_world 5) as (row1 & row2 & H1 & H2 & _ & _ & Hne).
  - split; constructor.
  - reflexivity.
  - reflexivity.
  - reflexivity.
  - reflexivity.
  - reflexivity.
  - reflexivity.
  - simpl. tauto.
  - simpl. tauto.
  - discriminate.
  - exists row1, row2. split; [exact H1|]. split; [exact H2|exact Hne].
Defined.

(** C6 at work: the blocked user gets the message and nothing runs after
    the gate. *)
Lemma blocked_user_stops_at_gate_witness :
  user_upsert env_sends_ok (sender "13") = Returned (Some (member "13" true))
  /\ authMiddleware env_sends_ok blocked_ctx (fun _ => next) empty_world
     = (Returned tt,
        set_events [EvUserWrite "upsert"; EvLog LSecurity "Blocked user attempted access";
                    EvReply MsgUserBlocked] empty_world).
Proof.
  split; [reflexivity|].
  exact (proj1 (proj1 (blocked_user_stops_at_gate env_sends_ok blocked_ctx (sender "13")
                         (member "13" true) (fun _ => next) empty_world
                         eq_refl eq_refl eq_refl eq_refl) eq_refl)).
Defined.

(** C6 as stated fails: when the platform refuses the blocked-user
    message, the gate's [catch] block invokes the downstream chain for the
    blocked user. *)
Lemma refused_send_lets_blocked_user_through :
  user_upsert env_sends_fail (sender "13") = Returned (Some (member "13" true))
  /\ isBlocked (member "13" true) = true
  /\ events (snd (authMiddleware env_sends_fail blocked_ctx (fun _ => ret tt) empty_world))
     = [EvUserWrite "upsert"; EvLog LSecurity "Blocked user attempted access";
        EvReply MsgUserBlocked; EvLog LError "auth_middleware"; EvNext].
Proof.
  repeat split.
Qed.





(** ** The further properties at work *)




(** X4 at work: [/admin] from somebody who is no administrator is never
    limited. *)
Lemma unlimited_updates_witness :
  never_limited env_api_up visitor_admin
  /\ rateLimitMiddleware env_api_up visitor_admin empty_world
     = (Returned tt, set_events [EvNext] empty_world).
Proof.
  assert (Hnever : never_limited env_api_up visitor_admin).
  { split; [reflexivity|]. right. split; [reflexivity|]. split; reflexivity. }
  split; [exact Hnever|].
  exact (proj2 (unlimited_updates env_api_up visitor_admin) Hnever empty_world).
Defined.

(** X5 at work: resetting or blocking user 42 leaves the entry of user 7. *)
Lemma maintenance_spares_other_users_witness :
  let w := world_with_entry "7:search" two_requests 0 in
  rateLimitStore (snd (resetUserRateLimit (JNum (u "42")) w))
    !! rateLimitKey (JNum (u "7")) OpSearch
  = Some two_requests
  /\ rateLimitStore (snd (setUserBlock (JNum (u "42")) true 1000 w))
       !! rateLimitKey (JNum (u "7")) OpSearch
     = Some two_requests.
Proof.
  intros w.
  assert (H42 : ~ In 58%N (toString (JNum (u "42")))).
  { simpl. intros [H|[H|[]]]; discriminate. }
  assert (H7 : ~ In 58%N (toString (JNum (u "7")))).
  { simpl. intros [H|[]]; discriminate. }
  destruct (maintenance_spares_other_users (JNum (u "42")) (JNum (u "7")) OpSearch true 1000
              w H42 H7 ltac:(discriminate)) as [Hreset Hblock].
  split; [rewrite Hreset|rewrite Hblock]; reflexivity.
Defined.

(** X6 at work: a day later the stale block is still in the store, with
    its old timestamp pruned. *)
Lemma cleanup_leaves_live_entries_witness :
  rateLimitStore (snd (cleanupRateLimitStore (world_with_entry "42:random" stale_block 90000000)))
    !! u "42:random"
  = Some {| requests := []; blocked := true; blockedUntil := 5000 |}.
Proof.
  exact (proj1 (proj2 (proj2 (cleanup_leaves_live_entries
                                (world_with_entry "42:random" stale_block 90000000))))
           (u "42:random") stale_block eq_refl eq_refl).
Defined.

(** X7 at work: a cleanup at 3000 and a check at 4000. *)
Lemma cleanup_keeps_decisions_witness :
  let w := world_with_entry "42:random" two_requests 3000 in
  let wc := snd (cleanupRateLimitStore w) in
  passed_on (new_events (set_now 4000 wc)
               (snd (rateLimitMiddleware env_api_up visitor_random (set_now 4000 wc))))
  = passed_on (new_events (set_now 4000 w)
                 (snd (rateLimitMiddleware env_api_up visitor_random (set_now 4000 w)))).
Proof.
  intros w wc.
  apply (cleanup_keeps_decisions env_api_up visitor_random (JNum (u "42")) OpRandom
           10 60000 eq_refl eq_refl eq_refl w 4000).
  simpl. lia.
Defined.

(** X8 at work: the stale block is gone after a reset, and the next
    [/random] is passed on. *)
Lemma reset_lifts_limits_witness :
  let wr := snd (resetUserRateLimit (JNum (u "42"))
                   (world_with_entry "42:random" stale_block 0)) in
  new_events (set_now 10 wr)
    (snd (rateLimitMiddleware env_api_up visitor_random (set_now 10 wr)))
  = [EvNext].
Proof.
  intros wr.
  exact (proj1 (proj2 (reset_lifts_limits env_api_up visitor_random (JNum (u "42")) OpRandom
                         10 60000 eq_refl eq_refl eq_refl
                         (world_with_entry "42:random" stale_block 0) 10))).
Defined.



(** X11 at work: a handler that throws, behind the gate. *)
Lemma authMiddleware_never_throws_witness :
  exists w', authMiddleware env_member first_message failing_handler empty_world
             = (Returned tt, w').
Proof.
  exact (authMiddleware_never_throws env_member first_message failing_handler empty_world).
Defined.

(** X12 at work: a channel post. *)
Lemma gate_drops_anonymous_and_bots_witness :
  authMiddleware env_member channel_post failing_handler empty_world
  = (Returned tt, set_events [EvLog LWarn "No user information in update"] empty_world).
Proof.
  exact (proj1 (gate_drops_anonymous_and_bots env_member channel_post failing_handler
                  empty_world) eq_refl).
Defined.

(** X13 at work: the user table is down and the handler runs all the same. *)
Lemma gate_fails_open_on_store_error_witness :
  user_upsert env_store_down (sender "42") = Threw StorageError
  /\ authMiddleware env_store_down first_message (fun _ => ret tt) empty_world
     = (Returned tt,
        set_events [EvLog LError "user_find_or_create"; EvLog LError "auth_middleware";
                    EvNext] empty_world).
Proof.
  split; [reflexivity|].
  exact (gate_fails_open_on_store_error env_store_down first_message (sender "42")
           StorageError (fun _ => ret tt) empty_world eq_refl eq_refl eq_refl).
Defined.

(** X14 at work: the handler throws and is run twice. *)
Lemma handler_error_reruns_handler_witness :
  authMiddleware env_member first_message failing_handler empty_world
  = (Returned tt,
     set_events [EvUserWrite "upsert"; EvUserWrite "lastActivity";
                 EvLog LInfo "telegram_update"; EvNext;
                 EvLog LError "auth_middleware"; EvNext;
                 EvLog LError "auth_middleware_next"] empty_world).
Proof.
  pose proof (handler_error_reruns_handler env_member first_message (sender "42")
                (member "42" false) (JObj []) failing_handler empty_world
                eq_refl eq_refl eq_refl eq_refl eq_refl eq_refl) as H.
  cbv zeta in H. destruct H as [_ H].
  rewrite (H DownstreamError _ eq_refl). reflexivity.
Defined.

(** X15 at work: the administrator's [/admin]. *)
Lemma requireAdmin_admits_admin_only_witness :
  isAdmin env_api_up admin_admin = true
  /\ fst (requireAdmin env_api_up admin_admin empty_world) = Returned tt.
Proof.
  split; [reflexivity|].
  exact (proj1 (proj2 (requireAdmin_admits_admin_only env_api_up admin_admin empty_world))
           eq_refl).
Defined.

(** X16 at work: two per second; of four checks the third is refused. *)
Lemma rateLimitOperation_sliding_window_witness :
  let verdicts :=
    fst (run_operation_checks env_api_up (u "export") 2 1000 visitor_random
           [0; 100; 200; 1100] ∅ empty_world) in
  passed_times verdicts = [0; 100; 1100]
  /\ Z.of_nat (length (List.filter (fun x => 100 - x <? 1000) ([0] ++ [100]))) <= 2.
Proof.
  intros verdicts. split; [reflexivity|].
  assert (Hsorted : Sorted Z.le [0; 100; 200; 1100]).
  { repeat constructor; lia. }
  exact (proj2 (rateLimitOperation_sliding_window env_api_up (u "export") 2 1000
                  visitor_random (JNum (u "42")) eq_refl eq_refl
                  [0; 100; 200; 1100] empty_world Hsorted)
           [0] 100 [1100] eq_refl).
Defined.

(** X17 at work: written at 0 with one hour to live, read at the very
    moment of expiry. *)
Lemma cache_round_trip_witness :
  fst (getFromCache (u "k")
         (set_now 3600000 (snd (setCache env_api_up (u "k") [] empty_world))))
  = Returned (Some []).
Proof.
  refine (proj1 (proj2 (cache_round_trip env_api_up (u "k") [] empty_world 3600000)) _).
  simpl. lia.
Defined.

(** X18 at work: the expired row is a miss with and without cleanup. *)
Lemma cache_cleanup_is_transparent_witness :
  fst (cache_get (u "k") (set_now 20 (snd (cache_cleanup world_with_cache_row))))
  = fst (cache_get (u "k") (set_now 20 world_with_cache_row)).
Proof.
  refine (proj1 (cache_cleanup_is_transparent world_with_cache_row) (u "k") 20 _).
  simpl. lia.
Defined.

(** X19 at work: the row is deleted once; the second attempt reports that
    there was nothing to delete. *)
Lemma cache_delete_reports_presence_witness :
  fst (cache_delete (u "k") (snd (cache_delete (u "k") world_with_cache_row)))
  = Returned false.
Proof.
  exact (proj2 (proj2 (proj2 (cache_delete_reports_presence (u "k") world_with_cache_row)))).
Defined.

(** X20 at work: a number is no text. *)
Lemma cleanText_alphabet_witness : cleanText (Some (JNum (u "5"))) = [].
Proof.
  exact (proj2 (cleanText_alphabet (Some (JNum (u "5")))) eq_refl).
Defined.

(** X21 at work. *)
Lemma cleanText_normal_form_witness :
  cleanText (Some (JStr (u "  narrated   by  "))) = u "narrated by"
  /\ cleanText (Some (JStr (cleanText (Some (JStr (u "  narrated   by  "))))))
     = cleanText (Some (JStr (u "  narrated   by  "))).
Proof.
  split; [reflexivity|].
  refine (proj2 (proj2 (proj2 (cleanText_normal_form (u "  narrated   by  ") _)))).
  repeat constructor.
Defined.

(** X22 at work: a chapter of Sahih al-Bukhari. *)
Lemma isVerifiedSource_is_substring_test_witness :
  exists s name a b,
    Some (JStr source_bukhari) = Some (JStr s) /\ In name verifiedSources
    /\ s = a ++ name ++ b.
Proof.
  exact (proj1 (isVerifiedSource_is_substring_test (Some (JStr source_bukhari))) eq_refl).
Defined.

(** X23 at work: an unknown grade is kept, trimmed. *)
Lemma normalizeGrade_result_witness :
  normalizeGrade env_api_up (Some (JStr (u " unknown-grade-xyz ")))
  = GradeText (u "unknown-grade-xyz")
  /\ trim (u "unknown-grade-xyz") = u "unknown-grade-xyz".
Proof.
  split; [reflexivity|].
  exact (proj1 (proj2 (normalizeGrade_result env_api_up
                         (Some (JStr (u " unknown-grade-xyz "))))
                  (u "unknown-grade-xyz") eq_refl)).
Defined.

(** X25 at work: [null] for a response. *)
Lemma processSearchResponse_any_response_witness :
  exists hs w',
    processSearchResponse env_api_up JNull empty_world = (Returned hs, w')
    /\ hs = []
    /\ w' = set_events [EvLog LWarn "Invalid API response format"] empty_world.
Proof.
  destruct (processSearchResponse_any_response env_api_up JNull empty_world)
    as (hs & w' & Hrun & _ & _ & _ & _ & _ & _ & Hother).
  exists hs, w'. split; [exact Hrun|]. apply Hother. discriminate.
Defined.

(** X26 at work: the API is down. *)
Lemma search_never_throws_witness :
  exists hs w',
    search env_api_down (Some (JStr (u "salah"))) (JObj []) empty_world = (Returned hs, w')
    /\ (length (api_requests (new_events empty_world w')) <= 1)%nat.
Proof.
  destruct (search_never_throws env_api_down (Some (JStr (u "salah"))) (JObj []) empty_world)
    as (hs & w' & Hrun & Hone & _).
  exists hs, w'. split; [exact Hrun|exact Hone].
Defined.


(** X29 at work: the stored row is viewed once. *)
Lemma getById_counts_the_view_witness :
  exists l1 l2,
    hadithTable (world_with_row true) = l1 ++ example_row true :: l2
    /\ getById (fun _ t => t) (u "row-1") (world_with_row true)
       = (Returned (Some (example_row true)),
          set_hadithTable
            (l1 ++ {| row_data := row_data (example_row true); searchCount := 0 + 1;
                      createdAt := 0; updatedAt := 0 |} :: l2)
            (world_with_row true)).
Proof.
  assert (Hwf : table_wf (hadithTable (world_with_row true))).
  { split; apply NoDup_singleton. }
  destruct (getById_counts_the_view (fun _ t => t) (u "row-1") (world_with_row true) Hwf)
    as (l1 & l2 & Htab & Hrun & _).
  exists l1, l2. split; [exact Htab|exact Hrun].
Defined.

(** X30 at work: the first element is saved into the empty table and read
    back. *)
Lemma saved_row_is_found_by_id_witness :
  let d := hadithData_of env_api_up (u "a") [] raw_first in
  let row := {| row_data := d; searchCount := 0; createdAt := 0; updatedAt := 0 |} in
  exists w2,
    getById (fun _ t => t) (id d) (set_now 7 (set_hadithTable [row] empty_world))
    = (Returned (Some row), w2).
Proof.
  intros d row.
  assert (Hwf : table_wf (hadithTable empty_world)) by (split; constructor).
  destruct (saved_row_is_found_by_id (fun _ t => t) d empty_world
              (set_hadithTable [row] empty_world) row 7 Hwf eq_refl)
    as (_ & w2 & Hrun & _).
  exists w2. exact Hrun.
Defined.

(** X24 at work: the first element goes into the empty table; the second,
    which has the same id, takes its place there. *)
Lemma save_inserts_or_updates_witness :
  let d1 := hadithData_of env_api_up (u "a") [] raw_first in
  let d2 := hadithData_of env_api_up (u "aa") [] raw_second in
  let w1 := snd (saveHadithToDatabase d1 empty_world) in
  List.map row_data (hadithTable w1) = [d1]
  /\ exists r w2,
       saveHadithToDatabase d2 (set_now 5 w1) = (Returned r, w2)
       /\ table_wf (hadithTable w2).
Proof.
  intros d1 d2 w1. split; [reflexivity|].
  assert (Hwf : table_wf (hadithTable (set_now 5 w1))).
  { split; apply NoDup_singleton. }
  destruct (save_inserts_or_updates d2 (set_now 5 w1) Hwf) as (r & w2 & Hrun & Hwf2 & _).
  exists r, w2. split; [exact Hrun|exact Hwf2].
Defined.

